(** * Tetris rules engine: board, pieces, collision, rotation, piece supply

    A shallow embedding of [src/lib/utils.ts] (both revisions present in the
    repository) and of the rule-bearing callbacks of [src/hooks/useGameLogic.ts],
    followed by the properties of the specification that concern them.

    Conventions of the embedding.
    - A JavaScript array is a [list]; [a[i]] is stdpp's lookup [a !! i].
    - A board cell is [Null] (the literal [null]), [Block t] (the string
      naming a piece kind, which is truthy) or [Undefined] (what a read
      outside an array yields, and what the holes left by a write past the
      end of an array read as).
    - Shape matrices hold numbers; a number is truthy iff it is not [0].
    - [Math.random()] is an oracle [rnd : nat -> Q]; the state threaded
      through the code is the number of draws made so far.
    - The composite score of a placement is a JavaScript number, an IEEE 754
      binary64 value: it is computed and compared with the operations of
      [SpecFloat] at precision 53 and exponent bound 1024.
    - A [while] loop takes fuel and yields [None] when the fuel runs out. *)

From Stdlib Require Import ZArith QArith Qround Lia Bool String Ascii Decimal DecimalString.
From Stdlib Require Import SpecFloat.
From stdpp Require Import base tactics option list.

Local Open Scope Z_scope.
Local Open Scope nat_scope.

(** ** Data model *)

Inductive TetrominoType : Type := TI | TO | TT | TS | TZ | TJ | TL.

#[global] Instance TetrominoType_eq_dec : EqDecision TetrominoType.
Proof. solve_decision. Defined.

Inductive Cell : Type :=
| Null
| Undefined
| Block (t : TetrominoType).

#[global] Instance Cell_eq_dec : EqDecision Cell.
Proof. solve_decision. Defined.

Abbreviation Row := (list Cell).
Abbreviation Board := (list (list Cell)).
Abbreviation Matrix := (list (list nat)).

Record Position : Type := mkPosition { pos_x : Z; pos_y : Z }.

Record Tetromino : Type := mkTetromino {
  type : TetrominoType;
  shape : Matrix;
  position : Position;
  rotation : nat
}.

(** [{ ...piece, position: { ...piece.position, y: v } }] *)
Definition with_y (piece : Tetromino) (v : Z) : Tetromino :=
  mkTetromino (type piece) (shape piece)
              (mkPosition (pos_x (position piece)) v) (rotation piece).

(** JavaScript truthiness of a number and of a board cell. *)
Definition truthyNum (n : nat) : bool := negb (Nat.eqb n 0).

Definition truthyCell (c : Cell) : bool :=
  match c with Block _ => true | _ => false end.

(** [cell !== null] *)
Definition notNull (c : Cell) : bool :=
  match c with Null => false | _ => true end.

(** [matrix[i][j]] for a row [i] that exists; a read past the end of the row
    is [undefined], which behaves as [0] wherever the code looks at it. *)
Definition getNum (m : Matrix) (i j : nat) : nat :=
  default 0 (m !! i ≫= (.!! j)).

(** [rotated[r][c] = v] for a position inside the matrix. *)
Definition setNum (m : Matrix) (r c v : nat) : Matrix :=
  match m !! r with
  | Some row => <[r := <[c := v]> row]> m
  | None => m
  end.

(** [board[r][c]] for a row [r] that exists. *)
Definition getCell (board : Board) (r c : nat) : Cell :=
  default Undefined (board !! r ≫= (.!! c)).

(** [row[i] = v] on a JavaScript array: inside the array the element is
    replaced, past its end the array grows and the skipped slots are holes. *)
Definition jsWrite (row : Row) (i : nat) (v : Cell) : Row :=
  if decide (i < length row) then <[i := v]> row
  else row ++ replicate (i - length row) Undefined ++ [v].

(** ** Matrix rotation *)

Definition rotateMatrix (matrix : Matrix) : Matrix :=
  let N := length matrix in
  let rotated := replicate N (replicate N 0) in
  foldl (fun rot i =>
           foldl (fun rot' j => setNum rot' j (N - 1 - i) (getNum matrix i j))
                 rot (seq 0 N))
        rotated (seq 0 N).

Definition getRotatedShape (piece : Tetromino) : Matrix :=
  Nat.iter (rotation piece) rotateMatrix (shape piece).

(** An N x N matrix. *)
Definition square (m : Matrix) : Prop :=
  Forall (fun row => length row = length m) m.

(** Cell [(r, c)] of the matrix exists and is truthy. *)
Definition occupied (m : Matrix) (r c : nat) : Prop :=
  ∃ row v, m !! r = Some row ∧ row !! c = Some v ∧ v ≠ 0.

Definition has_block (m : Matrix) : Prop := ∃ r c, occupied m r c.

(** ** Sample data *)

(** Modelled from the spec: [TETROMINO_SHAPES] of [@/lib/constants] is not
    among the sources.  The spec gives each kind an N x N binary matrix with
    N in {2, 3, 4}; these are the seven tetrominoes in their usual spawn
    layout.  The properties below are stated for any table of shapes; this
    one serves to run them. *)
Definition standardShapes (t : TetrominoType) : Matrix :=
  match t with
  | TI => [[0; 0; 0; 0]; [1; 1; 1; 1]; [0; 0; 0; 0]; [0; 0; 0; 0]]
  | TO => [[1; 1]; [1; 1]]
  | TT => [[0; 1; 0]; [1; 1; 1]; [0; 0; 0]]
  | TS => [[0; 1; 1]; [1; 1; 0]; [0; 0; 0]]
  | TZ => [[1; 1; 0]; [0; 1; 1]; [0; 0; 0]]
  | TJ => [[1; 0; 0]; [1; 1; 1]; [0; 0; 0]]
  | TL => [[0; 0; 1]; [1; 1; 1]; [0; 0; 0]]
  end.

(** Boards of 20 rows and 10 columns, the size of the spec's scenarios:
    empty, with every cell filled, and empty above a filled bottom row. *)
Definition emptyBoard : Board := replicate 20 (replicate 10 Null).

Definition fullBoard : Board := replicate 20 (replicate 10 (Block TI)).

Definition floorBoard : Board :=
  replicate 19 (replicate 10 Null) ++ [replicate 10 (Block TO)].

(** A T piece at the top of the board, an O piece whose right column is
    past the last column of the board, and a piece whose shape has no block. *)
Definition pieceT : Tetromino :=
  mkTetromino TT (standardShapes TT) (mkPosition 3 0) 0.

Definition edgePiece : Tetromino :=
  mkTetromino TO (standardShapes TO) (mkPosition 9 0) 0.

Definition blankPiece : Tetromino :=
  mkTetromino TO [[0; 0]; [0; 0]] (mkPosition 4 0) 0.

(** Random sources that always draw one half, and always draw zero. *)
Definition halves : nat → Q := fun _ => 1 # 2.

Definition zeros : nat → Q := fun _ => 0%Q.

Section Game.

(** The constants of [@/lib/constants], which the engine imports. *)
Variable BOARD_WIDTH BOARD_HEIGHT : nat.
Variable TETROMINO_SHAPES : TetrominoType → Matrix.

(** A board as the type [Board] and [createEmptyBoard] have it:
    [BOARD_HEIGHT] rows of [BOARD_WIDTH] cells, each [null] or a kind. *)
Definition wf_board (board : Board) : Prop :=
  length board = BOARD_HEIGHT ∧
  Forall (fun row => length row = BOARD_WIDTH ∧ Forall (fun c => c ≠ Undefined) row) board.

Definition createEmptyBoard : Board :=
  replicate BOARD_HEIGHT (replicate BOARD_WIDTH Null).

(** ** Collision *)

(** The condition under which [isValidMove] returns [false] at the shape
    cell [(y, x)]. *)
Definition collides (piece : Tetromino) (board : Board) (y x : nat) : bool :=
  let boardX := (pos_x (position piece) + Z.of_nat x)%Z in
  let boardY := (pos_y (position piece) + Z.of_nat y)%Z in
  (boardX <? 0)%Z || (boardX >=? Z.of_nat BOARD_WIDTH)%Z ||
  (boardY >=? Z.of_nat BOARD_HEIGHT)%Z ||
  ((boardY >=? 0)%Z && truthyCell (getCell board (Z.to_nat boardY) (Z.to_nat boardX))).

Definition isValidMove (piece : Tetromino) (board : Board) : bool :=
  let shape := getRotatedShape piece in
  forallb (fun y =>
    forallb (fun x =>
      if truthyNum (getNum shape y x) then negb (collides piece board y x) else true)
      (seq 0 (length (default [] (shape !! y)))))
    (seq 0 (length shape)).

(** ** Merging a piece into the board *)

(** [newBoard[boardY][boardX] = v] with [0 <= boardY < BOARD_HEIGHT].  A
    negative [boardX] names a property that is not an element of the row, so
    the cells of the row stay as they are. *)
Definition writeBoard (board : Board) (boardY boardX : Z) (v : Cell) : Board :=
  match board !! Z.to_nat boardY with
  | Some row =>
      if (boardX <? 0)%Z then board
      else <[Z.to_nat boardY := jsWrite row (Z.to_nat boardX) v]> board
  | None => board
  end.

(** The two nested loops of [addPieceToBoard], over any state [St] that the
    assignment [newBoard[boardY][boardX] = piece.type] acts on. *)
Definition placeCells {St : Type} (write : St → Z → Z → Cell → St)
    (piece : Tetromino) (st : St) : St :=
  let shape := getRotatedShape piece in
  foldl (fun st1 y =>
    foldl (fun st2 x =>
      if truthyNum (getNum shape y x) then
        let boardY := (pos_y (position piece) + Z.of_nat y)%Z in
        let boardX := (pos_x (position piece) + Z.of_nat x)%Z in
        if (boardY >=? 0)%Z && (boardY <? Z.of_nat BOARD_HEIGHT)%Z
        then write st2 boardY boardX (Block (type piece))
        else st2
      else st2)
      st1 (seq 0 (length (default [] (shape !! y)))))
    st (seq 0 (length shape)).

(** [addPieceToBoard] on board values: the copy [board.map((row) => [...row])]
    is the board itself. *)
Definition addPieceToBoard (board : Board) (piece : Tetromino) : Board :=
  placeCells writeBoard piece board.

(** The same function on a store of row arrays, where a board is the list of
    the addresses of its rows: the copy allocates fresh rows and every write
    goes through the address held by [newBoard]. *)
Definition deref (h : list Row) (b : list nat) : Board :=
  (fun l => default [] (h !! l)) <$> b.

Definition copyBoard (h : list Row) (b : list nat) : list Row * list nat :=
  foldl (fun '(h', nb) l => (h' ++ [default [] (h' !! l)], nb ++ [length h']))
        (h, []) b.

Definition storeWrite (newBoard : list nat) (h : list Row)
    (boardY boardX : Z) (v : Cell) : list Row :=
  match newBoard !! Z.to_nat boardY with
  | Some l =>
      match h !! l with
      | Some row =>
          if (boardX <? 0)%Z then h
          else <[l := jsWrite row (Z.to_nat boardX) v]> h
      | None => h
      end
  | None => h
  end.

Definition addPieceToBoard_store (h : list Row) (board : list nat)
    (piece : Tetromino) : list Row * list nat :=
  let '(h0, newBoard) := copyBoard h board in
  (placeCells (storeWrite newBoard) piece h0, newBoard).

(** ** Line clearing *)

Definition clearLines (board : Board) : Board * nat :=
  foldl (fun '(acc, linesCleared) row =>
           if forallb notNull row
           then (replicate BOARD_WIDTH Null :: acc, S linesCleared)
           else (acc ++ [row], linesCleared))
        ([], 0) board.

(** ** Downward descent *)

(** [while (isValidMove({ ...piece, position: { ...piece.position,
    y: piece.position.y + 1 } }, board)) piece.position.y++], the loop of
    [getGhostPiecePosition], [simulatePlacement] and [findBestPlacement]. *)
Fixpoint descend (fuel : nat) (piece : Tetromino) (board : Board) : option Tetromino :=
  match fuel with
  | 0 => None
  | S fuel' =>
      if isValidMove (with_y piece (pos_y (position piece) + 1)%Z) board
      then descend fuel' (with_y piece (pos_y (position piece) + 1)%Z) board
      else Some piece
  end.

Definition getGhostPiecePosition (fuel : nat) (piece : Tetromino) (board : Board)
    : option Tetromino :=
  descend fuel piece board.

(** [getGhostPiecePosition] on a store of position objects: a piece object
    holds the address of its position; [ghost] is a copy of the piece with a
    freshly allocated position, and [ghost.position.y++] writes there. *)
Record TetrominoObj : Type := mkTetrominoObj {
  o_type : TetrominoType;
  o_shape : Matrix;
  o_position : nat;
  o_rotation : nat
}.

Definition load (ps : list Position) (o : TetrominoObj) : Tetromino :=
  mkTetromino (o_type o) (o_shape o)
              (default (mkPosition 0 0) (ps !! o_position o)) (o_rotation o).

Fixpoint ghostLoop (fuel : nat) (ps : list Position) (ghost : TetrominoObj)
    (board : Board) : option (list Position) :=
  match fuel with
  | 0 => None
  | S fuel' =>
      let cur := load ps ghost in
      if isValidMove (with_y cur (pos_y (position cur) + 1)%Z) board
      then ghostLoop fuel'
             (<[o_position ghost :=
                  mkPosition (pos_x (position cur)) (pos_y (position cur) + 1)%Z]> ps)
             ghost board
      else Some ps
  end.

Definition getGhostPiecePosition_store (fuel : nat) (ps : list Position)
    (piece : TetrominoObj) (board : Board) : option (list Position * TetrominoObj) :=
  let ghost := mkTetrominoObj (o_type piece) (o_shape piece) (length ps) (o_rotation piece) in
  let ps0 := ps ++ [position (load ps piece)] in
  match ghostLoop fuel ps0 ghost board with
  | Some ps' => Some (ps', ghost)
  | None => None
  end.

(** The loop of [hardDrop], which leaves the piece alone and counts. *)
Fixpoint hardDropLoop (fuel : nat) (currentPiece : Tetromino) (board : Board)
    (newY : Z) (dropDistance : nat) : option (Z * nat) :=
  match fuel with
  | 0 => None
  | S fuel' =>
      if isValidMove (with_y currentPiece (newY + 1)%Z) board
      then hardDropLoop fuel' currentPiece board (newY + 1)%Z (S dropDistance)
      else Some (newY, dropDistance)
  end.

(** ** Wall kicks and rotation *)

(** [obj[key]] on an object literal: the value of the property, or
    [undefined] ([None]) when there is none. *)
Fixpoint property {A : Type} (obj : list (string * A)) (key : string) : option A :=
  match obj with
  | [] => None
  | (k, v) :: rest => if String.eqb k key then Some v else property rest key
  end.

Definition standardKicks : list (string * list Position) :=
  [ ("01"%string, [mkPosition 0 0; mkPosition (-1) 0; mkPosition (-1) (-1);
                   mkPosition 0 2; mkPosition (-1) 2]);
    ("12"%string, [mkPosition 0 0; mkPosition 1 0; mkPosition 1 1;
                   mkPosition 0 (-2); mkPosition 1 (-2)]);
    ("23"%string, [mkPosition 0 0; mkPosition 1 0; mkPosition 1 (-1);
                   mkPosition 0 2; mkPosition 1 2]);
    ("30"%string, [mkPosition 0 0; mkPosition (-1) 0; mkPosition (-1) 1;
                   mkPosition 0 (-2); mkPosition (-1) (-2)]) ].

Definition iKicks : list (string * list Position) :=
  [ ("01"%string, [mkPosition 0 0; mkPosition (-2) 0; mkPosition 1 0;
                   mkPosition (-2) 1; mkPosition 1 (-2)]);
    ("12"%string, [mkPosition 0 0; mkPosition (-1) 0; mkPosition 2 0;
                   mkPosition (-1) (-2); mkPosition 2 1]);
    ("23"%string, [mkPosition 0 0; mkPosition 2 0; mkPosition (-1) 0;
                   mkPosition 2 (-1); mkPosition (-1) 2]);
    ("30"%string, [mkPosition 0 0; mkPosition 1 0; mkPosition (-2) 0;
                   mkPosition 1 2; mkPosition (-2) (-1)]) ].

(** The decimal text of a rotation count, as a template literal prints it. *)
Definition numberText (n : nat) : string :=
  NilEmpty.string_of_uint (Nat.to_uint n).

Definition kickKey (currentRotation : nat) : string :=
  (numberText currentRotation ++ numberText ((currentRotation + 1) mod 4))%string.

Definition getWallKicks (piece : Tetromino) (currentRotation : nat) : list Position :=
  let key := kickKey currentRotation in
  match type piece with
  | TI => default (default [] (property iKicks "01")) (property iKicks key)
  | TO => [mkPosition 0 0]
  | _ => default (default [] (property standardKicks "01")) (property standardKicks key)
  end.

Inductive GameState : Type := INITIAL | PLAYING | PAUSED | GAME_OVER.

#[global] Instance GameState_eq_dec : EqDecision GameState.
Proof. solve_decision. Defined.

(** The part of the hook's state that [rotatePiece] reads and writes. *)
Record Session : Type := mkSession {
  s_board : Board;
  s_currentPiece : option Tetromino;
  s_ghostPiece : option Tetromino;
  s_gameState : GameState
}.

(** [{ ...rotatedPiece, position: { x: rotatedPiece.position.x + kick.x,
    y: rotatedPiece.position.y + kick.y } }] *)
Definition kicked (rotatedPiece : Tetromino) (kick : Position) : Tetromino :=
  mkTetromino (type rotatedPiece) (shape rotatedPiece)
    (mkPosition (pos_x (position rotatedPiece) + pos_x kick)%Z
                (pos_y (position rotatedPiece) + pos_y kick)%Z)
    (rotation rotatedPiece).

(** The [for (const kick of kicks)] loop of [rotatePiece]; the fuel is for
    the ghost projection made by [updateGhostPiece]. *)
Fixpoint tryKicks (fuel : nat) (s : Session) (rotatedPiece : Tetromino)
    (kicks : list Position) : option Session :=
  match kicks with
  | [] => Some s
  | kick :: rest =>
      let kickedPiece := kicked rotatedPiece kick in
      if isValidMove kickedPiece (s_board s) then
        match getGhostPiecePosition fuel kickedPiece (s_board s) with
        | Some ghost =>
            Some (mkSession (s_board s) (Some kickedPiece) (Some ghost) (s_gameState s))
        | None => None
        end
      else tryKicks fuel s rotatedPiece rest
  end.

Definition rotatePiece (fuel : nat) (s : Session) : option Session :=
  match s_currentPiece s with
  | None => Some s
  | Some currentPiece =>
      match s_gameState s with
      | PLAYING =>
          let newRotation := (rotation currentPiece + 1) mod 4 in
          let rotatedPiece :=
            mkTetromino (type currentPiece) (shape currentPiece)
                        (position currentPiece) newRotation in
          let kicks := getWallKicks currentPiece (rotation currentPiece) in
          tryKicks fuel s rotatedPiece kicks
      | _ => Some s
      end
  end.

(** ** Board metrics *)

Definition countHoles (board : Board) : nat :=
  foldl (fun holes x =>
    fst (foldl (fun '(holes', foundBlock) y =>
                  if notNull (getCell board y x) then (holes', true)
                  else if foundBlock then (S holes', foundBlock)
                  else (holes', foundBlock))
               (holes, false) (seq 0 BOARD_HEIGHT)))
    0 (seq 0 BOARD_WIDTH).

Record Metrics : Type := mkMetrics { holes : nat; height : nat; bumpiness : nat }.

Definition absDiff (a b : nat) : nat := (a - b) + (b - a).

Fixpoint sumAdjacent (columnHeights : list nat) : nat :=
  match columnHeights with
  | a :: (b :: _) as rest => absDiff a b + sumAdjacent rest
  | _ => 0
  end.

Definition calculateBoardMetrics (board : Board) : Metrics :=
  let holes := countHoles board in
  let height :=
    match find (fun y => existsb notNull (default [] (board !! y))) (seq 0 BOARD_HEIGHT) with
    | Some y => BOARD_HEIGHT - y
    | None => 0
    end in
  let columnHeights :=
    (fun x =>
       match find (fun y => notNull (getCell board y x)) (seq 0 BOARD_HEIGHT) with
       | Some y => BOARD_HEIGHT - y
       | None => 0
       end) <$> seq 0 BOARD_WIDTH in
  mkMetrics holes height (sumAdjacent columnHeights).

(** ** Piece creation *)

(** [generateNewPiece(type)]; every caller in the engine passes the kind. *)
Definition generateNewPiece (t : TetrominoType) : Tetromino :=
  let shape := TETROMINO_SHAPES t in
  mkTetromino t shape
    (mkPosition ((Z.of_nat BOARD_WIDTH - Z.of_nat (length (default [] (shape !! 0%nat)))) / 2)%Z 0)
    0.

(** [piece.rotation = rotation; piece.position.x = x; piece.position.y = 0] *)
Definition pieceAt (pieceType : TetrominoType) (x : Z) (rotation : nat) : Tetromino :=
  let piece := generateNewPiece pieceType in
  mkTetromino (type piece) (shape piece) (mkPosition x 0) rotation.

(** [for (let x = -3; x < BOARD_WIDTH + 3; x++)] *)
Definition xRange : list Z :=
  (fun i => (Z.of_nat i - 3)%Z) <$> seq 0 (BOARD_WIDTH + 6).

Definition Qltb (a b : Q) : bool := negb (Qle_bool b a).

(** ** Placement search, revision with the composite score *)

(** The score is a JavaScript number: a binary64 value with the sum, the
    product and the comparison of IEEE 754, rounding to nearest, ties to
    even. *)
Definition Number : Type := spec_float.

Definition fadd : Number → Number → Number := SFadd 53 1024.
Definition fmul : Number → Number → Number := SFmul 53 1024.
Definition flt : Number → Number → bool := SFltb.

(** A count held in a number. The counts of the metrics are integers that
    the code holds in numbers; below [2^53], which no count on a board that
    fits in memory reaches, a number holds an integer exactly. *)
Definition toNumber (n : nat) : Number := binary_normalize 53 1024 (Z.of_nat n) 0 false.

Definition Infinity : Number := S754_infinity false.

(** The literals [10], [0.5], [0.3] and [-5]; [0.3] denotes the binary64
    value nearest to it, [0x1.3333333333333p-2]. *)
Definition HOLE_WEIGHT : Number := binary_normalize 53 1024 10 0 false.
Definition HEIGHT_WEIGHT : Number := binary_normalize 53 1024 1 (-1) false.
Definition BUMPINESS_WEIGHT : Number := S754_finite false 5404319552844595 (-54).
Definition LINES_WEIGHT : Number := binary_normalize 53 1024 (-5) 0 false.

Definition num (n : nat) : Q := inject_Z (Z.of_nat n).

Definition scoreBoardState (currentBoard resultBoard : Board) (linesCleared : nat)
    : Number :=
  let metrics := calculateBoardMetrics resultBoard in
  fadd (fadd (fadd (fmul (toNumber (holes metrics)) HOLE_WEIGHT)
                   (fmul (toNumber (height metrics)) HEIGHT_WEIGHT))
             (fmul (toNumber (bumpiness metrics)) BUMPINESS_WEIGHT))
       (fmul (toNumber linesCleared) LINES_WEIGHT).

Record Placement : Type := mkPlacement {
  pl_score : Number;
  pl_x : Z;
  pl_rotation : nat;
  pl_linesCleared : nat
}.

(** One pass through the body of the inner loop of [findBestPlacement]:
    [None] when the descent runs out of fuel, otherwise the value of
    [bestPlacement] after the pass. *)
Definition tryPlacement (fuel : nat) (pieceType : TetrominoType) (board : Board)
    (bestPlacement : option Placement) (rotation : nat) (x : Z)
    : option (option Placement) :=
  match descend fuel (pieceAt pieceType x rotation) board with
  | None => None
  | Some piece =>
      if negb (isValidMove piece board) then Some bestPlacement
      else
        let boardWithPiece := addPieceToBoard board piece in
        let '(clearedBoard, linesCleared) := clearLines boardWithPiece in
        let score := scoreBoardState board clearedBoard linesCleared in
        match bestPlacement with
        | None => Some (Some (mkPlacement score x rotation linesCleared))
        | Some best =>
            if flt score (pl_score best)
            then Some (Some (mkPlacement score x rotation linesCleared))
            else Some bestPlacement
        end
  end.

Definition findBestPlacement (fuel : nat) (pieceType : TetrominoType) (board : Board)
    : option (option Placement) :=
  foldl (fun acc rotation =>
    foldl (fun acc' x =>
             acc' ≫= fun best => tryPlacement fuel pieceType board best rotation x)
          acc xRange)
    (Some None) (seq 0 4).

Definition isBoardMostlyEmpty (board : Board) : bool :=
  let filledCells :=
    foldl (fun n y =>
      foldl (fun n' x => if notNull (getCell board y x) then S n' else n')
            n (seq 0 BOARD_WIDTH))
      0 (seq 0 BOARD_HEIGHT) in
  let totalCells := BOARD_WIDTH * BOARD_HEIGHT in
  (* 0 / 0 is NaN, and NaN < 0.08 is false *)
  if Nat.eqb totalCells 0 then false
  else Qltb (num filledCells / num totalCells) 0.08.

Definition hasNearCompleteLine (board : Board) : bool :=
  existsb (fun y =>
    let filledInRow := length (filter (fun c => notNull c = true) (default [] (board !! y))) in
    Qle_bool (num BOARD_WIDTH * 0.6) (num filledInRow))
    (seq 0 BOARD_HEIGHT).

(** [arr[i]] for a number [i]: [undefined] ([None]) outside the array. *)
Definition jsIndex {A : Type} (arr : list A) (i : Z) : option A :=
  if (i <? 0)%Z then None else arr !! Z.to_nat i.

Definition pieceTypes : list TetrominoType := [TI; TO; TT; TS; TZ; TJ; TL].

(** [pieceTypes[Math.floor(Math.random() * pieceTypes.length)]], with the
    draw counter advanced. *)
Definition randomKind (rnd : nat → Q) (k : nat) : option TetrominoType * nat :=
  (jsIndex pieceTypes (Qfloor (rnd k * num (length pieceTypes))), S k).

(** The selection loop, from [bestPiece = default_] and
    [bestScore = Infinity]. *)
Definition selectBest (fuel : nat) (board : Board) (default_ : TetrominoType)
    : option TetrominoType :=
  fst <$>
  foldl (fun acc pieceType =>
    acc ≫= fun '(bestPiece, bestScore) =>
    findBestPlacement fuel pieceType board ≫= fun placement =>
    match placement with
    | Some pl =>
        if flt (pl_score pl) bestScore
        then Some (pieceType, pl_score pl)
        else Some (bestPiece, bestScore)
    | None => Some (bestPiece, bestScore)
    end)
    (Some (default_, Infinity)) pieceTypes.

Definition selectOptimalPiece (fuel : nat) (rnd : nat → Q) (k : nat) (board : Board)
    : option (option TetrominoType * nat) :=
  if isBoardMostlyEmpty board then Some (randomKind rnd k)
  else
    let '(chance, k1) :=
      if hasNearCompleteLine board then (false, k)
      else (Qltb (rnd k) 0.6, S k) in
    if chance then Some (randomKind rnd k1)
    else if Qltb (rnd k1) 0.2 then Some (randomKind rnd (S k1))
    else (fun bestPiece => (Some bestPiece, S k1)) <$> selectBest fuel board TT.

(** ** Placement search, revision that counts holes only *)

Definition simulatePlacement (fuel : nat) (pieceType : TetrominoType) (board : Board)
    (x : Z) (rotation : nat) : option (option Board) :=
  match descend fuel (pieceAt pieceType x rotation) board with
  | None => None
  | Some piece =>
      if negb (isValidMove piece board) then Some None
      else Some (Some (fst (clearLines (addPieceToBoard board piece))))
  end.

Record HolesPlacement : Type := mkHolesPlacement {
  hp_holes : nat;
  hp_x : Z;
  hp_rotation : nat
}.

Definition tryPlacement_byHoles (fuel : nat) (rnd : nat → Q) (pieceType : TetrominoType)
    (board : Board) (st : option HolesPlacement * nat) (rotation : nat) (x : Z)
    : option (option HolesPlacement * nat) :=
  let '(bestPlacement, k) := st in
  match simulatePlacement fuel pieceType board x rotation with
  | None => None
  | Some None => Some st
  | Some (Some resultBoard) =>
      let metrics := calculateBoardMetrics resultBoard in
      match bestPlacement with
      | None => Some (Some (mkHolesPlacement (holes metrics) x rotation), k)
      | Some best =>
          if holes metrics <? hp_holes best
          then Some (Some (mkHolesPlacement (holes metrics) x rotation), k)
          else if holes metrics =? hp_holes best
          then if Qltb (rnd k) 0.5
               then Some (Some (mkHolesPlacement (holes metrics) x rotation), S k)
               else Some (bestPlacement, S k)
          else Some st
      end
  end.

Definition findBestPlacement_byHoles (fuel : nat) (rnd : nat → Q) (k : nat)
    (pieceType : TetrominoType) (board : Board)
    : option (option HolesPlacement * nat) :=
  foldl (fun acc rotation =>
    foldl (fun acc' x =>
             acc' ≫= fun st => tryPlacement_byHoles fuel rnd pieceType board st rotation x)
          acc xRange)
    (Some (None, k)) (seq 0 4).

(** [bestHoles = None] is [Infinity]. *)
Definition selectOptimalPiece_byHoles (fuel : nat) (rnd : nat → Q) (k : nat) (board : Board)
    : option (TetrominoType * nat) :=
  (fun '(bestPiece, _, k') => (bestPiece, k')) <$>
  foldl (fun acc pieceType =>
    acc ≫= fun '(bestPiece, bestHoles, k') =>
    findBestPlacement_byHoles fuel rnd k' pieceType board ≫= fun '(placement, k'') =>
    match placement with
    | Some pl =>
        if match bestHoles with
           | None => true
           | Some b => hp_holes pl <? b
           end
        then Some (pieceType, Some (hp_holes pl), k'')
        else Some (bestPiece, bestHoles, k'')
    | None => Some (bestPiece, bestHoles, k'')
    end)
    (Some (TI, None, k)) pieceTypes.

(** ** The bag *)

Definition TETROMINO_TYPES : list TetrominoType := [TI; TO; TT; TS; TZ; TJ; TL].

(** [[bag[i], bag[j]] = [bag[j], bag[i]]] for indices inside the bag. *)
Definition swapAt (bag : list TetrominoType) (i : nat) (j : Z) : list TetrominoType :=
  match bag !! i, jsIndex bag j with
  | Some a, Some b => <[Z.to_nat j := a]> (<[i := b]> bag)
  | _, _ => bag
  end.

Definition generateBag (rnd : nat → Q) (k : nat) : list TetrominoType * nat :=
  foldl (fun '(bag, k') i =>
           (swapAt bag i (Qfloor (rnd k' * num (i + 1))), S k'))
        (TETROMINO_TYPES, k)
        (rev (seq 1 (length TETROMINO_TYPES - 1))).

Variable PREVIEW_PIECES : nat.

(** [bagRef.current.push(...generateBag())] *)
Definition refill (rnd : nat → Q) (st : list TetrominoType * nat)
    : list TetrominoType * nat :=
  let '(bag, k) := st in
  let '(fresh, k') := generateBag rnd k in
  (bag ++ fresh, k').

(** [getNextPiece]: the state is the bag held by [bagRef] and the draw
    counter; the result is [None] only when the selector runs out of fuel,
    and the kind is [None] for [undefined]. *)
Definition getNextPiece (perfectPieceMode : bool) (fuel : nat) (rnd : nat → Q)
    (st : list TetrominoType * nat) (currentBoard : Board)
    : option (option TetrominoType * (list TetrominoType * nat)) :=
  if perfectPieceMode then
    (fun '(t, k') => (t, (fst st, k'))) <$> selectOptimalPiece fuel rnd (snd st) currentBoard
  else
    let st1 := if Nat.eqb (length (fst st)) 0 then refill rnd st else st in
    let next := head (fst st1) in
    let st2 := (tail (fst st1), snd st1) in
    let st3 := if length (fst st2) <? PREVIEW_PIECES + 1 then refill rnd st2 else st2 in
    Some (next, st3).

(** [n] successive draws in fair-bag mode. *)
Fixpoint draws (n : nat) (rnd : nat → Q) (st : list TetrominoType * nat) (board : Board)
    : list (option TetrominoType) * (list TetrominoType * nat) :=
  match n with
  | 0 => ([], st)
  | S n' =>
      match getNextPiece false 0 rnd st board with
      | Some (t, st') =>
          let '(ts, st'') := draws n' rnd st' board in (t :: ts, st'')
      | None => ([], st)
      end
  end.

(** ** Scoring, levels and speed *)

Variable INITIAL_SPEED LEVEL_SPEED_MULTIPLIER : Z.

(** The object literal [basePoints]; [None] is [undefined]. *)
Definition basePoints (lines : nat) : option nat :=
  match lines with
  | 1 => Some 100
  | 2 => Some 300
  | 3 => Some 500
  | 4 => Some 800
  | _ => None
  end.

Definition calculateScore (lines level : nat) : nat :=
  default 0 (basePoints lines) * level.

Definition calculateLevel (lines : nat) : nat := lines / 10 + 1.

Definition calculateSpeed (level : nat) : Z :=
  let minSpeed := 100%Z in
  let calculatedSpeed :=
    (INITIAL_SPEED - (Z.of_nat level - 1) * LEVEL_SPEED_MULTIPLIER)%Z in
  Z.max calculatedSpeed minSpeed.

Definition isGameOver (piece : Tetromino) (board : Board) : bool :=
  negb (isValidMove piece board).

(** ** The game session of [useGameLogic] *)

(** [POINTS.SOFT_DROP] and [POINTS.HARD_DROP] of [@/lib/constants]. *)
Variable POINTS_SOFT_DROP POINTS_HARD_DROP : nat.

(** The state cells of the hook, with the bag held by [bagRef] and the
    number of draws made from [Math.random()].  A callback is a function
    from the state at the render that created it to the state after the
    updates it queues; it yields [None] when a descent runs out of fuel or
    an exception is thrown. *)
Record Game : Type := mkGame {
  g_board : Board;
  g_currentPiece : option Tetromino;
  g_nextPieces : list TetrominoType;
  g_bag : list TetrominoType;
  g_heldPiece : option TetrominoType;
  g_canHold : bool;
  g_ghostPiece : option Tetromino;
  g_score : nat;
  g_level : nat;
  g_lines : nat;
  g_highScore : nat;
  g_gameState : GameState;
  g_dropSpeed : Z;
  g_perfectPieceMode : bool;
  g_draws : nat
}.

(** [generateNewPiece(type)] for a [type] that may be [undefined]: a random
    kind is drawn then, and an index outside the list of kinds leaves
    [TETROMINO_SHAPES[undefined].map], which throws. *)
Definition generateNewPiece_of (rnd : nat → Q) (k : nat) (type : option TetrominoType)
    : option (Tetromino * nat) :=
  let '(randomType, k') :=
    match type with
    | Some t => (Some t, k)
    | None => randomKind rnd k
    end in
  (fun t => (generateNewPiece t, k')) <$> randomType.

(** [getNextPiece(currentBoard)] on the session, for a callback created
    with the mode flag [perfectPieceMode]: the bag and the draw counter move
    on, and in bag mode [setNextPieces] shows the head of the bag. *)
Definition nextPiece (perfectPieceMode : bool) (fuel : nat) (rnd : nat → Q)
    (g : Game) (currentBoard : Board) : option (option TetrominoType * Game) :=
  (fun '(t, (bag, k)) =>
     (t, mkGame (g_board g) (g_currentPiece g)
                (if perfectPieceMode then g_nextPieces g else take PREVIEW_PIECES bag)
                bag (g_heldPiece g) (g_canHold g) (g_ghostPiece g) (g_score g)
                (g_level g) (g_lines g) (g_highScore g) (g_gameState g)
                (g_dropSpeed g) (g_perfectPieceMode g) k))
  <$> getNextPiece perfectPieceMode fuel rnd (g_bag g, g_draws g) currentBoard.

(** The updates queued when [linesCleared > 0]. *)
Definition creditLines (linesCleared : nat) (level : nat) (g : Game) : Game :=
  let points := calculateScore linesCleared level in
  let newLines := g_lines g + linesCleared in
  let newLevel := calculateLevel newLines in
  mkGame (g_board g) (g_currentPiece g) (g_nextPieces g) (g_bag g) (g_heldPiece g)
         (g_canHold g) (g_ghostPiece g) (g_score g + points)
         (if Nat.eqb newLevel level then g_level g else newLevel)
         newLines (g_highScore g) (g_gameState g)
         (if Nat.eqb newLevel level then g_dropSpeed g else calculateSpeed newLevel)
         (g_perfectPieceMode g) (g_draws g).

(** [movePiece(dx, dy)].  The callback reads the state cells of the render
    that created it, here [g], and queues its updates on the pending state
    [pend]; the updater functions [(prev) => ...] and the bag held by the
    ref read the pending state. *)
Definition movePiece_from (g : Game) (fuel : nat) (rnd : nat → Q) (dx dy : Z)
    (pend : Game) : option (bool * Game) :=
  match g_currentPiece g, g_gameState g with
  | Some currentPiece, PLAYING =>
      let board := g_board g in
      let movedPiece :=
        mkTetromino (type currentPiece) (shape currentPiece)
          (mkPosition (pos_x (position currentPiece) + dx)%Z
                      (pos_y (position currentPiece) + dy)%Z)
          (rotation currentPiece) in
      if isValidMove movedPiece board then
        (fun ghost =>
           (true,
            mkGame (g_board pend) (Some movedPiece) (g_nextPieces pend) (g_bag pend)
                   (g_heldPiece pend) (g_canHold pend) (Some ghost) (g_score pend)
                   (g_level pend) (g_lines pend) (g_highScore pend) (g_gameState pend)
                   (g_dropSpeed pend) (g_perfectPieceMode pend) (g_draws pend)))
        <$> getGhostPiecePosition fuel movedPiece board
      else if (dy >? 0)%Z then
        let newBoard := addPieceToBoard board currentPiece in
        let '(clearedBoard, linesCleared) := clearLines newBoard in
        let g1 :=
          if 0 <? linesCleared then creditLines linesCleared (g_level g) pend else pend in
        let g2 :=
          mkGame clearedBoard (g_currentPiece g1) (g_nextPieces g1) (g_bag g1)
                 (g_heldPiece g1) (g_canHold g1) (g_ghostPiece g1) (g_score g1)
                 (g_level g1) (g_lines g1) (g_highScore g1) (g_gameState g1)
                 (g_dropSpeed g1) (g_perfectPieceMode g1) (g_draws g1) in
        nextPiece (g_perfectPieceMode g) fuel rnd g2 clearedBoard ≫= fun '(nextType, g3) =>
        generateNewPiece_of rnd (g_draws g3) nextType ≫= fun '(newPiece, k) =>
        if negb (isValidMove newPiece clearedBoard) then
          Some (false,
                mkGame (g_board g3) (g_currentPiece g3) (g_nextPieces g3) (g_bag g3)
                       (g_heldPiece g3) (g_canHold g3) (g_ghostPiece g3) (g_score g3)
                       (g_level g3) (g_lines g3)
                       (if g_highScore g <? g_score g then g_score g else g_highScore g3)
                       GAME_OVER (g_dropSpeed g3) (g_perfectPieceMode g3) k)
        else
          (fun ghost =>
             (false,
              mkGame (g_board g3) (Some newPiece) (g_nextPieces g3) (g_bag g3)
                     (g_heldPiece g3) true (Some ghost) (g_score g3)
                     (g_level g3) (g_lines g3) (g_highScore g3) (g_gameState g3)
                     (g_dropSpeed g3) (g_perfectPieceMode g3) k))
          <$> getGhostPiecePosition fuel newPiece board
      else Some (false, pend)
  | _, _ => Some (false, pend)
  end.

(** [movePiece] called from an event, with nothing pending. *)
Definition movePiece (fuel : nat) (rnd : nat → Q) (dx dy : Z) (g : Game)
    : option (bool * Game) :=
  movePiece_from g fuel rnd dx dy g.

Definition hardDrop (fuel : nat) (rnd : nat → Q) (g : Game) : option Game :=
  match g_currentPiece g, g_gameState g with
  | Some currentPiece, PLAYING =>
      hardDropLoop fuel currentPiece (g_board g) (pos_y (position currentPiece)) 0
      ≫= fun '(newY, dropDistance) =>
      let pend :=
        mkGame (g_board g) (g_currentPiece g) (g_nextPieces g) (g_bag g) (g_heldPiece g)
               (g_canHold g) (g_ghostPiece g)
               (g_score g + dropDistance * POINTS_HARD_DROP)
               (g_level g) (g_lines g) (g_highScore g) (g_gameState g) (g_dropSpeed g)
               (g_perfectPieceMode g) (g_draws g) in
      snd <$> movePiece_from g fuel rnd 0 (Z.of_nat dropDistance) pend
  | _, _ => Some g
  end.

Definition softDropStep (fuel : nat) (rnd : nat → Q) (g : Game) : option (bool * Game) :=
  (fun '(moved, g') =>
     (moved,
      if moved : bool then
        mkGame (g_board g') (g_currentPiece g') (g_nextPieces g') (g_bag g')
               (g_heldPiece g') (g_canHold g') (g_ghostPiece g')
               (g_score g' + POINTS_SOFT_DROP)
               (g_level g') (g_lines g') (g_highScore g') (g_gameState g')
               (g_dropSpeed g') (g_perfectPieceMode g') (g_draws g')
      else g'))
  <$> movePiece fuel rnd 0 1 g.

Definition holdPiece (fuel : nat) (rnd : nat → Q) (g : Game) : option Game :=
  match g_currentPiece g, g_canHold g, g_gameState g with
  | Some currentPiece, true, PLAYING =>
      let pieceToHold := type currentPiece in
      (match g_heldPiece g with
       | Some held => Some (generateNewPiece held, g)
       | None =>
           nextPiece (g_perfectPieceMode g) fuel rnd g (g_board g) ≫= fun '(nextType, g1) =>
           (fun '(piece, k) =>
              (piece,
               mkGame (g_board g1) (g_currentPiece g1) (g_nextPieces g1) (g_bag g1)
                      (g_heldPiece g1) (g_canHold g1) (g_ghostPiece g1) (g_score g1)
                      (g_level g1) (g_lines g1) (g_highScore g1) (g_gameState g1)
                      (g_dropSpeed g1) (g_perfectPieceMode g1) k))
           <$> generateNewPiece_of rnd (g_draws g1) nextType
       end) ≫= fun '(newCurrentPiece, g2) =>
      (fun ghost =>
         mkGame (g_board g2) (Some newCurrentPiece) (g_nextPieces g2) (g_bag g2)
                (Some pieceToHold) false (Some ghost) (g_score g2) (g_level g2)
                (g_lines g2) (g_highScore g2) (g_gameState g2) (g_dropSpeed g2)
                (g_perfectPieceMode g2) (g_draws g2))
      <$> getGhostPiecePosition fuel newCurrentPiece (g_board g)
  | _, _, _ => Some g
  end.

Definition pauseGame (g : Game) : Game :=
  mkGame (g_board g) (g_currentPiece g) (g_nextPieces g) (g_bag g) (g_heldPiece g)
         (g_canHold g) (g_ghostPiece g) (g_score g) (g_level g) (g_lines g)
         (g_highScore g)
         (match g_gameState g with PLAYING => PAUSED | _ => PLAYING end)
         (g_dropSpeed g) (g_perfectPieceMode g) (g_draws g).

Definition resetGame (fuel : nat) (rnd : nat → Q) (g : Game) : option Game :=
  let emptyBoard := createEmptyBoard in
  let '(bag0, k0) := generateBag rnd (g_draws g) in
  let '(bag1, k1) :=
    if length bag0 <? PREVIEW_PIECES + 1 then refill rnd (bag0, k0) else (bag0, k0) in
  let g1 :=
    mkGame (g_board g) (g_currentPiece g) (take PREVIEW_PIECES bag1) bag1 (g_heldPiece g)
           (g_canHold g) (g_ghostPiece g) (g_score g) (g_level g) (g_lines g)
           (g_highScore g) (g_gameState g) (g_dropSpeed g) (g_perfectPieceMode g) k1 in
  nextPiece (g_perfectPieceMode g) fuel rnd g1 emptyBoard ≫= fun '(firstType, g2) =>
  generateNewPiece_of rnd (g_draws g2) firstType ≫= fun '(firstPiece, k) =>
  (fun ghostPiece =>
     mkGame emptyBoard (Some firstPiece) (g_nextPieces g2) (g_bag g2) None true
            (Some ghostPiece) 0 1 0 (g_highScore g2) PLAYING INITIAL_SPEED
            (g_perfectPieceMode g2) k)
  <$> getGhostPiecePosition fuel firstPiece emptyBoard.

(** ** Notions used to state the properties *)

Definition dims (N : nat) (m : Matrix) : Prop :=
  length m = N ∧ Forall (fun row => length row = N) m.

(** The shape cells in the order the nested loops visit them. *)
Definition cellsOf (m : Matrix) : list (nat * nat) :=
  y ← seq 0 (length m); (fun x => (y, x)) <$> seq 0 (length (default [] (m !! y))).

(** The assignment made for the shape cell [(y, x)]. *)
Definition placeCell {St : Type} (write : St → Z → Z → Cell → St)
    (piece : Tetromino) (st : St) (y x : nat) : St :=
  if truthyNum (getNum (getRotatedShape piece) y x) then
    let boardY := (pos_y (position piece) + Z.of_nat y)%Z in
    let boardX := (pos_x (position piece) + Z.of_nat x)%Z in
    if (boardY >=? 0)%Z && (boardY <? Z.of_nat BOARD_HEIGHT)%Z
    then write st boardY boardX (Block (type piece))
    else st
  else st.

(** Board cell [(r, c)] lies under an occupied cell of the piece. *)
Definition covered (piece : Tetromino) (r c : nat) : Prop :=
  ∃ y x, occupied (getRotatedShape piece) y x ∧
         (pos_y (position piece) + Z.of_nat y)%Z = Z.of_nat r ∧
         (pos_x (position piece) + Z.of_nat x)%Z = Z.of_nat c.


(** A draw [r] of [Math.random()] lies in [0, 1). *)
Definition unit_interval (r : Q) : Prop := (0 <= r)%Q ∧ (r < 1)%Q.

(** The bag is a sequence of whole shuffles of the seven kinds. *)
Definition at_bag_boundary (st : list TetrominoType * nat) : Prop :=
  ∃ bags, fst st = concat bags ∧ Forall (fun bag => bag ≡ₚ TETROMINO_TYPES) bags.

(** Where the piece of kind [t], put at column [x] of the top row in
    rotation state [rot], comes to rest. *)
Definition landing (fuel : nat) (t : TetrominoType) (board : Board)
    (rot : nat) (x : Z) : option Tetromino :=
  descend fuel (pieceAt t x rot) board.

(** The composite score of the board left by locking [q] and clearing. *)
Definition compositeScore (board : Board) (q : Tetromino) : Number :=
  let result := clearLines (addPieceToBoard board q) in
  let metrics := calculateBoardMetrics (fst result) in
  fadd (fadd (fadd (fmul (toNumber (holes metrics)) HOLE_WEIGHT)
                   (fmul (toNumber (height metrics)) HEIGHT_WEIGHT))
             (fmul (toNumber (bumpiness metrics)) BUMPINESS_WEIGHT))
       (fmul (toNumber (snd result)) LINES_WEIGHT).

(** The candidate that one trial offers, if its landing is valid. *)
Definition candidate (board : Board) (rot : nat) (x : Z) (q : Tetromino)
    : option Placement :=
  if isValidMove q board
  then Some (mkPlacement (compositeScore board q) x rot
                         (snd (clearLines (addPieceToBoard board q))))
  else None.

(** The update of [bestPlacement] by a candidate. *)
Definition pick (best cand : option Placement) : option Placement :=
  match cand with
  | None => best
  | Some c =>
      match best with
      | None => Some c
      | Some b => if flt (pl_score c) (pl_score b) then Some c else Some b
      end
  end.

(** The trials in the order of the two loops. *)
Definition trials : list (nat * Z) :=
  rot ← seq 0 4; (fun x => (rot, x)) <$> xRange.

(** Cell [(y, x)] is [null] and some cell above it in its column is not. *)
Definition holeAt (board : Board) (y x : nat) : bool :=
  negb (notNull (getCell board y x)) &&
  existsb (fun y' => notNull (getCell board y' x)) (seq 0 y).

(** The cells of the grid, column by column. *)
Definition gridCells : list (nat * nat) :=
  x ← seq 0 BOARD_WIDTH; (fun y => (x, y)) <$> seq 0 BOARD_HEIGHT.

(** What the hole-counting search holds in [bestPlacement] after the trials
    that satisfy [seen]. *)
Definition holes_invariant (fuel : nat) (t : TetrominoType) (board : Board)
    (seen : nat * Z → Prop) (best : option HolesPlacement) : Prop :=
  match best with
  | None => ∀ rot x, seen (rot, x) → simulatePlacement fuel t board x rot = Some None
  | Some p =>
      seen (hp_rotation p, hp_x p) ∧
      (∃ resultBoard,
         simulatePlacement fuel t board (hp_x p) (hp_rotation p) = Some (Some resultBoard) ∧
         hp_holes p = countHoles resultBoard) ∧
      ∀ rot x resultBoard, seen (rot, x) →
        simulatePlacement fuel t board x rot = Some (Some resultBoard) →
        hp_holes p ≤ countHoles resultBoard
  end.

(** What the selection loop holds in [bestPiece] and [bestScore] after the
    kinds that satisfy [seen]; [d] is the kind it starts from. *)
Definition selection_invariant (fuel : nat) (board : Board) (d : TetrominoType)
    (seen : TetrominoType → Prop) (bestPiece : TetrominoType) (bestScore : Number)
    : Prop :=
  (∀ t p', seen t → findBestPlacement fuel t board = Some (Some p') →
           flt (pl_score p') bestScore = false) ∧
  ((bestScore = Infinity ∧ bestPiece = d) ∨
   (∃ p, seen bestPiece ∧ findBestPlacement fuel bestPiece board = Some (Some p) ∧
         bestScore = pl_score p)).

(** The invariant of a session: the board is well-formed, the level and the
    drop interval are those of the line count, the current piece has the
    shape of its kind, and while the game is being played it is a valid
    placement. *)
Definition game_ok (g : Game) : Prop :=
  wf_board (g_board g) ∧
  g_level g = calculateLevel (g_lines g) ∧
  g_dropSpeed g = calculateSpeed (g_level g) ∧
  ∀ p, g_currentPiece g = Some p →
       shape p = TETROMINO_SHAPES (type p) ∧
       (g_gameState g = PLAYING → isValidMove p (g_board g) = true).

(** The shape table fits the board: every shape is a square matrix with a
    block, at least one row and no more rows than the board has rows and
    columns. *)
Definition shapes_fit : Prop :=
  ∀ t, square (TETROMINO_SHAPES t) ∧ has_block (TETROMINO_SHAPES t) ∧
       0 < length (TETROMINO_SHAPES t) ∧
       length (TETROMINO_SHAPES t) ≤ BOARD_WIDTH ∧
       length (TETROMINO_SHAPES t) ≤ BOARD_HEIGHT.

(** Height of column [x]: rows from its topmost non-null cell to the floor. *)
Definition columnHeight (board : Board) (x : nat) : nat :=
  match find (fun y => notNull (getCell board y x)) (seq 0 BOARD_HEIGHT) with
  | Some y => BOARD_HEIGHT - y
  | None => 0
  end.

(** Two sessions in play on the empty standard board, without held piece:
    one with the T piece at the top, one with the T piece resting on the
    floor. *)
Definition landedT : Tetromino :=
  mkTetromino TT (standardShapes TT) (mkPosition 3 18) 0.

Definition startedGame : Game :=
  mkGame emptyBoard (Some pieceT) [TI; TO; TS] [TZ; TJ; TL; TT] None true None
         0 1 0 0 PLAYING 1000 false 0.

Definition landedGame : Game :=
  mkGame emptyBoard (Some landedT) [TI; TO; TS] [TZ; TJ; TL; TT] None true None
         0 1 0 0 PLAYING 1000 false 0.

(** * Properties *)

(** ** Matrix rotation *)

Lemma getNum_lookup m i j row v :
  m !! i = Some row → row !! j = Some v → getNum m i j = v.
Proof. intros H1 H2. unfold getNum. rewrite H1. simpl. rewrite H2. done. Qed.

Lemma dims_row N m r : dims N m → r < N → ∃ row, m !! r = Some row ∧ length row = N.
Proof.
  intros [Hl Hf] Hr. destruct (lookup_lt_is_Some_2 m r) as [row Hrow]; [lia|].
  exists row. split; [done|]. eapply Forall_lookup_1 in Hf; eauto.
Qed.

Lemma dims_setNum N m r c v : dims N m → dims N (setNum m r c v).
Proof.
  intros [Hl Hf]. unfold setNum. destruct (m !! r) as [row|] eqn:Hr; [|done].
  split; [by rewrite length_insert|].
  apply Forall_insert; [done|]. rewrite length_insert.
  eapply Forall_lookup_1 in Hf; eauto.
Qed.

Lemma getNum_setNum N m r c v a b :
  dims N m → r < N → c < N →
  getNum (setNum m r c v) a b = if decide (a = r ∧ b = c) then v else getNum m a b.
Proof.
  intros Hd Hr Hc. destruct (dims_row N m r Hd Hr) as (row & Hrow & Hlen).
  unfold setNum. rewrite Hrow. unfold getNum.
  destruct (decide (a = r)) as [->|Hne].
  - rewrite list_lookup_insert_eq; [|eapply lookup_lt_Some; eauto]. simpl.
    destruct (decide (b = c)) as [->|Hne'].
    + rewrite list_lookup_insert_eq; [|lia]. rewrite decide_True; done.
    + rewrite list_lookup_insert_ne; [|done]. rewrite decide_False; [|tauto].
      rewrite Hrow. done.
  - rewrite list_lookup_insert_ne; [|done]. rewrite decide_False; [done|tauto].
Qed.

(** The inner loop writes column [c] of the rows listed in [js]. *)
Lemma rotate_inner N c (g : nat → nat) js m :
  dims N m → c < N → Forall (fun j => j < N) js →
  let m' := foldl (fun rot j => setNum rot j c (g j)) m js in
  dims N m' ∧
  ∀ a b, getNum m' a b = if decide (b = c ∧ a ∈ js) then g a else getNum m a b.
Proof.
  intros Hd Hc Hjs. revert m Hd.
  induction Hjs as [|j js Hj Hjs IH]; intros m Hd; simpl.
  - split; [done|]. intros a b. rewrite decide_False; [done|].
    intros [_ H]. by apply elem_of_nil in H.
  - destruct (IH (setNum m j c (g j))) as [Hd' Hget]; [by apply dims_setNum|].
    split; [done|]. intros a b. rewrite Hget.
    rewrite (getNum_setNum N) by done.
    destruct (decide (b = c ∧ a ∈ js)) as [[-> Ha]|Hn].
    + rewrite decide_True; [done|]. split; [done|by right].
    + destruct (decide (a = j ∧ b = c)) as [[-> ->]|Hn'].
      * rewrite decide_True; [done|]. split; [done|by left].
      * rewrite decide_False; [done|]. intros [-> Hin].
        apply elem_of_cons in Hin. destruct Hin as [->|Hin]; [by apply Hn'|by apply Hn].
Qed.

(** The outer loop: the row [i] of the source ends up in column [N - 1 - i]. *)
Lemma rotate_outer N matrix is_ m :
  dims N m → Forall (fun i => i < N) is_ →
  let m' :=
    foldl (fun rot i =>
             foldl (fun rot' j => setNum rot' j (N - 1 - i) (getNum matrix i j))
                   rot (seq 0 N)) m is_ in
  dims N m' ∧
  ∀ a b, a < N →
    (∀ i, i ∈ is_ → N - 1 - i = b → getNum m' a b = getNum matrix i a) ∧
    ((∀ i, i ∈ is_ → N - 1 - i ≠ b) → getNum m' a b = getNum m a b).
Proof.
  intros Hd His. revert m Hd.
  induction His as [|i0 is_ Hi0 His IH]; intros m Hd; simpl.
  - split; [done|]. intros a b Ha. split; [|done].
    intros i Hi. by apply elem_of_nil in Hi.
  - assert (Hseq : Forall (fun j => j < N) (seq 0 N)).
    { apply Forall_forall. intros j Hj. apply elem_of_seq in Hj. lia. }
    destruct (rotate_inner N (N - 1 - i0) (fun j => getNum matrix i0 j) (seq 0 N) m)
      as [Hd1 Hget1]; [done|lia|done|].
    destruct (IH _ Hd1) as [Hd2 Hget2]. split; [done|].
    intros a b Ha. destruct (Hget2 a b Ha) as [Hin Hout].
    assert (Hfirst : (∀ i, i ∈ is_ → N - 1 - i ≠ b) → N - 1 - i0 = b →
                     getNum
                       (foldl (fun rot i =>
                          foldl (fun rot' j => setNum rot' j (N - 1 - i) (getNum matrix i j))
                                rot (seq 0 N))
                          (foldl (fun rot' j => setNum rot' j (N - 1 - i0) (getNum matrix i0 j))
                                 m (seq 0 N)) is_) a b = getNum matrix i0 a).
    { intros Hno Hb. rewrite Hout by done. rewrite Hget1.
      rewrite decide_True; [done|]. split; [done|]. apply elem_of_seq. lia. }
    split.
    + intros i Hi Hb.
      destruct (decide (Exists (fun i' => N - 1 - i' = b) is_)) as [Hex|Hno].
      * apply Exists_exists in Hex. destruct Hex as (i' & Hi' & Hb').
        assert (i' < N) by (eapply Forall_forall in His; eauto).
        assert (i < N).
        { apply elem_of_cons in Hi. destruct Hi as [->|Hi]; [done|].
          eapply Forall_forall in His; eauto. }
        assert (i = i') as -> by lia. by apply Hin.
      * assert (Hno' : ∀ i', i' ∈ is_ → N - 1 - i' ≠ b).
        { intros i' Hi' Hb'. apply Hno, Exists_exists. eauto. }
        apply elem_of_cons in Hi. destruct Hi as [->|Hi]; [by apply Hfirst|].
        by destruct (Hno' i Hi).
    + intros Hno. rewrite Hout.
      * rewrite Hget1. rewrite decide_False; [done|].
        intros [Hb _]. eapply (Hno i0); [left|done].
      * intros i Hi. apply Hno. by right.
Qed.

Lemma dims_replicate N : dims N (replicate N (replicate N 0)).
Proof.
  split; [by rewrite length_replicate|].
  apply Forall_replicate. by rewrite length_replicate.
Qed.

Lemma rotateMatrix_dims m : dims (length m) (rotateMatrix m).
Proof.
  unfold rotateMatrix.
  apply (rotate_outer (length m) m (seq 0 (length m))); [apply dims_replicate|].
  apply Forall_forall. intros j Hj. apply elem_of_seq in Hj. lia.
Qed.

(** [rotated[j][N - 1 - i] = matrix[i][j]], read at the target cell. *)
Lemma rotateMatrix_get m a b :
  a < length m → b < length m →
  getNum (rotateMatrix m) a b = getNum m (length m - 1 - b) a.
Proof.
  intros Ha Hb. unfold rotateMatrix.
  destruct (rotate_outer (length m) m (seq 0 (length m))
              (replicate (length m) (replicate (length m) 0)))
    as [_ Hget]; [apply dims_replicate| |].
  { apply Forall_forall. intros j Hj. apply elem_of_seq in Hj. lia. }
  destruct (Hget a b Ha) as [Hin _]. apply Hin; [|lia].
  apply elem_of_seq. lia.
Qed.

Lemma rotateMatrix_length m : length (rotateMatrix m) = length m.
Proof. by destruct (rotateMatrix_dims m). Qed.

Lemma matrix_ext N m1 m2 :
  dims N m1 → dims N m2 →
  (∀ a b, a < N → b < N → getNum m1 a b = getNum m2 a b) → m1 = m2.
Proof.
  intros Hd1 Hd2 Hget. apply list_eq_same_length with N; try apply Hd1; try apply Hd2.
  intros a r1 r2 Ha H1 H2.
  destruct (dims_row N m1 a Hd1 Ha) as (r1' & H1' & Hl1).
  destruct (dims_row N m2 a Hd2 Ha) as (r2' & H2' & Hl2).
  simplify_eq. apply list_eq_same_length with (length r1); [done|lia|].
  intros b v1 v2 Hb Hv1 Hv2.
  rewrite <- (getNum_lookup m1 a b r1 v1), <- (getNum_lookup m2 a b r2 v2) by done.
  apply Hget; lia.
Qed.

Lemma square_dims m : square m ↔ dims (length m) m.
Proof. unfold square, dims. tauto. Qed.

(** C5: for every N x N matrix, four applications of [rotateMatrix], the
    clockwise quarter turn with [rotated[j][N-1-i] = matrix[i][j]], give the
    matrix back. *)
Theorem rotateMatrix_four_times (m : Matrix) :
  square m →
  (∀ i j, i < length m → j < length m →
     getNum (rotateMatrix m) j (length m - 1 - i) = getNum m i j) ∧
  rotateMatrix (rotateMatrix (rotateMatrix (rotateMatrix m))) = m.
Proof.
  intros Hsq. split.
  { intros i j Hi Hj. rewrite rotateMatrix_get by lia. f_equal. lia. }
  apply (matrix_ext (length m)).
  - rewrite <- (rotateMatrix_length m), <- (rotateMatrix_length (rotateMatrix m)),
      <- (rotateMatrix_length (rotateMatrix (rotateMatrix m))).
    apply rotateMatrix_dims.
  - by apply square_dims.
  - intros a b Ha Hb.
    rewrite rotateMatrix_get by (rewrite !rotateMatrix_length; lia).
    rewrite !rotateMatrix_length.
    rewrite rotateMatrix_get by (rewrite !rotateMatrix_length; lia).
    rewrite !rotateMatrix_length.
    rewrite rotateMatrix_get by (rewrite !rotateMatrix_length; lia).
    rewrite !rotateMatrix_length.
    rewrite rotateMatrix_get by lia.
    f_equal; lia.
Qed.


(** ** Collision *)

Lemma occupied_iff m y x :
  occupied m y x ↔
  y < length m ∧ x < length (default [] (m !! y)) ∧ truthyNum (getNum m y x) = true.
Proof.
  unfold occupied, truthyNum, getNum. split.
  - intros (row & v & Hrow & Hv & Hne). rewrite Hrow. simpl. rewrite Hv. simpl.
    split; [eapply lookup_lt_Some; eauto|]. split; [eapply lookup_lt_Some; eauto|].
    apply negb_true_iff, Nat.eqb_neq. done.
  - intros (Hy & Hx & Ht).
    destruct (lookup_lt_is_Some_2 m y Hy) as [row Hrow]. rewrite Hrow in *. simpl in *.
    destruct (lookup_lt_is_Some_2 row x Hx) as [v Hv]. rewrite Hv in *. simpl in *.
    exists row, v. repeat split; try done.
    apply negb_true_iff, Nat.eqb_neq in Ht. done.
Qed.

Lemma isValidMove_cells piece board :
  isValidMove piece board = true ↔
  ∀ y x, occupied (getRotatedShape piece) y x → collides piece board y x = false.
Proof.
  unfold isValidMove. rewrite forallb_forall. split.
  - intros H y x Hocc. apply occupied_iff in Hocc. destruct Hocc as (Hy & Hx & Ht).
    specialize (H y). rewrite forallb_forall in H.
    assert (Hin : In y (seq 0 (length (getRotatedShape piece)))) by (apply in_seq; lia).
    specialize (H Hin x). rewrite Ht in H. apply negb_true_iff, H, in_seq. lia.
  - intros H y Hy. apply in_seq in Hy. apply forallb_forall. intros x Hx.
    apply in_seq in Hx.
    destruct (truthyNum (getNum (getRotatedShape piece) y x)) eqn:Ht; [|done].
    apply negb_true_iff, H, occupied_iff. repeat split; [lia|lia|done].
Qed.

Lemma wf_getCell board r c :
  wf_board board → r < BOARD_HEIGHT → c < BOARD_WIDTH →
  getCell board r c ≠ Undefined ∧
  ∃ row, board !! r = Some row ∧ row !! c = Some (getCell board r c).
Proof.
  intros [Hl Hf] Hr Hc. unfold getCell.
  destruct (lookup_lt_is_Some_2 board r) as [row Hrow]; [lia|].
  rewrite Hrow. simpl.
  eapply Forall_lookup_1 in Hf; eauto. destruct Hf as [Hlen Hcells].
  destruct (lookup_lt_is_Some_2 row c) as [v Hv]; [lia|].
  rewrite Hv. simpl. split; [|eauto].
  eapply Forall_lookup_1 in Hcells; eauto.
Qed.

Lemma collides_false piece board y x :
  wf_board board →
  collides piece board y x = false ↔
  let boardX := (pos_x (position piece) + Z.of_nat x)%Z in
  let boardY := (pos_y (position piece) + Z.of_nat y)%Z in
  (0 ≤ boardX < Z.of_nat BOARD_WIDTH)%Z ∧ (boardY < Z.of_nat BOARD_HEIGHT)%Z ∧
  ((0 ≤ boardY)%Z → getCell board (Z.to_nat boardY) (Z.to_nat boardX) = Null).
Proof.
  intros Hwf. unfold collides. cbv zeta.
  set (boardX := (pos_x (position piece) + Z.of_nat x)%Z).
  set (boardY := (pos_y (position piece) + Z.of_nat y)%Z).
  rewrite !Z.geb_leb.
  destruct (Z.ltb_spec boardX 0) as [Hx0|Hx0];
    [simpl; split; [done|intros ([? ?] & _); lia]|].
  destruct (Z.leb_spec (Z.of_nat BOARD_WIDTH) boardX) as [HxW|HxW];
    [simpl; split; [done|intros ([? ?] & _); lia]|].
  destruct (Z.leb_spec (Z.of_nat BOARD_HEIGHT) boardY) as [HyH|HyH];
    [simpl; split; [done|intros (_ & ? & _); lia]|].
  destruct (Z.leb_spec 0 boardY) as [Hy0|Hy0]; simpl.
  - destruct (wf_getCell board (Z.to_nat boardY) (Z.to_nat boardX) Hwf) as [Hne _];
      [lia|lia|].
    destruct (getCell board (Z.to_nat boardY) (Z.to_nat boardX)); simpl.
    + split; [intros _; repeat split; (lia || done)|done].
    + done.
    + split; [done|]. intros (_ & _ & Hc). by specialize (Hc Hy0).
  - split; [|done]. intros _. repeat split; try lia.
Qed.

(** C1: a move is valid exactly when every occupied cell of the rotated
    shape lies in a column of the board, above its floor, and, unless it is
    above the top row, on an empty board cell. *)
Theorem isValidMove_iff (piece : Tetromino) (board : Board) :
  wf_board board →
  isValidMove piece board = true ↔
  ∀ y x, occupied (getRotatedShape piece) y x →
    let boardX := (pos_x (position piece) + Z.of_nat x)%Z in
    let boardY := (pos_y (position piece) + Z.of_nat y)%Z in
    (0 ≤ boardX < Z.of_nat BOARD_WIDTH)%Z ∧ (boardY < Z.of_nat BOARD_HEIGHT)%Z ∧
    ((0 ≤ boardY)%Z → getCell board (Z.to_nat boardY) (Z.to_nat boardX) = Null).
Proof.
  intros Hwf. rewrite isValidMove_cells. split.
  - intros H y x Hocc. apply (collides_false piece board y x Hwf), H, Hocc.
  - intros H y x Hocc. apply (collides_false piece board y x Hwf), H, Hocc.
Qed.


(** ** Line clearing *)

Lemma clearLines_fold board acc n :
  foldl (fun '(acc, linesCleared) row =>
           if forallb notNull row
           then (replicate BOARD_WIDTH Null :: acc, S linesCleared)
           else (acc ++ [row], linesCleared))
        (acc, n) board
  = (replicate (length (filter (fun row => forallb notNull row = true) board))
               (replicate BOARD_WIDTH Null)
       ++ acc ++ filter (fun row => forallb notNull row ≠ true) board,
     n + length (filter (fun row => forallb notNull row = true) board)).
Proof.
  revert acc n. induction board as [|row board IH]; intros acc n; simpl.
  - rewrite app_nil_r. f_equal. lia.
  - destruct (forallb notNull row) eqn:Hfull.
    + rewrite IH. rewrite filter_cons_True by done.
      rewrite filter_cons_False by (intros H; by apply H). simpl.
      f_equal; [|lia].
      change (replicate BOARD_WIDTH Null :: ?l) with ([replicate BOARD_WIDTH Null] ++ l).
      rewrite (app_assoc _ [_]).
      replace (replicate _ (replicate BOARD_WIDTH Null) ++ [replicate BOARD_WIDTH Null])
        with (replicate (S (length (filter (fun row => forallb notNull row = true) board)))
                        (replicate BOARD_WIDTH Null)).
      * simpl. done.
      * rewrite replicate_S_end. done.
    + rewrite IH. rewrite filter_cons_False by (rewrite Hfull; done).
      rewrite filter_cons_True by (rewrite Hfull; done).
      rewrite <- app_assoc. simpl. done.
Qed.

(** C2: [clearLines] drops exactly the rows without a [null] cell, keeps the
    other rows in their order below as many fresh empty rows as were
    dropped, reports that number, and returns a board of [BOARD_HEIGHT]
    rows. *)
Theorem clearLines_spec (board : Board) :
  length board = BOARD_HEIGHT →
  let linesCleared := length (filter (fun row => forallb notNull row = true) board) in
  clearLines board =
    (replicate linesCleared (replicate BOARD_WIDTH Null)
       ++ filter (fun row => forallb notNull row ≠ true) board,
     linesCleared) ∧
  length (fst (clearLines board)) = BOARD_HEIGHT.
Proof.
  intros Hlen linesCleared. unfold clearLines.
  rewrite clearLines_fold. simpl. split; [done|].
  rewrite length_app, length_replicate. rewrite <- Hlen.
  clear Hlen. subst linesCleared. induction board as [|row board IH]; [done|].
  destruct (decide (forallb notNull row = true)) as [Hf|Hf].
  - rewrite filter_cons_True by done. rewrite filter_cons_False by tauto. simpl. lia.
  - rewrite filter_cons_False by done. rewrite filter_cons_True by done. simpl. lia.
Qed.


(** ** Downward descent *)

Lemma getRotatedShape_with_y piece v :
  getRotatedShape (with_y piece v) = getRotatedShape piece.
Proof. done. Qed.

Lemma with_y_with_y piece v w : with_y (with_y piece v) w = with_y piece w.
Proof. done. Qed.

Lemma with_y_same piece : with_y piece (pos_y (position piece)) = piece.
Proof. by destruct piece as [t s [px py] r]. Qed.

(** A piece with a block whose anchor row is at or below the floor is not a
    valid placement: the block violates [boardY < BOARD_HEIGHT]. *)
Lemma isValidMove_below piece board :
  has_block (getRotatedShape piece) →
  (Z.of_nat BOARD_HEIGHT ≤ pos_y (position piece))%Z →
  isValidMove piece board = false.
Proof.
  intros (r & c & Hocc) Hy. apply not_true_is_false. intros Hvalid.
  pose proof (proj1 (isValidMove_cells piece board) Hvalid r c Hocc) as Hc.
  clear Hvalid. rename Hc into Hvalid.
  unfold collides in Hvalid. cbv zeta in Hvalid.
  rewrite !orb_false_iff in Hvalid. destruct Hvalid as [[_ HyH] _].
  rewrite Z.geb_leb in HyH. apply Z.leb_gt in HyH. lia.
Qed.

(** A piece without a block is a valid placement wherever it is put. *)
Lemma isValidMove_no_block piece board :
  ¬ has_block (getRotatedShape piece) → isValidMove piece board = true.
Proof.
  intros Hno. apply isValidMove_cells. intros y x Hocc.
  destruct Hno. by exists y, x.
Qed.

Lemma descend_terminates board fuel piece :
  has_block (getRotatedShape piece) →
  Z.to_nat (Z.of_nat BOARD_HEIGHT - pos_y (position piece)) < fuel →
  is_Some (descend fuel piece board).
Proof.
  intros Hblock. revert piece Hblock.
  induction fuel as [|fuel IH]; intros piece Hblock Hfuel; [lia|]. simpl.
  destruct (isValidMove (with_y piece (pos_y (position piece) + 1)%Z) board) eqn:Hv; [|eauto].
  apply IH; [done|]. simpl.
  destruct (Z_le_gt_dec (Z.of_nat BOARD_HEIGHT) (pos_y (position piece) + 1)) as [Hle|Hgt].
  - rewrite (isValidMove_below (with_y piece (pos_y (position piece) + 1)%Z) board) in Hv;
      [done|done|simpl; lia].
  - lia.
Qed.

Lemma descend_diverges board fuel piece :
  ¬ has_block (getRotatedShape piece) → descend fuel piece board = None.
Proof.
  intros Hno. revert piece Hno. induction fuel as [|fuel IH]; intros piece Hno; [done|].
  simpl. rewrite isValidMove_no_block by done. by apply IH.
Qed.

Lemma hardDropLoop_terminates board fuel piece newY dropDistance :
  has_block (getRotatedShape piece) →
  Z.to_nat (Z.of_nat BOARD_HEIGHT - newY) < fuel →
  is_Some (hardDropLoop fuel piece board newY dropDistance).
Proof.
  intros Hblock. revert newY dropDistance.
  induction fuel as [|fuel IH]; intros newY dropDistance Hfuel; [lia|]. simpl.
  destruct (isValidMove (with_y piece (newY + 1)%Z) board) eqn:Hv; [|eauto].
  apply IH.
  destruct (Z_le_gt_dec (Z.of_nat BOARD_HEIGHT) (newY + 1)) as [Hle|Hgt].
  - rewrite (isValidMove_below (with_y piece (newY + 1)%Z) board) in Hv;
      [done|done|simpl; lia].
  - lia.
Qed.

Lemma hardDropLoop_diverges board fuel piece newY dropDistance :
  ¬ has_block (getRotatedShape piece) →
  hardDropLoop fuel piece board newY dropDistance = None.
Proof.
  intros Hno. revert newY dropDistance.
  induction fuel as [|fuel IH]; intros newY dropDistance; [done|].
  simpl. rewrite isValidMove_no_block by done. by apply IH.
Qed.

(** What the descent returns: the piece moved down to the last row of an
    unbroken run of valid placements. *)
Lemma descend_result board fuel piece q :
  descend fuel piece board = Some q →
  ∃ v, q = with_y piece v ∧ (pos_y (position piece) ≤ v)%Z ∧
       (∀ w, (pos_y (position piece) < w ≤ v)%Z → isValidMove (with_y piece w) board = true) ∧
       isValidMove (with_y piece (v + 1)%Z) board = false.
Proof.
  revert piece. induction fuel as [|fuel IH]; intros piece Hd; [done|]. simpl in Hd.
  destruct (isValidMove (with_y piece (pos_y (position piece) + 1)%Z) board) eqn:Hv.
  - destruct (IH _ Hd) as (v & -> & Hle & Hrun & Hstop). simpl in *.
    exists v. rewrite !with_y_with_y in *. repeat split; [lia| |done].
    intros w Hw. destruct (decide (w = pos_y (position piece) + 1)%Z) as [->|Hne]; [done|].
    specialize (Hrun w). rewrite with_y_with_y in Hrun. apply Hrun. lia.
  - simplify_eq. exists (pos_y (position q)). rewrite with_y_same.
    repeat split; [lia| |done]. intros w Hw. lia.
Qed.

Lemma descend_more_fuel board fuel fuel' piece q :
  descend fuel piece board = Some q → fuel ≤ fuel' → descend fuel' piece board = Some q.
Proof.
  revert fuel' piece. induction fuel as [|fuel IH]; intros fuel' piece Hd Hle; [done|].
  destruct fuel' as [|fuel']; [lia|]. simpl in *.
  destruct (isValidMove (with_y piece (pos_y (position piece) + 1)%Z) board); [|done].
  apply IH; [done|lia].
Qed.


Lemma square_rotateMatrix m : square (rotateMatrix m).
Proof.
  apply square_dims. rewrite rotateMatrix_length. apply rotateMatrix_dims.
Qed.

Lemma occupied_dims N m r c :
  dims N m → (occupied m r c ↔ r < N ∧ c < N ∧ getNum m r c ≠ 0).
Proof.
  intros Hd. rewrite occupied_iff. unfold truthyNum.
  rewrite negb_true_iff, Nat.eqb_neq. destruct Hd as [Hl Hf]. split.
  - intros (Hr & Hc & Hne). destruct (lookup_lt_is_Some_2 m r Hr) as [row Hrow].
    rewrite Hrow in Hc. simpl in Hc. eapply Forall_lookup_1 in Hf; eauto. lia.
  - intros (Hr & Hc & Hne). destruct (lookup_lt_is_Some_2 m r) as [row Hrow]; [lia|].
    rewrite Hrow. simpl. eapply Forall_lookup_1 in Hf; eauto. split; [lia|]. split; [lia|done].
Qed.

Lemma has_block_rotateMatrix m :
  square m → has_block m → has_block (rotateMatrix m).
Proof.
  intros Hsq (r & c & Hocc). apply square_dims in Hsq.
  apply (occupied_dims (length m)) in Hocc; [|done]. destruct Hocc as (Hr & Hc & Hne).
  exists c, (length m - 1 - r).
  apply (occupied_dims (length m)); [apply rotateMatrix_dims|].
  split; [done|]. split; [lia|]. rewrite rotateMatrix_get by lia.
  replace (length m - 1 - (length m - 1 - r)) with r by lia. done.
Qed.

Lemma has_block_iter n m :
  square m → has_block m →
  square (Nat.iter n rotateMatrix m) ∧ has_block (Nat.iter n rotateMatrix m).
Proof.
  intros Hsq Hb. induction n as [|n [IH1 IH2]]; simpl; [done|].
  split; [apply square_rotateMatrix|by apply has_block_rotateMatrix].
Qed.

Lemma no_block_rotateMatrix m :
  square m → ¬ has_block m → ¬ has_block (rotateMatrix m).
Proof.
  intros Hsq Hno (r & c & Hocc). apply Hno. apply square_dims in Hsq.
  apply (occupied_dims (length m)) in Hocc; [|apply rotateMatrix_dims].
  destruct Hocc as (Hr & Hc & Hne). rewrite rotateMatrix_get in Hne by lia.
  exists (length m - 1 - c), r. apply (occupied_dims (length m)); [done|].
  split; [lia|]. split; [lia|done].
Qed.

(** C9: with a block in the rotated shape, no placement at or below the
    floor is valid and the three descent loops return once given more fuel
    than the rows left above the floor; without a block every placement is
    valid and the loops never return. *)
Theorem descent_loops_terminate (piece : Tetromino) (board : Board) :
  (has_block (getRotatedShape piece) →
     (∀ v, (Z.of_nat BOARD_HEIGHT ≤ v)%Z → isValidMove (with_y piece v) board = false) ∧
     (∀ fuel, Z.to_nat (Z.of_nat BOARD_HEIGHT - pos_y (position piece)) < fuel →
        is_Some (getGhostPiecePosition fuel piece board) ∧
        is_Some (hardDropLoop fuel piece board (pos_y (position piece)) 0)) ∧
     (∀ fuel pieceType x rotation, piece = pieceAt pieceType x rotation →
        BOARD_HEIGHT < fuel →
        is_Some (simulatePlacement fuel pieceType board x rotation))) ∧
  (¬ has_block (getRotatedShape piece) →
     (∀ v, isValidMove (with_y piece v) board = true) ∧
     (∀ fuel, getGhostPiecePosition fuel piece board = None ∧
              hardDropLoop fuel piece board (pos_y (position piece)) 0 = None) ∧
     (∀ fuel pieceType x rotation, piece = pieceAt pieceType x rotation →
        simulatePlacement fuel pieceType board x rotation = None)).
Proof.
  split.
  - intros Hblock. split; [|split].
    + intros v Hv. by apply isValidMove_below.
    + intros fuel Hfuel. split.
      * by apply descend_terminates.
      * by apply hardDropLoop_terminates.
    + intros fuel pieceType x rotation -> Hfuel. unfold simulatePlacement.
      destruct (descend_terminates board fuel (pieceAt pieceType x rotation)) as [q Hq];
        [done|simpl; lia|].
      rewrite Hq. destruct (negb (isValidMove q board)); eauto.
  - intros Hno. split; [|split].
    + intros v. by apply isValidMove_no_block.
    + intros fuel. split; [by apply descend_diverges|by apply hardDropLoop_diverges].
    + intros fuel pieceType x rotation ->. unfold simulatePlacement.
      by rewrite descend_diverges.
Qed.


(** ** Ghost projection *)

(** The loop on the store of positions computes what [descend] computes,
    and writes nowhere but at the position of [ghost]. *)
Lemma ghostLoop_descend board fuel ps ghost :
  o_position ghost < length ps →
  match descend fuel (load ps ghost) board with
  | Some q =>
      ∃ ps', ghostLoop fuel ps ghost board = Some ps' ∧ load ps' ghost = q ∧
             length ps' = length ps ∧
             ∀ l, l ≠ o_position ghost → ps' !! l = ps !! l
  | None => ghostLoop fuel ps ghost board = None
  end.
Proof.
  revert ps. induction fuel as [|fuel IH]; intros ps Hloc; [done|].
  cbn [descend ghostLoop]. cbv zeta. set (cur := load ps ghost).
  destruct (isValidMove (with_y cur (pos_y (position cur) + 1)%Z) board) eqn:Hv.
  - set (ps1 := <[o_position ghost :=
                    mkPosition (pos_x (position cur)) (pos_y (position cur) + 1)%Z]> ps).
    assert (Hload : load ps1 ghost = with_y cur (pos_y (position cur) + 1)%Z).
    { unfold load, ps1. rewrite list_lookup_insert_eq by done. done. }
    assert (Hlen1 : length ps1 = length ps) by (unfold ps1; by rewrite length_insert).
    assert (Hloc1 : o_position ghost < length ps1) by lia.
    specialize (IH ps1 Hloc1). rewrite Hload in IH.
    destruct (descend fuel (with_y cur (pos_y (position cur) + 1)%Z) board) as [q|];
      [|exact IH].
    destruct IH as (ps' & Hloop & Hq & Hlen & Hframe).
    exists ps'. split; [done|]. split; [done|]. split; [lia|].
    intros l Hl. rewrite Hframe by done. unfold ps1.
    by rewrite list_lookup_insert_ne.
  - exists ps. done.
Qed.

(** C7: for a valid placement of a piece with a block, the ghost is the
    piece itself moved down, through valid placements only, to the last row
    before an invalid one; on the store, the position object of the input
    piece, like every object that existed before the call, is untouched. *)
Theorem getGhostPiecePosition_spec (piece : Tetromino) (board : Board) :
  isValidMove piece board = true →
  has_block (getRotatedShape piece) →
  ∃ ghost,
    (∀ fuel, Z.to_nat (Z.of_nat BOARD_HEIGHT - pos_y (position piece)) < fuel →
       getGhostPiecePosition fuel piece board = Some ghost ∧
       ∀ ps o, o_position o < length ps → load ps o = piece →
         ∃ ps' g, getGhostPiecePosition_store fuel ps o board = Some (ps', g) ∧
                  load ps' g = ghost ∧
                  (∀ l, l < length ps → ps' !! l = ps !! l) ∧
                  load ps' o = piece) ∧
    type ghost = type piece ∧ shape ghost = shape piece ∧
    rotation ghost = rotation piece ∧
    pos_x (position ghost) = pos_x (position piece) ∧
    (pos_y (position piece) ≤ pos_y (position ghost))%Z ∧
    (∀ w, (pos_y (position piece) ≤ w ≤ pos_y (position ghost))%Z →
          isValidMove (with_y piece w) board = true) ∧
    isValidMove ghost board = true ∧
    isValidMove (with_y ghost (pos_y (position ghost) + 1)%Z) board = false.
Proof.
  intros Hvalid Hblock.
  set (fuel0 := S (Z.to_nat (Z.of_nat BOARD_HEIGHT - pos_y (position piece)))).
  destruct (descend_terminates board fuel0 piece) as [ghost Hghost]; [done|lia|].
  exists ghost.
  destruct (descend_result board fuel0 piece ghost Hghost) as (v & -> & Hle & Hrun & Hstop).
  assert (Hall : ∀ w, (pos_y (position piece) ≤ w ≤ v)%Z →
                      isValidMove (with_y piece w) board = true).
  { intros w Hw. destruct (decide (w = pos_y (position piece))) as [->|Hne].
    - by rewrite with_y_same.
    - apply Hrun. lia. }
  split; [|simpl; repeat split; try done; [by apply Hall; lia]].
  intros fuel Hfuel.
  assert (Hpure : descend fuel piece board = Some (with_y piece v)).
  { apply (descend_more_fuel board fuel0); [done|]. unfold fuel0. lia. }
  split; [done|]. intros ps o Hloc Hload.
  unfold getGhostPiecePosition_store.
  set (g := mkTetrominoObj (o_type o) (o_shape o) (length ps) (o_rotation o)).
  set (ps0 := ps ++ [position (load ps o)]).
  assert (Hg : load ps0 g = piece).
  { unfold load, ps0, g. simpl. rewrite lookup_app_r by lia.
    rewrite Nat.sub_diag. simpl. rewrite <- Hload. unfold load. simpl. done. }
  pose proof (ghostLoop_descend board fuel ps0 g) as Hloop.
  rewrite Hg, Hpure in Hloop.
  destruct Hloop as (ps' & Hloop & Hq & Hlen & Hframe).
  { unfold ps0, g. rewrite length_app. simpl. lia. }
  rewrite Hloop. exists ps', g. split; [done|]. split; [done|].
  assert (Hold : ∀ l, l < length ps → ps' !! l = ps !! l).
  { intros l Hl. rewrite Hframe by (unfold g; simpl; lia).
    unfold ps0. by rewrite lookup_app_l. }
  split; [done|]. rewrite <- Hload. unfold load. by rewrite Hold.
Qed.


(** ** Merging a piece into the board *)

Lemma foldl_nested {St A B : Type} (f : St → A → B → St) (g : A → list B) l st :
  foldl (fun st1 a => foldl (fun st2 b => f st2 a b) st1 (g a)) st l
  = foldl (fun st' '(a, b) => f st' a b) st (a ← l; (fun b => (a, b)) <$> g a).
Proof.
  revert st. induction l as [|a l IH]; intros st; simpl; [done|].
  rewrite foldl_app, <- IH. f_equal.
  generalize (g a). intros bs. revert st. induction bs as [|b bs IHb]; intros st; simpl; [done|].
  apply IHb.
Qed.

Lemma elem_of_cellsOf m y x :
  (y, x) ∈ cellsOf m ↔ y < length m ∧ x < length (default [] (m !! y)).
Proof.
  unfold cellsOf. rewrite list_elem_of_bind. split.
  - intros (y' & Hin & Hy). apply elem_of_seq in Hy.
    apply list_elem_of_fmap in Hin. destruct Hin as (x' & Heq & Hx). simplify_eq.
    apply elem_of_seq in Hx. lia.
  - intros [Hy Hx]. exists y. split.
    + apply list_elem_of_fmap. exists x. split; [done|]. apply elem_of_seq. lia.
    + apply elem_of_seq. lia.
Qed.

Lemma placeCells_flat {St : Type} (write : St → Z → Z → Cell → St) piece st :
  placeCells write piece st
  = foldl (fun st' '(y, x) => placeCell write piece st' y x) st
          (cellsOf (getRotatedShape piece)).
Proof.
  unfold placeCells, cellsOf. cbv zeta.
  apply (foldl_nested (fun st y x => placeCell write piece st y x)
           (fun y => seq 0 (length (default [] (getRotatedShape piece !! y))))).
Qed.

(** Two write operations that respect a relation between their states give
    related results. *)
Lemma placeCells_related {S1 S2 : Type} (R : S1 → S2 → Prop)
    (w1 : S1 → Z → Z → Cell → S1) (w2 : S2 → Z → Z → Cell → S2) piece s1 s2 :
  (∀ a b Y X v, R a b → R (w1 a Y X v) (w2 b Y X v)) →
  R s1 s2 → R (placeCells w1 piece s1) (placeCells w2 piece s2).
Proof.
  intros Hw. rewrite !placeCells_flat.
  generalize (cellsOf (getRotatedShape piece)). intros l. revert s1 s2.
  induction l as [|[y x] l IH]; intros s1 s2 HR; simpl; [done|].
  apply IH. unfold placeCell.
  destruct (truthyNum _); [|done]. destruct (_ && _); [|done]. by apply Hw.
Qed.

Lemma foldl_invariant {St A : Type} (I : St → Prop) (f : St → A → St) l st :
  (∀ s a, a ∈ l → I s → I (f s a)) → I st → I (foldl f st l).
Proof.
  revert st. induction l as [|a l IH]; intros st Hf Hst; simpl; [done|].
  apply IH; [intros s b Hb; apply Hf; by right|]. apply Hf; [by left|done].
Qed.

Lemma foldl_establish {St A : Type} `{EqDecision A} (I J : St → Prop) (f : St → A → St) l st a :
  a ∈ l → I st →
  (∀ s b, b ∈ l → I s → I (f s b)) →
  (∀ s, I s → J (f s a)) →
  (∀ s b, b ∈ l → I s → J s → J (f s b)) →
  J (foldl f st l).
Proof.
  intros Ha Hst HI Hest Hkeep. revert st Hst.
  induction l as [|b l IH]; intros st Hst; [by apply elem_of_nil in Ha|]. simpl.
  destruct (decide (a ∈ l)) as [Hin|Hnin].
  - apply IH; try done.
    + intros s c Hc. apply HI. by right.
    + intros s c Hc. apply Hkeep. by right.
    + apply HI; [by left|done].
  - apply elem_of_cons in Ha. destruct Ha as [->|Ha]; [|done].
    apply (foldl_invariant (fun s => I s ∧ J s)).
    + intros s c Hc [Hs HJ]. split; [apply HI; [by right|done]|].
      apply Hkeep; [by right|done|done].
    + split; [apply HI; [by left|done]|by apply Hest].
Qed.


Lemma writeBoard_in_range board Y X v :
  wf_board board → v ≠ Undefined →
  (0 ≤ Y < Z.of_nat BOARD_HEIGHT)%Z → (0 ≤ X < Z.of_nat BOARD_WIDTH)%Z →
  wf_board (writeBoard board Y X v) ∧
  ∀ r c, getCell (writeBoard board Y X v) r c
         = if decide (r = Z.to_nat Y ∧ c = Z.to_nat X) then v else getCell board r c.
Proof.
  intros [Hl Hf] Hv HY HX. unfold writeBoard.
  destruct (lookup_lt_is_Some_2 board (Z.to_nat Y)) as [row Hrow]; [lia|].
  rewrite Hrow. destruct (Z.ltb_spec X 0) as [?|_]; [lia|].
  pose proof (Forall_lookup_1 _ _ _ _ Hf Hrow) as [Hlen Hcells].
  unfold jsWrite. rewrite decide_True by lia. split.
  - split; [by rewrite length_insert|]. apply Forall_insert; [done|].
    split; [by rewrite length_insert|]. by apply Forall_insert.
  - intros r c. unfold getCell. destruct (decide (r = Z.to_nat Y)) as [->|Hne].
    + rewrite list_lookup_insert_eq by lia. simpl.
      destruct (decide (c = Z.to_nat X)) as [->|Hne'].
      * rewrite list_lookup_insert_eq by lia. by rewrite decide_True.
      * rewrite list_lookup_insert_ne by done. rewrite decide_False by tauto.
        by rewrite Hrow.
    + rewrite list_lookup_insert_ne by done. by rewrite decide_False by tauto.
Qed.

Lemma writeBoard_length board Y X v :
  length (writeBoard board Y X v) = length board.
Proof.
  unfold writeBoard. destruct (board !! Z.to_nat Y); [|done].
  destruct (X <? 0)%Z; [done|]. by rewrite length_insert.
Qed.

Lemma copyBoard_fold h rows nb b :
  Forall (fun l => l < length h) b →
  foldl (fun '(h', nb) l => (h' ++ [default [] (h' !! l)], nb ++ [length h']))
        (h ++ rows, nb) b
  = (h ++ rows ++ deref h b, nb ++ seq (length h + length rows) (length b)).
Proof.
  intros Hb. revert rows nb. induction Hb as [|l b Hl Hb IH]; intros rows nb; simpl.
  - by rewrite !app_nil_r.
  - rewrite <- (app_assoc h rows). rewrite IH. rewrite lookup_app_l by done.
    rewrite !length_app. simpl. rewrite <- !app_assoc. simpl.
    do 3 f_equal. f_equal. lia.
Qed.

Lemma copyBoard_spec h b :
  Forall (fun l => l < length h) b →
  copyBoard h b = (h ++ deref h b, seq (length h) (length b)).
Proof.
  intros Hb. unfold copyBoard.
  pose proof (copyBoard_fold h [] [] b Hb) as H. rewrite app_nil_r in H.
  rewrite H. simpl. by rewrite Nat.add_0_r.
Qed.

Lemma storeWrite_app h board Y X v :
  storeWrite (seq (length h) (length board)) (h ++ board) Y X v
  = h ++ writeBoard board Y X v.
Proof.
  unfold storeWrite, writeBoard.
  destruct (board !! Z.to_nat Y) as [row|] eqn:Hrow.
  - pose proof (lookup_lt_Some _ _ _ Hrow) as Hlt.
    rewrite lookup_seq_lt by done.
    rewrite lookup_app_r by lia.
    replace (length h + Z.to_nat Y - length h) with (Z.to_nat Y) by lia.
    rewrite Hrow. destruct (X <? 0)%Z; [done|].
    rewrite insert_app_r_alt by lia.
    replace (length h + Z.to_nat Y - length h) with (Z.to_nat Y) by lia. done.
  - apply lookup_ge_None in Hrow. rewrite lookup_seq_ge by done. done.
Qed.

Lemma deref_fresh h board :
  deref (h ++ board) (seq (length h) (length board)) = board.
Proof.
  unfold deref. apply list_eq. intros i. rewrite list_lookup_fmap.
  destruct (decide (i < length board)) as [Hlt|Hge].
  - rewrite lookup_seq_lt by done. simpl. rewrite lookup_app_r by lia.
    replace (length h + i - length h) with i by lia.
    destruct (lookup_lt_is_Some_2 board i Hlt) as [row Hrow]. by rewrite Hrow.
  - rewrite lookup_seq_ge by lia. simpl. symmetry. apply lookup_ge_None. lia.
Qed.

Lemma deref_app_l h rows b :
  Forall (fun l => l < length h) b → deref (h ++ rows) b = deref h b.
Proof.
  intros Hb. unfold deref. apply Forall_fmap_ext_1.
  eapply Forall_impl; [exact Hb|]. intros l Hl. simpl. by rewrite lookup_app_l.
Qed.

(** On the store, the merge leaves every row that existed before the call
    as it was and delivers the board that the function on values computes. *)
Lemma addPieceToBoard_store_spec h b piece :
  Forall (fun l => l < length h) b →
  addPieceToBoard_store h b piece
  = (h ++ addPieceToBoard (deref h b) piece, seq (length h) (length b)).
Proof.
  intros Hb. unfold addPieceToBoard_store. rewrite copyBoard_spec by done.
  f_equal. unfold addPieceToBoard.
  assert (Hlen : length (deref h b) = length b) by (unfold deref; by rewrite length_fmap).
  apply (placeCells_related
           (fun (s1 : list Row) (s2 : Board) => s1 = h ++ s2 ∧ length s2 = length b)
           (storeWrite (seq (length h) (length b))) writeBoard piece).
  - intros s1 s2 Y X v [-> Hl]. split; [|by rewrite writeBoard_length].
    rewrite <- Hl. apply storeWrite_app.
  - done.
Qed.


Lemma placeCell_step piece s y x :
  wf_board s →
  (∀ y x, occupied (getRotatedShape piece) y x →
     (0 ≤ pos_y (position piece) + Z.of_nat y < Z.of_nat BOARD_HEIGHT)%Z →
     (0 ≤ pos_x (position piece) + Z.of_nat x < Z.of_nat BOARD_WIDTH)%Z) →
  (y, x) ∈ cellsOf (getRotatedShape piece) →
  wf_board (placeCell writeBoard piece s y x) ∧
  ∀ r c, getCell (placeCell writeBoard piece s y x) r c
         = if decide (truthyNum (getNum (getRotatedShape piece) y x) = true ∧
                      (pos_y (position piece) + Z.of_nat y)%Z = Z.of_nat r ∧
                      (pos_x (position piece) + Z.of_nat x)%Z = Z.of_nat c ∧
                      r < BOARD_HEIGHT)
           then Block (type piece) else getCell s r c.
Proof.
  intros Hwf Hcols Hin. apply elem_of_cellsOf in Hin. destruct Hin as [Hy Hx].
  unfold placeCell.
  destruct (truthyNum (getNum (getRotatedShape piece) y x)) eqn:Ht.
  - assert (Hocc : occupied (getRotatedShape piece) y x) by (by apply occupied_iff).
    cbv zeta. rewrite Z.geb_leb.
    destruct (Z.leb_spec 0 (pos_y (position piece) + Z.of_nat y)) as [Hy0|Hy0];
    destruct (Z.ltb_spec (pos_y (position piece) + Z.of_nat y) (Z.of_nat BOARD_HEIGHT))
      as [HyH|HyH]; simpl.
    + destruct (writeBoard_in_range s (pos_y (position piece) + Z.of_nat y)%Z
                  (pos_x (position piece) + Z.of_nat x)%Z (Block (type piece)))
        as [Hwf' Hget]; [done|done|lia|apply (Hcols y x); [done|lia]|].
      split; [done|]. intros r c. rewrite Hget.
      destruct (decide (r = _ ∧ c = _)) as [[-> ->]|Hn].
      * rewrite decide_True; [done|]. pose proof (Hcols y x Hocc). lia.
      * rewrite decide_False; [done|]. intros (_ & Hr & Hc & _). apply Hn. lia.
    + split; [done|]. intros r c. rewrite decide_False; [done|]. lia.
    + split; [done|]. intros r c. rewrite decide_False; [done|]. lia.
    + split; [done|]. intros r c. rewrite decide_False; [done|]. lia.
  - split; [done|]. intros r c. rewrite decide_False; [done|].
    intros (Ht' & _). congruence.
Qed.

Lemma addPieceToBoard_length board piece :
  length (addPieceToBoard board piece) = length board.
Proof.
  unfold addPieceToBoard. rewrite placeCells_flat.
  apply (foldl_invariant (fun s : Board => length s = length board)); [|done].
  intros s [y x] _ Hs. unfold placeCell.
  destruct (truthyNum _); [|done]. destruct (_ && _); [|done].
  by rewrite writeBoard_length.
Qed.

(** C8, as the code has it: when the occupied cells that fall on a board
    row fall on a board column too, the merged board has the dimensions of
    the input, carries the kind of the piece on exactly the board cells
    under an occupied cell of the piece and the input's cells elsewhere;
    on the store, the merge writes to fresh rows only, so the input board
    reads after the call as it did before. *)
Theorem addPieceToBoard_spec (board : Board) (piece : Tetromino) :
  wf_board board →
  (∀ y x, occupied (getRotatedShape piece) y x →
     (0 ≤ pos_y (position piece) + Z.of_nat y < Z.of_nat BOARD_HEIGHT)%Z →
     (0 ≤ pos_x (position piece) + Z.of_nat x < Z.of_nat BOARD_WIDTH)%Z) →
  wf_board (addPieceToBoard board piece) ∧
  (∀ r c, r < BOARD_HEIGHT → c < BOARD_WIDTH →
     (covered piece r c → getCell (addPieceToBoard board piece) r c = Block (type piece)) ∧
     (¬ covered piece r c →
        getCell (addPieceToBoard board piece) r c = getCell board r c)) ∧
  (∀ h b, Forall (fun l => l < length h) b → deref h b = board →
     ∃ h' nb, addPieceToBoard_store h b piece = (h', nb) ∧
              deref h' nb = addPieceToBoard board piece ∧
              (∀ l, l < length h → h' !! l = h !! l) ∧
              deref h' b = board).
Proof.
  intros Hwf Hcols. unfold addPieceToBoard at 1 2 3. rewrite placeCells_flat.
  set (step := fun (st' : Board) '(y, x) => placeCell writeBoard piece st' y x).
  assert (Hstep : ∀ s a, a ∈ cellsOf (getRotatedShape piece) → wf_board s →
                         wf_board (step s a)).
  { intros s [y x] Ha Hs. by apply placeCell_step. }
  split; [by apply (foldl_invariant wf_board)|]. split.
  - intros r c Hr Hc. split.
    + intros (y & x & Hocc & HY & HX).
      apply (foldl_establish wf_board (fun s => getCell s r c = Block (type piece))
               step _ _ (y, x)); try done.
      * apply elem_of_cellsOf. by apply occupied_iff in Hocc as (? & ? & _).
      * intros s Hs. simpl.
        destruct (placeCell_step piece s y x Hs Hcols) as [_ Hget].
        { apply elem_of_cellsOf. by apply occupied_iff in Hocc as (? & ? & _). }
        rewrite Hget, decide_True; [done|].
        apply occupied_iff in Hocc as (_ & _ & Ht). done.
      * intros s [y' x'] Hin Hs HJ. simpl.
        destruct (placeCell_step piece s y' x' Hs Hcols Hin) as [_ Hget].
        rewrite Hget. destruct (decide _); [done|exact HJ].
    + intros Hno.
      apply (foldl_invariant
               (fun s => wf_board s ∧ getCell s r c = getCell board r c) step);
        [|done].
      intros s [y x] Hin [Hs Heq]. simpl.
      destruct (placeCell_step piece s y x Hs Hcols Hin) as [Hwf' Hget].
      split; [done|]. rewrite Hget, decide_False; [done|].
      intros (Ht & HY & HX & _). apply Hno. exists y, x. split; [|done].
      apply occupied_iff. apply elem_of_cellsOf in Hin. tauto.
  - intros h b Hb Hderef. rewrite addPieceToBoard_store_spec by done.
    eexists _, _. split; [done|]. rewrite Hderef.
    assert (Hlen : length (addPieceToBoard board piece) = length b).
    { rewrite addPieceToBoard_length, <- Hderef. unfold deref. by rewrite length_fmap. }
    split; [|split].
    + rewrite <- Hlen. unfold addPieceToBoard. rewrite placeCells_flat.
      apply deref_fresh.
    + intros l Hl. by rewrite lookup_app_l.
    + rewrite deref_app_l by done. done.
Qed.


(** ** Rotation with wall kicks *)






(** ** The bag *)

Lemma random_index_range r n :
  unit_interval r → 0 < n →
  (0 ≤ Qfloor (r * num n) < Z.of_nat n)%Z.
Proof.
  intros [H0 H1] Hn. unfold num. split.
  - change 0%Z with (Qfloor 0). apply Qfloor_resp_le.
    apply Qmult_le_0_compat; [done|].
    change 0%Q with (inject_Z 0). rewrite <- Zle_Qle. lia.
  - apply Z.lt_nge. intros Hge.
    assert (Hlt : (r * inject_Z (Z.of_nat n) < inject_Z (Z.of_nat n))%Q).
    { rewrite <- (Qmult_1_l (inject_Z (Z.of_nat n))) at 2.
      apply Qmult_lt_compat_r; [|done].
      change 0%Q with (inject_Z 0). rewrite <- Zlt_Qlt. lia. }
    pose proof (Qfloor_le (r * inject_Z (Z.of_nat n))) as Hfl.
    apply (Qlt_irrefl (inject_Z (Z.of_nat n))).
    eapply Qle_lt_trans; [|exact Hlt].
    eapply Qle_trans; [|exact Hfl]. rewrite <- Zle_Qle. done.
Qed.

Lemma insert_head_perm (l : list TetrominoType) j a b :
  l !! j = Some b → b :: <[j := a]> l ≡ₚ a :: l.
Proof.
  revert j. induction l as [|y l IH]; intros j Hj; [done|].
  destruct j as [|j]; simpl in *.
  - simplify_eq. apply perm_swap.
  - rewrite perm_swap. rewrite (IH j Hj). apply perm_swap.
Qed.

Lemma swap_perm (l : list TetrominoType) i j a b :
  l !! i = Some a → l !! j = Some b → <[j := a]> (<[i := b]> l) ≡ₚ l.
Proof.
  revert i j. induction l as [|y l IH]; intros i j Hi Hj; [done|].
  destruct i as [|i], j as [|j]; simpl in *; simplify_eq.
  - done.
  - by apply insert_head_perm.
  - by apply insert_head_perm.
  - by rewrite (IH i j).
Qed.

Lemma swapAt_perm bag i j :
  i < length bag → (0 ≤ j < Z.of_nat (length bag))%Z → swapAt bag i j ≡ₚ bag.
Proof.
  intros Hi Hj. unfold swapAt, jsIndex.
  destruct (lookup_lt_is_Some_2 bag i Hi) as [a Ha]. rewrite Ha.
  destruct (Z.ltb_spec j 0) as [?|_]; [lia|].
  destruct (lookup_lt_is_Some_2 bag (Z.to_nat j)) as [b Hb]; [lia|]. rewrite Hb.
  by apply swap_perm.
Qed.

Lemma generateBag_fold rnd (is_ : list nat) bag k :
  (∀ n, unit_interval (rnd n)) →
  bag ≡ₚ TETROMINO_TYPES → Forall (fun i => i < 7) is_ →
  let '(bag', k') :=
    foldl (fun '(bag, k') i => (swapAt bag i (Qfloor (rnd k' * num (i + 1))), S k'))
          (bag, k) is_ in
  bag' ≡ₚ TETROMINO_TYPES ∧ k' = k + length is_.
Proof.
  intros Hrnd Hperm His. revert bag k Hperm.
  induction His as [|i is_ Hi His IH]; intros bag k Hperm; simpl.
  - split; [done|lia].
  - assert (Hlen : length bag = 7) by (by rewrite Hperm).
    specialize (IH (swapAt bag i (Qfloor (rnd k * num (i + 1)))) (S k)).
    destruct (foldl _ _ is_) as [bag' k'].
    destruct IH as [Hp Hk].
    + rewrite swapAt_perm; [done|lia|].
      pose proof (random_index_range (rnd k) (i + 1) (Hrnd k)). lia.
    + split; [done|lia].
Qed.

Lemma generateBag_perm rnd k :
  (∀ n, unit_interval (rnd n)) →
  fst (generateBag rnd k) ≡ₚ TETROMINO_TYPES ∧ snd (generateBag rnd k) = k + 6.
Proof.
  intros Hrnd. unfold generateBag.
  pose proof (generateBag_fold rnd (rev (seq 1 (length TETROMINO_TYPES - 1)))
                TETROMINO_TYPES k Hrnd) as H.
  destruct (foldl _ _ _) as [bag' k']. simpl. apply H; [done|].
  simpl. repeat constructor.
Qed.


Lemma refill_spec rnd bag k :
  (∀ n, unit_interval (rnd n)) →
  ∃ fresh, refill rnd (bag, k) = (bag ++ fresh, k + 6) ∧ fresh ≡ₚ TETROMINO_TYPES.
Proof.
  intros Hrnd. unfold refill. destruct (generateBag_perm rnd k Hrnd) as [Hp Hk].
  destruct (generateBag rnd k) as [fresh k']. simpl in *. subst k'. by exists fresh.
Qed.

Lemma getNextPiece_bag fuel rnd board t cur bags k :
  (∀ n, unit_interval (rnd n)) →
  Forall (fun bag => bag ≡ₚ TETROMINO_TYPES) bags →
  ∃ bags' k',
    getNextPiece false fuel rnd (t :: cur ++ concat bags, k) board
    = Some (Some t, (cur ++ concat bags', k')) ∧
    Forall (fun bag => bag ≡ₚ TETROMINO_TYPES) bags'.
Proof.
  intros Hrnd Hbags. unfold getNextPiece.
  remember (refill rnd) as rf eqn:Hrf. simpl. subst rf.
  destruct (length (cur ++ concat bags) <? PREVIEW_PIECES + 1).
  - destruct (refill_spec rnd (cur ++ concat bags) k Hrnd) as (fresh & -> & Hfresh).
    exists (bags ++ [fresh]), (k + 6). split.
    + rewrite concat_app. simpl. by rewrite app_nil_r, app_assoc.
    + apply Forall_app. split; [done|]. by constructor.
  - by exists bags, k.
Qed.

Lemma getNextPiece_empty fuel rnd board k :
  (∀ n, unit_interval (rnd n)) →
  getNextPiece false fuel rnd ([], k) board
  = getNextPiece false fuel rnd (generateBag rnd k) board.
Proof.
  intros Hrnd.
  destruct (generateBag_perm rnd k Hrnd) as [Hp _].
  assert (Hlen : length (fst (generateBag rnd k)) = 7) by (by rewrite Hp).
  unfold getNextPiece, refill. cbn [fst snd length Nat.eqb].
  destruct (generateBag rnd k) as [fresh k']. cbn [fst snd] in *.
  destruct fresh; [done|]. done.
Qed.

Lemma draws_run rnd board n cur bags k :
  (∀ n, unit_interval (rnd n)) →
  n ≤ length cur → Forall (fun bag => bag ≡ₚ TETROMINO_TYPES) bags →
  ∃ bags' k',
    draws n rnd (cur ++ concat bags, k) board
    = (Some <$> take n cur, (drop n cur ++ concat bags', k')) ∧
    Forall (fun bag => bag ≡ₚ TETROMINO_TYPES) bags'.
Proof.
  intros Hrnd. revert cur bags k. induction n as [|n IH]; intros cur bags k Hn Hbags.
  - exists bags, k. done.
  - destruct cur as [|t cur]; [simpl in Hn; lia|]. simpl in Hn.
    destruct (getNextPiece_bag 0 rnd board t cur bags k Hrnd Hbags)
      as (bags1 & k1 & Hnext & Hbags1).
    destruct (IH cur bags1 k1) as (bags2 & k2 & Hrest & Hbags2); [lia|done|].
    exists bags2, k2. split; [|done].
    cbn [draws]. change ((t :: cur) ++ concat bags) with (t :: cur ++ concat bags).
    rewrite Hnext, Hrest. done.
Qed.

Lemma draws_empty rnd board n k :
  (∀ n, unit_interval (rnd n)) →
  draws (S n) rnd ([], k) board = draws (S n) rnd (generateBag rnd k) board.
Proof.
  intros Hrnd. cbn [draws]. by rewrite getNextPiece_empty.
Qed.

(** C6: with draws of [Math.random()] in [0, 1), every bag that
    [generateBag] returns holds seven kinds, each kind once; and seven draws
    in fair-bag mode that start at a bag boundary deliver each kind once and
    end at a bag boundary. *)
Theorem generateBag_fair (rnd : nat → Q) :
  (∀ n, unit_interval (rnd n)) →
  (∀ k, length (fst (generateBag rnd k)) = 7 ∧
        fst (generateBag rnd k) ≡ₚ TETROMINO_TYPES ∧
        ∀ t, length (filter (fun t' => t' = t) (fst (generateBag rnd k))) = 1) ∧
  (∀ st board, at_bag_boundary st →
     ∃ kinds st',
       draws 7 rnd st board = (Some <$> kinds, st') ∧
       kinds ≡ₚ TETROMINO_TYPES ∧
       (∀ t, length (filter (fun t' => t' = t) kinds) = 1) ∧
       at_bag_boundary st').
Proof.
  intros Hrnd.
  assert (Honce : ∀ l : list TetrominoType, l ≡ₚ TETROMINO_TYPES →
                  ∀ t, length (filter (fun t' => t' = t) l) = 1).
  { intros l Hl t. rewrite Hl. by destruct t. }
  split.
  - intros k. destruct (generateBag_perm rnd k Hrnd) as [Hp _].
    split; [by rewrite Hp|]. split; [done|]. by apply Honce.
  - assert (Hfull : ∀ cur bags k board,
              cur ≡ₚ TETROMINO_TYPES →
              Forall (fun bag => bag ≡ₚ TETROMINO_TYPES) bags →
              ∃ kinds st',
                draws 7 rnd (cur ++ concat bags, k) board = (Some <$> kinds, st') ∧
                kinds ≡ₚ TETROMINO_TYPES ∧
                (∀ t, length (filter (fun t' => t' = t) kinds) = 1) ∧
                at_bag_boundary st').
    { intros cur bags k board Hcur Hbags.
      assert (Hlen : length cur = 7) by (by rewrite Hcur).
      destruct (draws_run rnd board 7 cur bags k Hrnd) as (bags' & k' & Hd & Hbags');
        [lia|done|].
      rewrite take_ge, drop_ge in Hd by lia.
      exists cur, (concat bags', k'). split; [done|]. split; [done|].
      split; [by apply Honce|]. exists bags'. split; [reflexivity|exact Hbags']. }
    intros [bag k] board (bags & Hbag & Hbags). simpl in Hbag. subst bag.
    destruct bags as [|cur bags].
    + cbn [concat]. rewrite (draws_empty rnd board 6 k Hrnd).
      destruct (generateBag_perm rnd k Hrnd) as [Hp _].
      destruct (generateBag rnd k) as [fresh k']. cbn [fst] in Hp.
      assert (Hnil : Forall (fun bag => bag ≡ₚ TETROMINO_TYPES) []) by constructor.
      pose proof (Hfull fresh [] k' board Hp Hnil) as H.
      cbn [concat] in H. rewrite app_nil_r in H. exact H.
    + apply Forall_cons in Hbags. destruct Hbags as [Hcur Hbags]. cbn [concat].
      by apply Hfull.
Qed.


(** ** Placement search *)

(** The comparison of numbers is a strict order; a comparison with [NaN]
    is false. *)
Ltac float_order :=
  repeat match goal with
  | H : context [Pos.compare_cont Eq ?m ?n] |- _ =>
      change (Pos.compare_cont Eq m n) with (Pos.compare m n) in H
  | |- context [Pos.compare_cont Eq ?m ?n] =>
      change (Pos.compare_cont Eq m n) with (Pos.compare m n)
  end;
  repeat match goal with
  | H : context [Z.compare ?a ?b] |- _ =>
      destruct (Z.compare_spec a b); simpl in H; try discriminate H
  | H : context [Pos.compare ?a ?b] |- _ =>
      destruct (Pos.compare_spec a b); simpl in H; try discriminate H
  end;
  repeat match goal with
  | |- context [Z.compare ?a ?b] => destruct (Z.compare_spec a b); simpl
  | |- context [Pos.compare ?a ?b] => destruct (Pos.compare_spec a b); simpl
  end;
  try reflexivity; try lia.

Lemma flt_irrefl (a : Number) : flt a a = false.
Proof.
  unfold flt, SFltb, SFcompare.
  destruct a as [s|s| |s m e]; try reflexivity; destruct s; float_order.
Qed.

Lemma flt_trans (a b c : Number) : flt a b = true → flt b c = true → flt a c = true.
Proof.
  unfold flt, SFltb, SFcompare.
  destruct a as [sa|sa| |sa ma ea], b as [sb|sb| |sb mb eb], c as [sc|sc| |sc mc ec];
    intros Hab Hbc; try discriminate Hab; try discriminate Hbc; try reflexivity;
    repeat match goal with s : bool |- _ => destruct s end;
    try discriminate Hab; try discriminate Hbc; try reflexivity;
    float_order.
Qed.

(** A number below another is below whatever that one is not above. *)
Lemma flt_not_below (a b c : Number) :
  flt a b = true → flt c b = false → flt c a = false.
Proof.
  intros Hab Hcb. destruct (flt c a) eqn:Hca; [|done].
  by rewrite (flt_trans c a b Hca Hab) in Hcb.
Qed.

Lemma tryPlacement_pick fuel t board best rot x :
  tryPlacement fuel t board best rot x
  = (fun q => pick best (candidate board rot x q)) <$> landing fuel t board rot x.
Proof.
  unfold tryPlacement, landing, candidate, compositeScore, scoreBoardState.
  destruct (descend fuel (pieceAt t x rot) board) as [q|]; [|done]. simpl.
  destruct (isValidMove q board); simpl; [|done].
  destruct (clearLines (addPieceToBoard board q)) as [clearedBoard linesCleared].
  simpl. destruct best as [b|]; [|done].
  by destruct (flt _ _).
Qed.

Lemma elem_of_xRange x :
  x ∈ xRange ↔ (-3 ≤ x < Z.of_nat BOARD_WIDTH + 3)%Z.
Proof.
  unfold xRange. rewrite list_elem_of_fmap. split.
  - intros (i & -> & Hi). apply elem_of_seq in Hi. lia.
  - intros Hx. exists (Z.to_nat (x + 3)). split; [lia|]. apply elem_of_seq. lia.
Qed.

Lemma elem_of_trials rot x :
  (rot, x) ∈ trials ↔ rot < 4 ∧ (-3 ≤ x < Z.of_nat BOARD_WIDTH + 3)%Z.
Proof.
  unfold trials. rewrite list_elem_of_bind. split.
  - intros (rot' & Hin & Hrot). apply elem_of_seq in Hrot.
    apply list_elem_of_fmap in Hin. destruct Hin as (x' & Heq & Hx). simplify_eq.
    apply elem_of_xRange in Hx. lia.
  - intros [Hrot Hx]. exists rot. split.
    + apply list_elem_of_fmap. exists x. split; [done|]. by apply elem_of_xRange.
    + apply elem_of_seq. lia.
Qed.

Lemma findBestPlacement_flat fuel t board :
  findBestPlacement fuel t board
  = foldl (fun acc '(rot, x) =>
             acc ≫= fun best => tryPlacement fuel t board best rot x)
          (Some None) trials.
Proof.
  unfold findBestPlacement, trials.
  apply (foldl_nested
           (fun acc rot x => acc ≫= fun best => tryPlacement fuel t board best rot x)
           (fun _ => xRange)).
Qed.

(** A run of updates from [null] ends on a candidate that no candidate
    beats. *)
Lemma pick_fold (cands : list (option Placement)) :
  let r := foldl pick None cands in
  (r = None ↔ Forall (fun c => c = None) cands) ∧
  ∀ p, r = Some p →
    Some p ∈ cands ∧
    ∀ c, Some c ∈ cands → flt (pl_score c) (pl_score p) = false.
Proof.
  induction cands as [|cand cands IH] using rev_ind; simpl.
  - split; [split; [constructor|done]|]. intros p Hp. discriminate Hp.
  - rewrite foldl_app. cbn [foldl]. cbv zeta in IH. destruct IH as [Hnone Hsome].
    destruct (foldl pick None cands) as [b|] eqn:Hr.
    + destruct (Hsome b eq_refl) as [Hin Hmin]. split.
      * split; [|intros HF; apply Forall_app in HF; destruct HF as [HF _];
                 apply Hnone in HF; discriminate HF].
        unfold pick. destruct cand as [c|]; [|done]. by destruct (flt _ _).
      * intros p Hp. unfold pick in Hp. destruct cand as [c|].
        -- destruct (flt (pl_score c) (pl_score b)) eqn:Hlt; simplify_eq.
           ++ split; [apply elem_of_app; right; by left|].
              intros c' Hc'. apply elem_of_app in Hc'. destruct Hc' as [Hc'|Hc'].
              ** apply (flt_not_below _ (pl_score b)); [done|by apply Hmin].
              ** apply elem_of_cons in Hc'. destruct Hc' as [Hc'|Hc'];
                   [|by apply elem_of_nil in Hc']. simplify_eq. apply flt_irrefl.
           ++ split; [apply elem_of_app; by left|].
              intros c' Hc'. apply elem_of_app in Hc'. destruct Hc' as [Hc'|Hc'];
                [by apply Hmin|].
              apply elem_of_cons in Hc'. destruct Hc' as [Hc'|Hc'];
                [|by apply elem_of_nil in Hc']. by simplify_eq.
        -- simplify_eq. split; [apply elem_of_app; by left|].
           intros c' Hc'. apply elem_of_app in Hc'. destruct Hc' as [Hc'|Hc'];
             [by apply Hmin|].
           apply elem_of_cons in Hc'. destruct Hc' as [Hc'|Hc'];
             [done|by apply elem_of_nil in Hc'].
    + assert (Hall : Forall (fun c => c = None) cands) by (by apply Hnone).
      split.
      * unfold pick. destruct cand as [c|].
        -- split; [done|]. intros HF. apply Forall_app in HF. destruct HF as [_ HF].
           apply Forall_cons in HF. destruct HF as [HF _]. discriminate HF.
        -- split; [|done]. intros _. apply Forall_app. split; [done|].
           by constructor.
      * intros p Hp. unfold pick in Hp. destruct cand as [c|]; [|done]. simplify_eq.
        split; [apply elem_of_app; right; by left|].
        intros c' Hc'. apply elem_of_app in Hc'. destruct Hc' as [Hc'|Hc'].
        -- rewrite Forall_forall in Hall. by specialize (Hall _ Hc').
        -- apply elem_of_cons in Hc'. destruct Hc' as [Hc'|Hc'];
             [|by apply elem_of_nil in Hc']. simplify_eq. apply flt_irrefl.
Qed.

Lemma findBestPlacement_fold fuel t board (l : list (nat * Z)) best0 :
  Forall (fun '(rot, x) => is_Some (landing fuel t board rot x)) l →
  ∃ qs, Forall2 (fun '(rot, x) q => landing fuel t board rot x = Some q) l qs ∧
        foldl (fun acc '(rot, x) =>
                 acc ≫= fun best => tryPlacement fuel t board best rot x)
              (Some best0) l
        = Some (foldl pick best0
                  (zip_with (fun '(rot, x) q => candidate board rot x q) l qs)).
Proof.
  intros Hl. revert best0. induction Hl as [|[rot x] l [q Hq] Hl IH]; intros best0.
  - exists []. split; [constructor|done].
  - destruct (IH (pick best0 (candidate board rot x q))) as (qs & Hqs & Hfold).
    exists (q :: qs). split; [by constructor|]. simpl.
    rewrite tryPlacement_pick, Hq. simpl. exact Hfold.
Qed.


Lemma landing_total fuel t board rot x :
  square (TETROMINO_SHAPES t) → has_block (TETROMINO_SHAPES t) →
  BOARD_HEIGHT < fuel → is_Some (landing fuel t board rot x).
Proof.
  intros Hsq Hb Hfuel. unfold landing. apply descend_terminates.
  - unfold getRotatedShape. simpl. by apply has_block_iter.
  - simpl. lia.
Qed.

Lemma candidates_member fuel t board (l : list (nat * Z)) qs :
  Forall2 (fun '(rot, x) q => landing fuel t board rot x = Some q) l qs →
  ∀ c, Some c ∈ zip_with (fun '(rot, x) q => candidate board rot x q) l qs ↔
       ∃ rot x q, (rot, x) ∈ l ∧ landing fuel t board rot x = Some q ∧
                  candidate board rot x q = Some c.
Proof.
  intros HF c. induction HF as [|[rot x] q l qs Hq HF IH]; simpl.
  - split; [intros H; by apply elem_of_nil in H|].
    intros (? & ? & ? & H & _). by apply elem_of_nil in H.
  - rewrite elem_of_cons, IH. split.
    + intros [Hc|(rot' & x' & q' & Hin & Hl & Hc)].
      * exists rot, x, q. split; [by left|done].
      * exists rot', x', q'. split; [by right|done].
    + intros (rot' & x' & q' & Hin & Hl & Hc). apply elem_of_cons in Hin.
      destruct Hin as [Heq|Hin].
      * simplify_eq. left. done.
      * right. by exists rot', x', q'.
Qed.

Lemma candidates_none fuel t board (l : list (nat * Z)) qs :
  Forall2 (fun '(rot, x) q => landing fuel t board rot x = Some q) l qs →
  Forall (fun c => c = None)
         (zip_with (fun '(rot, x) q => candidate board rot x q) l qs) ↔
  ∀ rot x q, (rot, x) ∈ l → landing fuel t board rot x = Some q →
             isValidMove q board = false.
Proof.
  intros HF. induction HF as [|[rot x] q l qs Hq HF IH]; simpl.
  - split; [|constructor]. intros _ ? ? ? H. by apply elem_of_nil in H.
  - rewrite Forall_cons, IH. split.
    + intros [Hc Hrest] rot' x' q' Hin Hl. apply elem_of_cons in Hin.
      destruct Hin as [Heq|Hin]; [|by eapply Hrest].
      simplify_eq. unfold candidate in Hc. by destruct (isValidMove _ _).
    + intros H. split.
      * unfold candidate. rewrite (H rot x q); [done|by left|done].
      * intros rot' x' q' Hin. apply H. by right.
Qed.

(** ** Piece selection *)

Lemma all_kinds t : t ∈ pieceTypes.
Proof. unfold pieceTypes. rewrite !elem_of_cons. destruct t; tauto. Qed.

Lemma randomKind_defined rnd k :
  unit_interval (rnd k) → ∃ t, randomKind rnd k = (Some t, S k).
Proof.
  intros Hr. unfold randomKind, jsIndex.
  assert (Hpos : 0 < length pieceTypes) by (simpl; lia).
  pose proof (random_index_range (rnd k) (length pieceTypes) Hr Hpos) as Hidx.
  change (length pieceTypes) with 7 in *.
  destruct (Z.ltb_spec (Qfloor (rnd k * num 7)) 0) as [?|_]; [lia|].
  destruct (lookup_lt_is_Some_2 pieceTypes (Z.to_nat (Qfloor (rnd k * num 7))))
    as [t Ht]; [change (length pieceTypes) with 7; lia|].
  exists t. by rewrite Ht.
Qed.

Lemma foldl_option_some {St A : Type} (g : option St → A → option St) l a :
  (∀ s x, x ∈ l → is_Some (g (Some s) x)) →
  is_Some (foldl g (Some a) l).
Proof.
  revert a. induction l as [|x l IH]; intros a Hg; simpl; [eauto|].
  destruct (Hg a x) as [a' Ha']; [by left|]. rewrite Ha'.
  apply IH. intros s y Hy. apply Hg. by right.
Qed.

Lemma findBestPlacement_total fuel t board :
  square (TETROMINO_SHAPES t) → has_block (TETROMINO_SHAPES t) →
  BOARD_HEIGHT < fuel → is_Some (findBestPlacement fuel t board).
Proof.
  intros Hsq Hb Hfuel.
  destruct (findBestPlacement_fold fuel t board trials None) as (qs & _ & Hfold).
  { apply Forall_forall. intros [rot x] _. by apply landing_total. }
  rewrite findBestPlacement_flat, Hfold. eauto.
Qed.


Lemma selectBest_total fuel board d :
  (∀ t, is_Some (findBestPlacement fuel t board)) →
  is_Some (selectBest fuel board d).
Proof.
  intros Hfind. unfold selectBest. apply fmap_is_Some.
  apply foldl_option_some.
  intros [bestPiece bestScore] t _. simpl.
  destruct (Hfind t) as [[pl|] ->]; simpl; [|eauto].
  destruct (flt _ _); eauto.
Qed.

Lemma selectBest_default fuel board d :
  (∀ t, findBestPlacement fuel t board = Some None) →
  selectBest fuel board d = Some d.
Proof.
  intros Hnull. unfold selectBest, pieceTypes.
  remember (findBestPlacement fuel) as search eqn:Hsearch.
  assert (Hn : ∀ t, search t board = Some None) by (by subst).
  clear Hsearch Hnull. simpl. repeat (rewrite Hn; simpl). done.
Qed.

Lemma simulatePlacement_total fuel t board x rot :
  square (TETROMINO_SHAPES t) → has_block (TETROMINO_SHAPES t) →
  BOARD_HEIGHT < fuel → is_Some (simulatePlacement fuel t board x rot).
Proof.
  intros Hsq Hb Hfuel. unfold simulatePlacement.
  destruct (landing_total fuel t board rot x Hsq Hb Hfuel) as [q Hq].
  unfold landing in Hq. rewrite Hq. destruct (negb _); eauto.
Qed.

Lemma findBestPlacement_byHoles_total fuel rnd k t board :
  square (TETROMINO_SHAPES t) → has_block (TETROMINO_SHAPES t) →
  BOARD_HEIGHT < fuel → is_Some (findBestPlacement_byHoles fuel rnd k t board).
Proof.
  intros Hsq Hb Hfuel. unfold findBestPlacement_byHoles.
  rewrite (foldl_nested
             (fun acc rot x =>
                acc ≫= fun st => tryPlacement_byHoles fuel rnd t board st rot x)
             (fun _ => xRange)).
  apply foldl_option_some.
  intros [best k0] [rot x] _. simpl. unfold tryPlacement_byHoles.
  destruct (simulatePlacement_total fuel t board x rot Hsq Hb Hfuel) as [[resultBoard|] ->];
    [|eauto].
  destruct best as [b|]; [|eauto].
  destruct (_ <? _); [eauto|]. destruct (_ =? _); [|eauto].
  destruct (Qltb _ _); eauto.
Qed.

Lemma selectOptimalPiece_byHoles_total fuel rnd k board :
  (∀ k0 t, is_Some (findBestPlacement_byHoles fuel rnd k0 t board)) →
  is_Some (selectOptimalPiece_byHoles fuel rnd k board).
Proof.
  intros Hfind. unfold selectOptimalPiece_byHoles. apply fmap_is_Some.
  apply foldl_option_some.
  intros [[bestPiece bestHoles] k0] t _. simpl.
  destruct (Hfind k0 t) as [[[pl|] k1] ->]; simpl; [|eauto].
  destruct bestHoles as [b|]; [|eauto]. destruct (_ <? _); eauto.
Qed.

Lemma selectOptimalPiece_byHoles_default fuel rnd k board :
  (∀ k0 t, findBestPlacement_byHoles fuel rnd k0 t board = Some (None, k0)) →
  selectOptimalPiece_byHoles fuel rnd k board = Some (TI, k).
Proof.
  intros Hnull. unfold selectOptimalPiece_byHoles, pieceTypes.
  remember (findBestPlacement_byHoles fuel rnd) as search eqn:Hsearch.
  assert (Hn : ∀ k0 t, search k0 t board = Some (None, k0)) by (by subst).
  clear Hsearch Hnull. simpl. repeat (rewrite Hn; simpl). done.
Qed.

(** C10: with enough fuel for the descents and draws in [0, 1), both
    revisions of the selector return one of the seven kinds; when the search
    finds no placement for any kind, the revision with the composite score
    answers T unless one of its random gates answers first, and the
    revision that counts holes answers I. *)
Theorem selectOptimalPiece_total (fuel : nat) (rnd : nat → Q) (k : nat) (board : Board) :
  (∀ t, square (TETROMINO_SHAPES t) ∧ has_block (TETROMINO_SHAPES t)) →
  (∀ n, unit_interval (rnd n)) →
  BOARD_HEIGHT < fuel →
  (∃ t k', selectOptimalPiece fuel rnd k board = Some (Some t, k') ∧ t ∈ pieceTypes) ∧
  (∃ t k', selectOptimalPiece_byHoles fuel rnd k board = Some (t, k') ∧ t ∈ pieceTypes) ∧
  ((∀ t, findBestPlacement fuel t board = Some None) →
     selectBest fuel board TT = Some TT ∧
     ((∃ k', selectOptimalPiece fuel rnd k board = Some (Some TT, k')) ∨
      (∃ j, selectOptimalPiece fuel rnd k board = Some (randomKind rnd j)))) ∧
  ((∀ k0 t, findBestPlacement_byHoles fuel rnd k0 t board = Some (None, k0)) →
     selectOptimalPiece_byHoles fuel rnd k board = Some (TI, k)).
Proof.
  intros Hshapes Hrnd Hfuel.
  assert (Hfind : ∀ t, is_Some (findBestPlacement fuel t board)).
  { intros t. destruct (Hshapes t). by apply findBestPlacement_total. }
  assert (Hfind' : ∀ k0 t, is_Some (findBestPlacement_byHoles fuel rnd k0 t board)).
  { intros k0 t. destruct (Hshapes t). by apply findBestPlacement_byHoles_total. }
  split; [|split; [|split]].
  - unfold selectOptimalPiece.
    destruct (isBoardMostlyEmpty board).
    { destruct (randomKind_defined rnd k (Hrnd k)) as [t ->].
      exists t, (S k). split; [done|apply all_kinds]. }
    destruct (if hasNearCompleteLine board then (false, k) else (Qltb (rnd k) 0.6, S k))
      as [chance k1].
    destruct chance.
    { destruct (randomKind_defined rnd k1 (Hrnd k1)) as [t ->].
      exists t, (S k1). split; [done|apply all_kinds]. }
    destruct (Qltb (rnd k1) 0.2).
    { destruct (randomKind_defined rnd (S k1) (Hrnd (S k1))) as [t ->].
      exists t, (S (S k1)). split; [done|apply all_kinds]. }
    destruct (selectBest_total fuel board TT Hfind) as [t ->].
    exists t, (S k1). split; [done|apply all_kinds].
  - destruct (selectOptimalPiece_byHoles_total fuel rnd k board Hfind') as [[t k'] ->].
    exists t, k'. split; [done|apply all_kinds].
  - intros Hnull. split; [by apply selectBest_default|].
    unfold selectOptimalPiece.
    destruct (isBoardMostlyEmpty board); [right; by exists k|].
    destruct (if hasNearCompleteLine board then (false, k) else (Qltb (rnd k) 0.6, S k))
      as [chance k1].
    destruct chance; [right; by exists k1|].
    destruct (Qltb (rnd k1) 0.2); [right; by exists (S k1)|].
    left. exists (S k1). by rewrite selectBest_default.
  - apply selectOptimalPiece_byHoles_default.
Qed.


(** A valid placement meets the precondition under which the merge keeps
    the dimensions of the board. *)
Lemma valid_placement_columns piece board :
  wf_board board → isValidMove piece board = true →
  ∀ y x, occupied (getRotatedShape piece) y x →
    (0 ≤ pos_y (position piece) + Z.of_nat y < Z.of_nat BOARD_HEIGHT)%Z →
    (0 ≤ pos_x (position piece) + Z.of_nat x < Z.of_nat BOARD_WIDTH)%Z.
Proof.
  intros Hwf Hvalid y x Hocc _.
  pose proof (proj1 (isValidMove_cells piece board) Hvalid y x Hocc) as Hc.
  apply (collides_false piece board y x Hwf) in Hc. tauto.
Qed.


(** ** Scoring, levels and speed *)

(** X1: the drop interval is never below 100 and, with a non-negative
    speed step, never grows as cleared lines accumulate; the level rises by
    one with every ten lines. *)
Theorem speed_follows_lines (lines lines' : nat) :
  (0 ≤ LEVEL_SPEED_MULTIPLIER)%Z → lines ≤ lines' →
  calculateLevel (lines + 10) = calculateLevel lines + 1 ∧
  calculateLevel lines ≤ calculateLevel lines' ∧
  (100 ≤ calculateSpeed (calculateLevel lines'))%Z ∧
  (calculateSpeed (calculateLevel lines') ≤ calculateSpeed (calculateLevel lines))%Z.
Proof.
  intros Hstep Hle. unfold calculateLevel, calculateSpeed. cbv zeta.
  assert (Hdiv : lines / 10 ≤ lines' / 10) by (by apply Nat.Div0.div_le_mono).
  split; [|split; [lia|split; [lia|]]].
  - replace (lines + 10) with (lines + 1 * 10) by lia.
    rewrite Nat.div_add by lia. lia.
  - apply Z.max_le_compat_r. nia.
Qed.

(** X2: a clear scores nothing when the line count is outside 1..4 or the
    level is 0, and otherwise at least as much as the same lines cleared one
    at a time. *)
Theorem calculateScore_table (lines level : nat) :
  (calculateScore lines level = 0 ↔ lines = 0 ∨ 4 < lines ∨ level = 0) ∧
  (lines ≤ 4 → lines * calculateScore 1 level ≤ calculateScore lines level).
Proof.
  unfold calculateScore. split.
  - destruct lines as [|[|[|[|[|lines]]]]]; simpl; lia.
  - intros Hle. destruct lines as [|[|[|[|[|lines]]]]]; simpl; lia.
Qed.


(** ** More on wall kicks and rotation *)

Lemma kick_lists_shape (tbl : list (string * list Position)) key :
  tbl = standardKicks ∨ tbl = iKicks →
  let kicks := default (default [] (property tbl "01")) (property tbl key) in
  head kicks = Some (mkPosition 0 0) ∧ length kicks = 5 ∧
  Forall (fun kick => (-2 ≤ pos_x kick ≤ 2)%Z ∧ (-2 ≤ pos_y kick ≤ 2)%Z) kicks.
Proof.
  intros [-> | ->]; unfold standardKicks, iKicks, property;
    repeat (match goal with |- context [String.eqb ?a key] => destruct (String.eqb a key) end);
    simpl; (split; [done|split; [done|repeat constructor; simpl; lia]]).
Qed.

Lemma getWallKicks_bounds (piece : Tetromino) (currentRotation : nat) :
  let kicks := getWallKicks piece currentRotation in
  head kicks = Some (mkPosition 0 0) ∧
  length kicks = (if decide (type piece = TO) then 1 else 5) ∧
  Forall (fun kick => (-2 ≤ pos_x kick ≤ 2)%Z ∧ (-2 ≤ pos_y kick ≤ 2)%Z) kicks.
Proof.
  unfold getWallKicks.
  pose proof (kick_lists_shape standardKicks (kickKey currentRotation)) as Hstd.
  pose proof (kick_lists_shape iKicks (kickKey currentRotation)) as Hi.
  destruct (type piece); simpl decide;
    try (apply Hstd; by left); try (apply Hi; by right).
  simpl. split; [done|]. split; [done|]. repeat constructor; simpl; lia.
Qed.

(** X3: whatever the kind and the rotation count, even one outside 0..3
    where the table has no entry under the key, the kick list begins with
    the zero offset and every offset moves the piece by at most two cells
    each way; O has that single offset, every other kind five. *)
Theorem getWallKicks_shape (piece : Tetromino) (currentRotation : nat) :
  let kicks := getWallKicks piece currentRotation in
  head kicks = Some (mkPosition 0 0) ∧
  length kicks = (if decide (type piece = TO) then 1 else 5) ∧
  Forall (fun kick => (-2 ≤ pos_x kick ≤ 2)%Z ∧ (-2 ≤ pos_y kick ≤ 2)%Z) kicks.
Proof. apply getWallKicks_bounds. Qed.

Lemma kicked_zero rotatedPiece :
  kicked rotatedPiece (mkPosition 0 0) = rotatedPiece.
Proof.
  destruct rotatedPiece as [t s [px py] r]. unfold kicked. simpl.
  by rewrite !Z.add_0_r.
Qed.

(** X4: when the piece turned a quarter is a valid placement where it
    stands, [rotatePiece] commits it there, with no kick, in every rotation
    state. *)
Theorem rotatePiece_in_place (fuel : nat) (s : Session) (currentPiece : Tetromino) :
  s_currentPiece s = Some currentPiece →
  s_gameState s = PLAYING →
  square (shape currentPiece) → has_block (shape currentPiece) →
  Z.to_nat (Z.of_nat BOARD_HEIGHT - pos_y (position currentPiece)) < fuel →
  let rotatedPiece :=
    mkTetromino (type currentPiece) (shape currentPiece) (position currentPiece)
                ((rotation currentPiece + 1) mod 4) in
  isValidMove rotatedPiece (s_board s) = true →
  ∃ ghost, rotatePiece fuel s
           = Some (mkSession (s_board s) (Some rotatedPiece) (Some ghost) PLAYING) ∧
           getGhostPiecePosition fuel rotatedPiece (s_board s) = Some ghost.
Proof.
  intros Hcur Hplaying Hsq Hblock Hfuel rotatedPiece Hvalid.
  unfold rotatePiece. rewrite Hcur, Hplaying.
  destruct (getWallKicks_bounds currentPiece (rotation currentPiece)) as (Hhead & _).
  destruct (getWallKicks currentPiece (rotation currentPiece)) as [|kick rest];
    [done|]. simpl in Hhead. simplify_eq.
  cbn [tryKicks]. fold rotatedPiece. rewrite kicked_zero, Hvalid.
  destruct (descend_terminates (s_board s) fuel rotatedPiece) as [ghost Hghost].
  - unfold getRotatedShape. simpl. by apply has_block_iter.
  - exact Hfuel.
  - exists ghost. unfold getGhostPiecePosition. rewrite Hghost, Hplaying. done.
Qed.

(** X5: whatever [rotatePiece] does, it leaves the board and the game
    state alone, keeps the kind, the shape and the x of the piece within two
    columns, and does nothing at all outside the PLAYING state. *)
Theorem rotatePiece_frame (fuel : nat) (s s' : Session) :
  rotatePiece fuel s = Some s' →
  s_board s' = s_board s ∧ s_gameState s' = s_gameState s ∧
  (s_gameState s ≠ PLAYING → s' = s) ∧
  (s_currentPiece s = None → s' = s) ∧
  ∀ p, s_currentPiece s = Some p →
    ∃ p', s_currentPiece s' = Some p' ∧ type p' = type p ∧ shape p' = shape p ∧
          (p' = p ∨ rotation p' = (rotation p + 1) mod 4) ∧
          (-2 ≤ pos_x (position p') - pos_x (position p) ≤ 2)%Z ∧
          (-2 ≤ pos_y (position p') - pos_y (position p) ≤ 2)%Z.
Proof.
  unfold rotatePiece. intros Hrot.
  destruct (s_currentPiece s) as [p|] eqn:Hcur; [|by simplify_eq].
  assert (Hany : ∀ rotatedPiece kicks,
            Forall (fun kick => (-2 ≤ pos_x kick ≤ 2)%Z ∧ (-2 ≤ pos_y kick ≤ 2)%Z) kicks →
            tryKicks fuel s rotatedPiece kicks = Some s' →
            s' = s ∨
            (s_board s' = s_board s ∧ s_gameState s' = s_gameState s ∧
             ∃ kick, s_currentPiece s' = Some (kicked rotatedPiece kick) ∧
                     (-2 ≤ pos_x kick ≤ 2)%Z ∧ (-2 ≤ pos_y kick ≤ 2)%Z)).
  { intros rotatedPiece kicks Hk. induction Hk as [|kick kicks Hkick Hk IH]; simpl.
    - intros ?. simplify_eq. by left.
    - destruct (isValidMove _ _); [|exact IH].
      destruct (getGhostPiecePosition _ _ _); [|done].
      intros ?. simplify_eq. right. simpl. repeat split; try done. by exists kick. }
  assert (Hsame : s' = s →
            s_board s' = s_board s ∧ s_gameState s' = s_gameState s ∧
            (s_gameState s ≠ PLAYING → s' = s) ∧ (Some p = None → s' = s) ∧
            ∀ p0, Some p = Some p0 →
              ∃ p', s_currentPiece s' = Some p' ∧ type p' = type p0 ∧ shape p' = shape p0 ∧
                    (p' = p0 ∨ rotation p' = (rotation p0 + 1) mod 4) ∧
                    (-2 ≤ pos_x (position p') - pos_x (position p0) ≤ 2)%Z ∧
                    (-2 ≤ pos_y (position p') - pos_y (position p0) ≤ 2)%Z).
  { intros ->. repeat split; try done. intros p0 ?. simplify_eq.
    exists p0. rewrite Hcur. repeat split; try done; try lia. by left. }
  destruct (s_gameState s) eqn:Hstate; try (apply Hsame; by simplify_eq).
  destruct (getWallKicks_bounds p (rotation p)) as (_ & _ & Hbound).
  destruct (Hany _ _ Hbound Hrot) as [->|(Hb & Hg & kick & Hp' & Hx & Hy)];
    [by apply Hsame|].
  repeat split; try done; try congruence.
  intros p0 ?. simplify_eq. eexists. split; [exact Hp'|]. simpl.
  repeat split; try done; try lia; by right.
Qed.


(** ** More on descent and line clearing *)

Lemma hardDropLoop_descend board fuel piece newY dropDistance :
  hardDropLoop fuel piece board newY dropDistance
  = (fun g => (pos_y (position g),
               dropDistance + Z.to_nat (pos_y (position g) - newY)))
    <$> descend fuel (with_y piece newY) board.
Proof.
  revert newY dropDistance. induction fuel as [|fuel IH]; intros newY dropDistance; [done|].
  cbn [hardDropLoop descend]. rewrite with_y_with_y. simpl pos_y.
  destruct (isValidMove (with_y piece (newY + 1)%Z) board) eqn:Hv.
  - rewrite IH. destruct (descend fuel (with_y piece (newY + 1)%Z) board) as [g|] eqn:Hg;
      [|done].
    destruct (descend_result _ _ _ _ Hg) as (v & -> & Hle & _). simpl in *.
    do 2 f_equal. lia.
  - simpl. do 2 f_equal. lia.
Qed.

Lemma descend_fixed board fuel piece g :
  descend fuel piece board = Some g → ∀ fuel', 0 < fuel' → descend fuel' g board = Some g.
Proof.
  intros Hg fuel' Hfuel. destruct (descend_result _ _ _ _ Hg) as (v & -> & _ & _ & Hstop).
  destruct fuel' as [|fuel']; [lia|]. simpl. rewrite with_y_with_y. by rewrite Hstop.
Qed.

(** X6: the distance counted by the loop of [hardDrop] is the distance from
    the piece to its ghost, and the ghost of a ghost is that ghost. *)
Theorem hardDrop_reaches_ghost (fuel : nat) (piece : Tetromino) (board : Board) :
  hardDropLoop fuel piece board (pos_y (position piece)) 0
  = (fun ghost => (pos_y (position ghost),
                   Z.to_nat (pos_y (position ghost) - pos_y (position piece))))
    <$> getGhostPiecePosition fuel piece board ∧
  ∀ ghost, getGhostPiecePosition fuel piece board = Some ghost →
    ∀ fuel', 0 < fuel' → getGhostPiecePosition fuel' ghost board = Some ghost.
Proof.
  split.
  - rewrite hardDropLoop_descend, with_y_same. done.
  - intros ghost Hg. by apply (descend_fixed board fuel piece).
Qed.

Lemma filter_none {A : Type} (P : A → Prop) `{∀ x, Decision (P x)} (l : list A) :
  Forall (fun x => ¬ P x) l → filter P l = [].
Proof.
  induction 1 as [|x l Hx Hl IH]; [done|]. by rewrite filter_cons_False.
Qed.

Lemma filter_all {A : Type} (P : A → Prop) `{∀ x, Decision (P x)} (l : list A) :
  Forall P l → filter P l = l.
Proof.
  induction 1 as [|x l Hx Hl IH]; [done|]. rewrite filter_cons_True by done.
  by rewrite IH.
Qed.

Lemma clearLines_length board :
  length (fst (clearLines board)) = length board ∧
  snd (clearLines board) ≤ length board.
Proof.
  unfold clearLines. rewrite clearLines_fold. simpl.
  rewrite length_app, length_replicate.
  induction board as [|row board IH]; [done|].
  destruct (decide (forallb notNull row = true)) as [Hf|Hf].
  - rewrite filter_cons_True by done. rewrite filter_cons_False by tauto. simpl. lia.
  - rewrite filter_cons_False by done. rewrite filter_cons_True by done. simpl. lia.
Qed.

Lemma clearLines_rows board :
  clearLines board
  = (replicate (length (filter (fun row => forallb notNull row = true) board))
               (replicate BOARD_WIDTH Null)
       ++ filter (fun row => forallb notNull row ≠ true) board,
     length (filter (fun row => forallb notNull row = true) board)).
Proof.
  unfold clearLines. rewrite clearLines_fold. by rewrite app_nil_l.
Qed.

Lemma clearLines_clean (board : Board) :
  0 < BOARD_WIDTH →
  Forall (fun row => forallb notNull row = false) (fst (clearLines board)) ∧
  clearLines (fst (clearLines board)) = (fst (clearLines board), 0) ∧
  (wf_board board → wf_board (fst (clearLines board))).
Proof.
  intros HW.
  assert (Hempty : forallb notNull (replicate BOARD_WIDTH Null) = false).
  { destruct BOARD_WIDTH; [lia|done]. }
  assert (Hclean : Forall (fun row => forallb notNull row = false) (fst (clearLines board))).
  { rewrite clearLines_rows. simpl. apply Forall_app. split.
    - by apply Forall_replicate.
    - apply Forall_forall. intros row Hrow. apply list_elem_of_filter in Hrow.
      destruct Hrow as [Hnot _]. by destruct (forallb notNull row). }
  split; [done|]. split.
  - rewrite (clearLines_rows (fst (clearLines board))).
    assert (Hnone : filter (fun row => forallb notNull row = true) (fst (clearLines board)) = []).
    { apply filter_none. eapply Forall_impl; [exact Hclean|].
      simpl. intros row Hrow. congruence. }
    assert (Hall : filter (fun row => forallb notNull row ≠ true) (fst (clearLines board))
                   = fst (clearLines board)).
    { apply filter_all. eapply Forall_impl; [exact Hclean|].
      simpl. intros row Hrow. congruence. }
    rewrite Hnone, Hall. done.
  - intros [Hlen Hrows]. split.
    + destruct (clearLines_length board) as [Heq _]. congruence.
    + rewrite clearLines_rows. simpl. apply Forall_app. split.
      * apply Forall_replicate. split; [by rewrite length_replicate|].
        by apply Forall_replicate.
      * apply Forall_forall. intros row Hrow. apply list_elem_of_filter in Hrow.
        destruct Hrow as [_ Hin]. by eapply Forall_forall in Hrows.
Qed.

(** X7: on a board at least one column wide, what [clearLines] returns has
    no full row left, so clearing it again changes nothing and counts no
    line; the result of clearing a well-formed board is well-formed. *)
Theorem clearLines_settles (board : Board) :
  0 < BOARD_WIDTH →
  Forall (fun row => forallb notNull row = false) (fst (clearLines board)) ∧
  clearLines (fst (clearLines board)) = (fst (clearLines board), 0) ∧
  (wf_board board → wf_board (fst (clearLines board))).
Proof. apply clearLines_clean. Qed.


(** ** Spawning *)

Lemma wf_createEmptyBoard : wf_board createEmptyBoard.
Proof.
  unfold createEmptyBoard. split; [by rewrite length_replicate|].
  apply Forall_replicate. split; [by rewrite length_replicate|].
  by apply Forall_replicate.
Qed.

Lemma getCell_createEmptyBoard r c :
  r < BOARD_HEIGHT → c < BOARD_WIDTH → getCell createEmptyBoard r c = Null.
Proof.
  intros Hr Hc. unfold getCell, createEmptyBoard.
  rewrite lookup_replicate_2 by done. simpl. by rewrite lookup_replicate_2.
Qed.

(** X8: a kind whose N x N shape fits the board spawns in rotation 0 on
    the top row, inside the board and centred (the spare column, if any, on
    the right), and on the empty board that spawn is not a game over. *)
Theorem spawn_on_empty_board (t : TetrominoType) :
  square (TETROMINO_SHAPES t) →
  0 < length (TETROMINO_SHAPES t) →
  length (TETROMINO_SHAPES t) ≤ BOARD_WIDTH →
  length (TETROMINO_SHAPES t) ≤ BOARD_HEIGHT →
  let piece := generateNewPiece t in
  let N := Z.of_nat (length (TETROMINO_SHAPES t)) in
  let left := pos_x (position piece) in
  let right := (Z.of_nat BOARD_WIDTH - (left + N))%Z in
  rotation piece = 0 ∧ pos_y (position piece) = 0%Z ∧
  (0 ≤ left)%Z ∧ (0 ≤ right)%Z ∧ (left ≤ right ≤ left + 1)%Z ∧
  isGameOver piece createEmptyBoard = false.
Proof.
  intros Hsq Hpos HW HH piece N left right.
  assert (Hrow : length (default [] (TETROMINO_SHAPES t !! 0))
                 = length (TETROMINO_SHAPES t)).
  { destruct (lookup_lt_is_Some_2 (TETROMINO_SHAPES t) 0 Hpos) as [row Hrow].
    rewrite Hrow. simpl. by eapply Forall_lookup_1 in Hsq. }
  assert (Hleft : left = ((Z.of_nat BOARD_WIDTH - N) / 2)%Z).
  { unfold left, piece, generateNewPiece, N. simpl. by rewrite Hrow. }
  assert (Hdiv : (0 ≤ (Z.of_nat BOARD_WIDTH - N)
                      - 2 * ((Z.of_nat BOARD_WIDTH - N) / 2) ≤ 1)%Z).
  { pose proof (Z.mod_pos_bound (Z.of_nat BOARD_WIDTH - N) 2) as Hm.
    rewrite Z.mod_eq in Hm by lia. lia. }
  assert (HN : (N ≤ Z.of_nat BOARD_WIDTH)%Z) by (unfold N; lia).
  assert (Hleft0 : (0 ≤ left)%Z) by (rewrite Hleft; apply Z.div_pos; lia).
  split; [done|]. split; [done|]. split; [done|].
  split; [unfold right; lia|]. split; [unfold right; lia|].
  unfold isGameOver. apply negb_false_iff. apply isValidMove_cells.
  intros y x Hocc. apply (collides_false piece createEmptyBoard y x wf_createEmptyBoard).
  change (getRotatedShape piece) with (TETROMINO_SHAPES t) in Hocc.
  apply (occupied_dims (length (TETROMINO_SHAPES t))) in Hocc; [|by apply square_dims].
  destruct Hocc as (Hy & Hx & _). cbv zeta. fold left.
  change (pos_y (position piece)) with 0%Z.
  split; [unfold right, N in *; lia|]. split; [lia|].
  intros _. apply getCell_createEmptyBoard; unfold right, N in *; lia.
Qed.


(** ** Board metrics *)

Lemma countHoles_column board x n holes0 :
  foldl (fun '(holes', foundBlock) y =>
           if notNull (getCell board y x) then (holes', true)
           else if foundBlock then (S holes', foundBlock)
           else (holes', foundBlock))
        (holes0, false) (seq 0 n)
  = (holes0 + length (filter (fun y => holeAt board y x = true) (seq 0 n)),
     existsb (fun y' => notNull (getCell board y' x)) (seq 0 n)).
Proof.
  induction n as [|n IH]; [simpl; f_equal; lia|].
  rewrite seq_S, foldl_app, IH, filter_app, existsb_app, length_app.
  cbn [foldl existsb Nat.add].
  assert (Hhole : holeAt board n x
                  = negb (notNull (getCell board n x)) &&
                    existsb (fun y' => notNull (getCell board y' x)) (seq 0 n)) by done.
  destruct (notNull (getCell board n x)) eqn:Hcell.
  - rewrite filter_cons_False by (rewrite Hhole; done).
    rewrite orb_true_r. simpl. f_equal. lia.
  - rewrite orb_false_r.
    destruct (existsb (fun y' => notNull (getCell board y' x)) (seq 0 n)) eqn:Hfound.
    + rewrite filter_cons_True by (rewrite Hhole; done). simpl. f_equal. lia.
    + rewrite filter_cons_False by (rewrite Hhole; done). simpl. f_equal. lia.
Qed.

Lemma filter_pairs_length {A B : Type} (Q : A * B → Prop) `{∀ p, Decision (Q p)}
    (a : A) (bs : list B) :
  length (filter Q ((fun b => (a, b)) <$> bs))
  = length (filter (fun b => Q (a, b)) bs).
Proof.
  induction bs as [|b bs IH]; [done|]. rewrite fmap_cons.
  destruct (decide (Q (a, b))) as [Hq|Hq].
  - rewrite !filter_cons_True by done. cbn [length]. by rewrite IH.
  - rewrite !filter_cons_False by done. done.
Qed.

Lemma countHoles_fold board xs holes0 :
  foldl (fun holes x =>
    fst (foldl (fun '(holes', foundBlock) y =>
                  if notNull (getCell board y x) then (holes', true)
                  else if foundBlock then (S holes', foundBlock)
                  else (holes', foundBlock))
               (holes, false) (seq 0 BOARD_HEIGHT)))
    holes0 xs
  = holes0 + length (filter (fun p => holeAt board p.2 p.1 = true)
                            (x ← xs; (fun y => (x, y)) <$> seq 0 BOARD_HEIGHT)).
Proof.
  revert holes0. induction xs as [|x xs IH]; intros holes0; [simpl; lia|].
  cbn [foldl]. rewrite countHoles_column. cbn [fst]. rewrite IH.
  rewrite bind_cons, filter_app, length_app.
  rewrite (filter_pairs_length (fun p => holeAt board p.2 p.1 = true)). simpl. lia.
Qed.

(** X10: [countHoles] is the number of grid cells that are [null] and lie
    below a cell of their column that is not; in particular it is 0 exactly
    when the grid has no such cell. *)
Theorem countHoles_counts (board : Board) :
  countHoles board
  = length (filter (fun p => holeAt board p.2 p.1 = true) gridCells) ∧
  (countHoles board = 0 ↔
   ∀ x y, x < BOARD_WIDTH → y < BOARD_HEIGHT → holeAt board y x = false).
Proof.
  assert (Hcount : countHoles board
                   = length (filter (fun p => holeAt board p.2 p.1 = true) gridCells)).
  { unfold countHoles, gridCells. by rewrite countHoles_fold. }
  split; [done|]. rewrite Hcount. split.
  - intros Hzero x y Hx Hy. apply not_true_is_false. intros Hhole.
    apply length_zero_iff_nil in Hzero.
    apply (filter_nil_not_elem_of _ _ (x, y) Hzero Hhole).
    unfold gridCells. apply list_elem_of_bind. exists x. split.
    + apply list_elem_of_fmap. exists y. split; [done|]. apply elem_of_seq. lia.
    + apply elem_of_seq. lia.
  - intros Hnone. rewrite filter_none; [done|].
    apply Forall_forall. intros [x y] Hin. unfold gridCells in Hin.
    apply list_elem_of_bind in Hin. destruct Hin as (x' & Hin & Hx).
    apply list_elem_of_fmap in Hin. destruct Hin as (y' & Heq & Hy). simplify_eq.
    apply elem_of_seq in Hx. apply elem_of_seq in Hy. simpl.
    rewrite Hnone by lia. done.
Qed.


(** ** More on the placement search and the selector *)

Lemma foldl_option_none {St A : Type} (g : option St → A → option St) l :
  (∀ x, g None x = None) → foldl g None l = None.
Proof.
  intros Hg. induction l as [|x l IH]; [done|]. simpl. by rewrite Hg.
Qed.

Lemma tryPlacement_byHoles_step fuel rnd t board seen best k rot x best' k' :
  holes_invariant fuel t board seen best →
  tryPlacement_byHoles fuel rnd t board (best, k) rot x = Some (best', k') →
  holes_invariant fuel t board (fun tr => seen tr ∨ tr = (rot, x)) best' ∧ k ≤ k'.
Proof.
  intros Hinv. unfold tryPlacement_byHoles.
  destruct (simulatePlacement fuel t board x rot) as [[resultBoard|]|] eqn:Hsim; [| |done].
  - change (holes (calculateBoardMetrics resultBoard)) with (countHoles resultBoard).
    assert (Hnew : (∀ rot' x' rb', seen (rot', x') →
                      simulatePlacement fuel t board x' rot' = Some (Some rb') →
                      countHoles resultBoard ≤ countHoles rb') →
                   holes_invariant fuel t board (fun tr => seen tr ∨ tr = (rot, x))
                     (Some (mkHolesPlacement (countHoles resultBoard) x rot))).
    { intros Hmin. simpl. split; [by right|]. split; [by exists resultBoard|].
      intros rot' x' rb' [Hseen|Heq] Hsim'; [by eapply Hmin|].
      simplify_eq. done. }
    assert (Hkeep : ∀ p, best = Some p → hp_holes p ≤ countHoles resultBoard →
                    holes_invariant fuel t board (fun tr => seen tr ∨ tr = (rot, x)) (Some p)).
    { intros p -> Hle. simpl in *. destruct Hinv as (Hseen & Hown & Hmin).
      split; [by left|]. split; [done|].
      intros rot' x' rb' [Hs|Heq] Hsim'; [by eapply Hmin|]. simplify_eq. done. }
    destruct best as [p|].
    + destruct (countHoles resultBoard <? hp_holes p) eqn:Hlt.
      * intros ?. simplify_eq. split; [|lia]. apply Hnew.
        intros rot' x' rb' Hseen Hsim'. apply Nat.ltb_lt in Hlt.
        destruct Hinv as (_ & _ & Hmin). specialize (Hmin rot' x' rb' Hseen Hsim'). lia.
      * apply Nat.ltb_ge in Hlt.
        destruct (countHoles resultBoard =? hp_holes p) eqn:Heq.
        -- apply Nat.eqb_eq in Heq. destruct (Qltb (rnd k) 0.5); intros ?; simplify_eq.
           ++ split; [|lia]. apply Hnew. intros rot' x' rb' Hseen Hsim'.
              destruct Hinv as (_ & _ & Hmin). specialize (Hmin rot' x' rb' Hseen Hsim'). lia.
           ++ split; [|lia]. by apply Hkeep.
        -- intros ?. simplify_eq. split; [|lia]. by apply Hkeep.
    + intros ?. simplify_eq. split; [|lia]. apply Hnew.
      intros rot' x' rb' Hseen Hsim'. simpl in Hinv. rewrite Hinv in Hsim' by done. done.
  - intros ?. simplify_eq. split; [|lia]. destruct best' as [p|]; simpl in *.
    + destruct Hinv as (Hseen & Hown & Hmin). split; [by left|]. split; [done|].
      intros rot' x' rb' [Hs|Heq] Hsim'; [by eapply Hmin|]. simplify_eq.
    + intros rot' x' [Hs|Heq]; [by apply Hinv|]. by simplify_eq.
Qed.

Lemma findBestPlacement_byHoles_fold fuel rnd t board (l : list (nat * Z)) seen best k r k' :
  holes_invariant fuel t board seen best →
  foldl (fun acc '(rot, x) =>
           acc ≫= fun st => tryPlacement_byHoles fuel rnd t board st rot x)
        (Some (best, k)) l = Some (r, k') →
  holes_invariant fuel t board (fun tr => seen tr ∨ tr ∈ l) r ∧ k ≤ k'.
Proof.
  revert seen best k. induction l as [|[rot x] l IH]; intros seen best k Hinv Hfold.
  - simpl in Hfold. simplify_eq. split; [|lia].
    destruct r as [p|]; simpl in *.
    + destruct Hinv as (Hseen & Hown & Hmin). split; [by left|]. split; [done|].
      intros rot x rb [Hs|Hin]; [by apply Hmin|by apply elem_of_nil in Hin].
    + intros rot x [Hs|Hin]; [by apply Hinv|by apply elem_of_nil in Hin].
  - cbn [foldl] in Hfold. cbn [mbind option_bind] in Hfold.
    destruct (tryPlacement_byHoles fuel rnd t board (best, k) rot x) as [[best1 k1]|] eqn:Hstep.
    + destruct (tryPlacement_byHoles_step _ _ _ _ _ _ _ _ _ _ _ Hinv Hstep) as [Hinv1 Hk1].
      destruct (IH _ _ _ Hinv1 Hfold) as [Hinv2 Hk2]. split; [|lia].
      assert (Hiff : ∀ tr, (seen tr ∨ tr = (rot, x)) ∨ tr ∈ l ↔ seen tr ∨ tr ∈ (rot, x) :: l).
      { intros tr. rewrite elem_of_cons. tauto. }
      destruct r as [p|]; simpl in *.
      * destruct Hinv2 as (Hseen & Hown & Hmin). split; [by apply Hiff|]. split; [done|].
        intros rot' x' rb' Hs. apply Hmin. by apply Hiff.
      * intros rot' x' Hs. apply Hinv2. by apply Hiff.
    + rewrite foldl_option_none in Hfold; [done|]. by intros [rot' x'].
Qed.

Lemma findBestPlacement_byHoles_search (fuel : nat) (rnd : nat → Q) (k : nat)
    (t : TetrominoType) (board : Board) :
  square (TETROMINO_SHAPES t) → has_block (TETROMINO_SHAPES t) →
  BOARD_HEIGHT < fuel →
  ∃ r k', findBestPlacement_byHoles fuel rnd k t board = Some (r, k') ∧ k ≤ k' ∧
    (r = None ↔
     ∀ rot x, rot < 4 → (-3 ≤ x < Z.of_nat BOARD_WIDTH + 3)%Z →
              simulatePlacement fuel t board x rot = Some None) ∧
    (∀ p, r = Some p →
       hp_rotation p < 4 ∧ (-3 ≤ hp_x p < Z.of_nat BOARD_WIDTH + 3)%Z ∧
       (∃ resultBoard,
          simulatePlacement fuel t board (hp_x p) (hp_rotation p)
          = Some (Some resultBoard) ∧
          hp_holes p = countHoles resultBoard) ∧
       (∀ rot x resultBoard, rot < 4 → (-3 ≤ x < Z.of_nat BOARD_WIDTH + 3)%Z →
          simulatePlacement fuel t board x rot = Some (Some resultBoard) →
          hp_holes p ≤ countHoles resultBoard)).
Proof.
  intros Hsq Hb Hfuel.
  destruct (findBestPlacement_byHoles_total fuel rnd k t board Hsq Hb Hfuel) as [[r k'] Hr].
  exists r, k'. split; [done|].
  unfold findBestPlacement_byHoles in Hr.
  rewrite (foldl_nested
             (fun acc rot x =>
                acc ≫= fun st => tryPlacement_byHoles fuel rnd t board st rot x)
             (fun _ => xRange)) in Hr.
  destruct (findBestPlacement_byHoles_fold fuel rnd t board trials (fun _ => False)
              None k r k') as [Hinv Hk]; [by intros ? ? ?|exact Hr|].
  split; [done|]. split.
  - split.
    + intros -> rot x Hrot Hx. simpl in Hinv. apply Hinv. right. by apply elem_of_trials.
    + intros Hnone. destruct r as [p|]; [|done]. simpl in Hinv.
      destruct Hinv as ([[]|Hin] & (rb & Hsim & _) & _).
      apply elem_of_trials in Hin. destruct Hin as [Hrot Hx].
      rewrite (Hnone _ _ Hrot Hx) in Hsim. done.
  - intros p ->. simpl in Hinv. destruct Hinv as ([[]|Hin] & Hown & Hmin).
    apply elem_of_trials in Hin. split; [tauto|]. split; [tauto|]. split; [done|].
    intros rot x rb Hrot Hx. apply Hmin. right. by apply elem_of_trials.
Qed.

(** X9: the search of the revision that counts holes returns [null]
    exactly when no trial lands on a valid placement, and otherwise a valid
    trial whose resulting board has the fewest holes among all valid trials;
    the random tie-break only chooses between trials with equally few. *)
Theorem findBestPlacement_byHoles_minimal (fuel : nat) (rnd : nat → Q) (k : nat)
    (t : TetrominoType) (board : Board) :
  square (TETROMINO_SHAPES t) → has_block (TETROMINO_SHAPES t) →
  BOARD_HEIGHT < fuel →
  ∃ r k', findBestPlacement_byHoles fuel rnd k t board = Some (r, k') ∧ k ≤ k' ∧
    (r = None ↔
     ∀ rot x, rot < 4 → (-3 ≤ x < Z.of_nat BOARD_WIDTH + 3)%Z →
              simulatePlacement fuel t board x rot = Some None) ∧
    (∀ p, r = Some p →
       hp_rotation p < 4 ∧ (-3 ≤ hp_x p < Z.of_nat BOARD_WIDTH + 3)%Z ∧
       (∃ resultBoard,
          simulatePlacement fuel t board (hp_x p) (hp_rotation p)
          = Some (Some resultBoard) ∧
          hp_holes p = countHoles resultBoard) ∧
       (∀ rot x resultBoard, rot < 4 → (-3 ≤ x < Z.of_nat BOARD_WIDTH + 3)%Z →
          simulatePlacement fuel t board x rot = Some (Some resultBoard) →
          hp_holes p ≤ countHoles resultBoard)).
Proof. apply findBestPlacement_byHoles_search. Qed.

(** The search of the revision with the composite score: [null] exactly
    when no trial lands on a valid placement, otherwise the first valid
    trial that no valid trial beats. *)
Lemma findBestPlacement_search fuel t board :
  square (TETROMINO_SHAPES t) → has_block (TETROMINO_SHAPES t) →
  BOARD_HEIGHT < fuel →
  ∃ r, findBestPlacement fuel t board = Some r ∧
    (r = None ↔
     ∀ rot x q, rot < 4 → (-3 ≤ x < Z.of_nat BOARD_WIDTH + 3)%Z →
                landing fuel t board rot x = Some q → isValidMove q board = false) ∧
    (∀ p, r = Some p →
       pl_rotation p < 4 ∧ (-3 ≤ pl_x p < Z.of_nat BOARD_WIDTH + 3)%Z ∧
       (∃ q, landing fuel t board (pl_rotation p) (pl_x p) = Some q ∧
             isValidMove q board = true ∧
             pl_score p = compositeScore board q ∧
             pl_linesCleared p = snd (clearLines (addPieceToBoard board q))) ∧
       (∀ rot x q, rot < 4 → (-3 ≤ x < Z.of_nat BOARD_WIDTH + 3)%Z →
                   landing fuel t board rot x = Some q → isValidMove q board = true →
                   flt (compositeScore board q) (pl_score p) = false)).
Proof.
  intros Hsq Hb Hfuel.
  destruct (findBestPlacement_fold fuel t board trials None) as (qs & Hqs & Hfold).
  { apply Forall_forall. intros [rot x] _. by apply landing_total. }
  rewrite findBestPlacement_flat, Hfold. eexists. split; [done|].
  destruct (pick_fold
              (zip_with (fun '(rot, x) q => candidate board rot x q) trials qs))
    as [Hnone Hsome].
  split.
  - rewrite Hnone, (candidates_none fuel t board trials qs Hqs). split.
    + intros H rot x q Hrot Hx. apply H. by apply elem_of_trials.
    + intros H rot x q Hin. apply elem_of_trials in Hin.
      destruct Hin. by apply H.
  - intros p Hp. destruct (Hsome p Hp) as (Hfrom & Hall).
    apply (candidates_member fuel t board trials qs Hqs) in Hfrom.
    destruct Hfrom as (rot & x & q & Hin & Hl & Hc).
    apply elem_of_trials in Hin. unfold candidate in Hc.
    destruct (isValidMove q board) eqn:Hv; [|done]. simplify_eq. simpl.
    split; [tauto|]. split; [tauto|]. split; [by exists q|].
    intros rot' x' q' Hrot' Hx' Hl' Hv'.
    specialize (Hall (mkPlacement (compositeScore board q') x' rot'
                        (snd (clearLines (addPieceToBoard board q'))))).
    simpl in Hall. apply Hall.
    apply (candidates_member fuel t board trials qs Hqs).
    exists rot', x', q'. split; [by apply elem_of_trials|]. split; [done|].
    unfold candidate. by rewrite Hv'.
Qed.

(** C4: with enough fuel for a descent from the top row, both revisions of
    [findBestPlacement] search the four rotations and the columns from -3
    to [BOARD_WIDTH + 2] and return [null] exactly when no trial lands on a
    valid placement. Otherwise the revision with [scoreBoardState] returns
    a valid trial with its composite score, computed in binary64 with the
    weights 10, 0.5 and 0.3 (positive) and -5 (negative), which the score
    of no valid trial is below; the revision that reads only the holes
    returns a valid trial whose board has the fewest holes, whatever its
    composite score. *)
Theorem findBestPlacement_minimal (fuel : nat) (rnd : nat → Q) (k : nat)
    (t : TetrominoType) (board : Board) :
  square (TETROMINO_SHAPES t) → has_block (TETROMINO_SHAPES t) →
  BOARD_HEIGHT < fuel →
  (flt (toNumber 0) HOLE_WEIGHT = true ∧ flt (toNumber 0) HEIGHT_WEIGHT = true ∧
   flt (toNumber 0) BUMPINESS_WEIGHT = true ∧ flt LINES_WEIGHT (toNumber 0) = true) ∧
  (∃ r, findBestPlacement fuel t board = Some r ∧
    (r = None ↔
     ∀ rot x q, rot < 4 → (-3 ≤ x < Z.of_nat BOARD_WIDTH + 3)%Z →
                landing fuel t board rot x = Some q → isValidMove q board = false) ∧
    (∀ p, r = Some p →
       pl_rotation p < 4 ∧ (-3 ≤ pl_x p < Z.of_nat BOARD_WIDTH + 3)%Z ∧
       (∃ q, landing fuel t board (pl_rotation p) (pl_x p) = Some q ∧
             isValidMove q board = true ∧
             pl_score p = compositeScore board q ∧
             pl_linesCleared p = snd (clearLines (addPieceToBoard board q))) ∧
       (∀ rot x q, rot < 4 → (-3 ≤ x < Z.of_nat BOARD_WIDTH + 3)%Z →
                   landing fuel t board rot x = Some q → isValidMove q board = true →
                   flt (compositeScore board q) (pl_score p) = false))) ∧
  (∃ r k', findBestPlacement_byHoles fuel rnd k t board = Some (r, k') ∧
    (r = None ↔
     ∀ rot x, rot < 4 → (-3 ≤ x < Z.of_nat BOARD_WIDTH + 3)%Z →
              simulatePlacement fuel t board x rot = Some None) ∧
    (∀ p, r = Some p →
       hp_rotation p < 4 ∧ (-3 ≤ hp_x p < Z.of_nat BOARD_WIDTH + 3)%Z ∧
       (∃ resultBoard,
          simulatePlacement fuel t board (hp_x p) (hp_rotation p)
          = Some (Some resultBoard) ∧
          hp_holes p = countHoles resultBoard) ∧
       (∀ rot x resultBoard, rot < 4 → (-3 ≤ x < Z.of_nat BOARD_WIDTH + 3)%Z →
          simulatePlacement fuel t board x rot = Some (Some resultBoard) →
          hp_holes p ≤ countHoles resultBoard))).
Proof.
  intros Hsq Hb Hfuel. split; [done|]. split.
  - by apply findBestPlacement_search.
  - destruct (findBestPlacement_byHoles_search fuel rnd k t board Hsq Hb Hfuel)
      as (r & k' & Hr & _ & Hnone & Hsome).
    by exists r, k'.
Qed.

Lemma selectBest_fold fuel board d ts seen bestPiece bestScore bestPiece' bestScore' :
  selection_invariant fuel board d seen bestPiece bestScore →
  foldl (fun acc pieceType =>
    acc ≫= fun '(bestPiece, bestScore) =>
    findBestPlacement fuel pieceType board ≫= fun placement =>
    match placement with
    | Some pl =>
        if flt (pl_score pl) bestScore
        then Some (pieceType, pl_score pl)
        else Some (bestPiece, bestScore)
    | None => Some (bestPiece, bestScore)
    end)
    (Some (bestPiece, bestScore)) ts = Some (bestPiece', bestScore') →
  selection_invariant fuel board d (fun t => seen t ∨ t ∈ ts) bestPiece' bestScore'.
Proof.
  revert seen bestPiece bestScore.
  induction ts as [|t ts IH]; intros seen bestPiece bestScore Hinv Hfold.
  - simpl in Hfold. simplify_eq. destruct Hinv as [Hmin Hbest]. split.
    + intros t p' [Ht|Ht]; [by apply Hmin|by apply elem_of_nil in Ht].
    + destruct Hbest as [Hd|(p & Hs & Hp & Hb)]; [by left|right].
      exists p. split; [by left|done].
  - cbn [foldl] in Hfold. cbn [mbind option_bind] in Hfold.
    assert (Hiff : ∀ t', (seen t' ∨ t' = t) ∨ t' ∈ ts ↔ seen t' ∨ t' ∈ t :: ts).
    { intros t'. rewrite elem_of_cons. tauto. }
    assert (Hgo : ∀ bp bs, selection_invariant fuel board d (fun t' => seen t' ∨ t' = t) bp bs →
              foldl (fun acc pieceType =>
                acc ≫= fun '(bestPiece, bestScore) =>
                findBestPlacement fuel pieceType board ≫= fun placement =>
                match placement with
                | Some pl =>
                    if flt (pl_score pl) bestScore
                    then Some (pieceType, pl_score pl)
                    else Some (bestPiece, bestScore)
                | None => Some (bestPiece, bestScore)
                end) (Some (bp, bs)) ts = Some (bestPiece', bestScore') →
              selection_invariant fuel board d (fun t' => seen t' ∨ t' ∈ t :: ts)
                                  bestPiece' bestScore').
    { intros bp bs Hinv1 Hfold1. specialize (IH _ _ _ Hinv1 Hfold1).
      destruct IH as [Hmin Hbest]. split.
      - intros t' p' Ht'. apply Hmin. by apply Hiff.
      - destruct Hbest as [Hd|(p & Hs & Hp & Hb)]; [by left|right].
        exists p. split; [by apply Hiff|done]. }
    destruct Hinv as [Hmin Hbest].
    destruct (findBestPlacement fuel t board) as [[pl|]|] eqn:Hfind; simpl in Hfold.
    + destruct (flt (pl_score pl) bestScore) eqn:Hlt.
      * apply (Hgo _ _) in Hfold; [done|]. split.
        -- intros t' p' [Ht' | ->] Hf'.
           ++ apply (flt_not_below _ bestScore); [done|by eapply Hmin].
           ++ simplify_eq. apply flt_irrefl.
        -- right. exists pl. split; [by right|done].
      * apply (Hgo _ _) in Hfold; [done|]. split.
        -- intros t' p' [Ht' | ->] Hf'; [by eapply Hmin|]. by simplify_eq.
        -- destruct Hbest as [Hd|(p & Hs & Hp & Hb)]; [by left|right].
           exists p. split; [by left|done].
    + apply (Hgo _ _) in Hfold; [done|]. split.
      * intros t' p' [Ht' | ->] Hf'; [by eapply Hmin|]. by simplify_eq.
      * destruct Hbest as [Hd|(p & Hs & Hp & Hb)]; [by left|right].
        exists p. split; [by left|done].
    + rewrite foldl_option_none in Hfold; done.
Qed.

(** X11: with enough fuel for the descents, the selection loop answers a
    kind. Either that kind has a best placement whose composite score the
    best placement of no kind is below, or the loop answers the kind it
    started from and the best placement of no kind scores below
    [Infinity]; it answers the kind it started from, in particular, when no
    kind has a placement. *)
Theorem selectBest_lowest (fuel : nat) (board : Board) (d : TetrominoType) :
  (∀ t, square (TETROMINO_SHAPES t) ∧ has_block (TETROMINO_SHAPES t)) →
  BOARD_HEIGHT < fuel →
  ∃ chosen, selectBest fuel board d = Some chosen ∧
    ((∀ t, findBestPlacement fuel t board = Some None) → chosen = d) ∧
    ((chosen = d ∧
      ∀ t p', findBestPlacement fuel t board = Some (Some p') →
              flt (pl_score p') Infinity = false) ∨
     (∃ p, findBestPlacement fuel chosen board = Some (Some p) ∧
           ∀ t p', findBestPlacement fuel t board = Some (Some p') →
                   flt (pl_score p') (pl_score p) = false)).
Proof.
  intros Hshapes Hfuel.
  assert (Hfind : ∀ t, is_Some (findBestPlacement fuel t board)).
  { intros t. destruct (Hshapes t). by apply findBestPlacement_total. }
  destruct (selectBest_total fuel board d Hfind) as [chosen Hsel].
  exists chosen. split; [exact Hsel|].
  unfold selectBest in Hsel. apply fmap_Some in Hsel.
  destruct Hsel as ([bestPiece bestScore] & Hfold & ->).
  destruct (selectBest_fold fuel board d pieceTypes (fun _ => False) d Infinity
              bestPiece bestScore) as [Hmin Hbest].
  - split; [by intros ? ? []|by left].
  - exact Hfold.
  - simpl. destruct Hbest as [[-> ->]|(p & _ & Hp & ->)].
    + split; [done|]. left. split; [done|].
      intros t p'. apply Hmin. right. apply all_kinds.
    + split.
      * intros Hnull. rewrite Hnull in Hp. discriminate Hp.
      * right. exists p. split; [done|]. intros t p'. apply Hmin. right. apply all_kinds.
Qed.


(** ** More on the bag *)

(** X12: in fair-bag mode [getNextPiece] always delivers a kind, never
    [undefined], whatever the bag holds: the head of the bag, or of a fresh
    bag when it is empty; what it appends is nothing or one whole bag, and
    with a preview of at most six kinds the bag left behind is long enough
    to fill the preview and leave one kind to draw. *)
Theorem getNextPiece_bag_defined (fuel : nat) (rnd : nat → Q)
    (st : list TetrominoType * nat) (board : Board) :
  (∀ n, unit_interval (rnd n)) →
  ∃ t st',
    getNextPiece false fuel rnd st board = Some (Some t, st') ∧
    (fst st ≠ [] → head (fst st) = Some t) ∧
    (fst st = [] → head (fst (generateBag rnd (snd st))) = Some t) ∧
    (PREVIEW_PIECES ≤ 6 → PREVIEW_PIECES + 1 ≤ length (fst st')) ∧
    (∃ used more, (fst st = [] → used ≡ₚ TETROMINO_TYPES) ∧ (fst st ≠ [] → used = fst st) ∧
                  fst st' = tail used ++ more ∧ (more = [] ∨ more ≡ₚ TETROMINO_TYPES)).
Proof.
  intros Hrnd. destruct st as [bag k]. unfold getNextPiece. cbn [fst snd].
  set (st1 := if Nat.eqb (length bag) 0 then refill rnd (bag, k) else (bag, k)).
  assert (Hst1 : ∃ t rest, fst st1 = t :: rest ∧
                 (bag ≠ [] → fst st1 = bag) ∧
                 (bag = [] → fst st1 = fst (generateBag rnd k) ∧
                             fst st1 ≡ₚ TETROMINO_TYPES)).
  { unfold st1. destruct bag as [|t rest]; cbn [length Nat.eqb].
    - destruct (generateBag_perm rnd k Hrnd) as [Hp _]. unfold refill.
      destruct (generateBag rnd k) as [fresh k']. cbn [fst snd app] in *.
      destruct fresh as [|t rest]; [by apply Permutation_nil_cons in Hp|].
      exists t, rest. done.
    - exists t, rest. done. }
  destruct Hst1 as (t & rest & Hbag1 & Hfull & Hempty).
  destruct st1 as [bag1 k1]. cbn [fst snd] in *. subst bag1. cbn [head tail].
  set (st3 := if length rest <? PREVIEW_PIECES + 1 then refill rnd (rest, k1) else (rest, k1)).
  exists t, st3. split; [done|].
  split; [intros Hne; by rewrite <- (Hfull Hne)|].
  split; [intros He; by destruct (Hempty He) as [<- _]|].
  assert (Hst3 : ∃ more, fst st3 = rest ++ more ∧ (more = [] ∨ more ≡ₚ TETROMINO_TYPES) ∧
                         (PREVIEW_PIECES ≤ 6 → PREVIEW_PIECES + 1 ≤ length (fst st3))).
  { unfold st3. destruct (Nat.ltb_spec (length rest) (PREVIEW_PIECES + 1)) as [Hlt|Hge].
    - destruct (refill_spec rnd rest k1 Hrnd) as (fresh & -> & Hfresh). simpl.
      exists fresh. split; [done|]. split; [by right|].
      intros HP. rewrite length_app, Hfresh. simpl. lia.
    - exists []. simpl. rewrite app_nil_r. split; [done|]. split; [by left|]. lia. }
  destruct Hst3 as (more & Hfst & Hmore & Hlen). split; [done|].
  exists (t :: rest), more. split; [|split; [|done]].
  - intros He. by destruct (Hempty He) as [_ Hp].
  - intros Hne. by apply Hfull.
Qed.


(** ** Locking a piece *)

Lemma addPieceToBoard_cells board piece :
  wf_board board →
  (∀ y x, occupied (getRotatedShape piece) y x →
     (0 ≤ pos_y (position piece) + Z.of_nat y < Z.of_nat BOARD_HEIGHT)%Z →
     (0 ≤ pos_x (position piece) + Z.of_nat x < Z.of_nat BOARD_WIDTH)%Z) →
  wf_board (addPieceToBoard board piece) ∧
  ∀ r c, r < BOARD_HEIGHT → c < BOARD_WIDTH →
    (covered piece r c → getCell (addPieceToBoard board piece) r c = Block (type piece)) ∧
    (¬ covered piece r c →
       getCell (addPieceToBoard board piece) r c = getCell board r c).
Proof.
  intros Hwf Hcols. unfold addPieceToBoard. rewrite placeCells_flat.
  set (step := fun (st' : Board) '(y, x) => placeCell writeBoard piece st' y x).
  assert (Hstep : ∀ s a, a ∈ cellsOf (getRotatedShape piece) → wf_board s →
                         wf_board (step s a)).
  { intros s [y x] Ha Hs. by apply placeCell_step. }
  split; [by apply (foldl_invariant wf_board)|].
  intros r c Hr Hc. split.
  - intros (y & x & Hocc & HY & HX).
    apply (foldl_establish wf_board (fun s => getCell s r c = Block (type piece))
             step _ _ (y, x)); try done.
    + apply elem_of_cellsOf. by apply occupied_iff in Hocc as (? & ? & _).
    + intros s Hs. simpl.
      destruct (placeCell_step piece s y x Hs Hcols) as [_ Hget].
      { apply elem_of_cellsOf. by apply occupied_iff in Hocc as (? & ? & _). }
      rewrite Hget, decide_True; [done|].
      apply occupied_iff in Hocc as (_ & _ & Ht). done.
    + intros s [y' x'] Hin Hs HJ. simpl.
      destruct (placeCell_step piece s y' x' Hs Hcols Hin) as [_ Hget].
      rewrite Hget. destruct (decide _); [done|exact HJ].
  - intros Hno.
    apply (foldl_invariant
             (fun s => wf_board s ∧ getCell s r c = getCell board r c) step);
      [|done].
    intros s [y x] Hin [Hs Heq]. simpl.
    destruct (placeCell_step piece s y x Hs Hcols Hin) as [Hwf' Hget].
    split; [done|]. rewrite Hget, decide_False; [done|].
    intros (Ht & HY & HX & _). apply Hno. exists y, x. split; [|done].
    apply occupied_iff. apply elem_of_cellsOf in Hin. tauto.
Qed.

Lemma classic_covered piece r c : covered piece r c ∨ ¬ covered piece r c.
Proof.
  destruct (decide (Exists (fun p => truthyNum (getNum (getRotatedShape piece) p.1 p.2) = true ∧
                                     (pos_y (position piece) + Z.of_nat p.1)%Z = Z.of_nat r ∧
                                     (pos_x (position piece) + Z.of_nat p.2)%Z = Z.of_nat c)
                           (cellsOf (getRotatedShape piece)))) as [Hex|Hno].
  - left. apply Exists_exists in Hex. destruct Hex as ([y x] & Hin & Ht & HY & HX).
    exists y, x. split; [|done]. apply occupied_iff. apply elem_of_cellsOf in Hin. tauto.
  - right. intros (y & x & Hocc & HY & HX). apply Hno. apply Exists_exists.
    exists (y, x). apply occupied_iff in Hocc. split; [apply elem_of_cellsOf; tauto|].
    simpl. tauto.
Qed.

(** X13: locking a valid placement keeps the board well-formed and every
    filled cell filled; the placement just locked is no longer valid unless
    the whole piece is above the top row, and every placement that is valid
    on the new board was valid on the old one. *)
Theorem lock_blocks_placement (board : Board) (piece : Tetromino) :
  wf_board board → isValidMove piece board = true →
  wf_board (addPieceToBoard board piece) ∧
  (∀ r c, r < BOARD_HEIGHT → c < BOARD_WIDTH → getCell board r c ≠ Null →
          getCell (addPieceToBoard board piece) r c = getCell board r c) ∧
  ((∃ y x, occupied (getRotatedShape piece) y x ∧
           (0 ≤ pos_y (position piece) + Z.of_nat y)%Z) →
   isValidMove piece (addPieceToBoard board piece) = false) ∧
  (∀ q, isValidMove q (addPieceToBoard board piece) = true → isValidMove q board = true).
Proof.
  intros Hwf Hvalid.
  pose proof (valid_placement_columns piece board Hwf Hvalid) as Hcols.
  destruct (addPieceToBoard_cells board piece Hwf Hcols) as [Hwf' Hcells].
  assert (Hocc : ∀ y x, occupied (getRotatedShape piece) y x →
            (0 ≤ pos_x (position piece) + Z.of_nat x < Z.of_nat BOARD_WIDTH)%Z ∧
            (pos_y (position piece) + Z.of_nat y < Z.of_nat BOARD_HEIGHT)%Z ∧
            ((0 ≤ pos_y (position piece) + Z.of_nat y)%Z →
             getCell board (Z.to_nat (pos_y (position piece) + Z.of_nat y))
                     (Z.to_nat (pos_x (position piece) + Z.of_nat x)) = Null)).
  { intros y x Ho.
    pose proof (proj1 (isValidMove_cells piece board) Hvalid y x Ho) as Hc.
    by apply (collides_false piece board y x Hwf) in Hc. }
  split; [done|]. split; [|split].
  - intros r c Hr Hc Hfilled. apply Hcells; [done|done|].
    intros (y & x & Ho & HY & HX). destruct (Hocc y x Ho) as (_ & _ & Hnull).
    apply Hfilled. rewrite HY, HX in Hnull.
    rewrite !Nat2Z.id in Hnull. apply Hnull. lia.
  - intros (y & x & Ho & Hy0). apply not_true_is_false. intros Hv.
    pose proof (proj1 (isValidMove_cells piece _) Hv y x Ho) as Hc.
    apply (collides_false piece _ y x Hwf') in Hc. destruct Hc as (Hx & Hy & Hnull).
    specialize (Hnull Hy0).
    destruct (Hcells (Z.to_nat (pos_y (position piece) + Z.of_nat y))
                     (Z.to_nat (pos_x (position piece) + Z.of_nat x))) as [Hcov _];
      [lia|lia|].
    rewrite Hcov in Hnull; [done|]. exists y, x. split; [done|]. lia.
  - intros q Hq. apply isValidMove_cells. intros y x Ho.
    pose proof (proj1 (isValidMove_cells q _) Hq y x Ho) as Hc.
    apply (collides_false q _ y x Hwf') in Hc. destruct Hc as (Hx & Hy & Hnull).
    apply (collides_false q board y x Hwf). split; [done|]. split; [done|].
    intros Hy0. specialize (Hnull Hy0).
    destruct (Hcells (Z.to_nat (pos_y (position q) + Z.of_nat y))
                     (Z.to_nat (pos_x (position q) + Z.of_nat x))) as [Hcov Hsame];
      [lia|lia|].
    destruct (classic_covered piece (Z.to_nat (pos_y (position q) + Z.of_nat y))
                (Z.to_nat (pos_x (position q) + Z.of_nat x))) as [Hc|Hc].
    + rewrite (Hcov Hc) in Hnull. done.
    + by rewrite <- (Hsame Hc).
Qed.


(** X14: what [simulatePlacement] returns for a well-formed board at least
    one column wide is, when it is a board, the board left by locking the
    landed piece and clearing: well-formed and without a full row; it is
    [null] exactly when the landing is not a valid placement. *)
Theorem simulatePlacement_settled (fuel : nat) (t : TetrominoType) (board : Board)
    (x : Z) (rot : nat) (q : Tetromino) :
  wf_board board → 0 < BOARD_WIDTH →
  landing fuel t board rot x = Some q →
  (isValidMove q board = false ∧ simulatePlacement fuel t board x rot = Some None) ∨
  (isValidMove q board = true ∧
   simulatePlacement fuel t board x rot
   = Some (Some (fst (clearLines (addPieceToBoard board q)))) ∧
   wf_board (fst (clearLines (addPieceToBoard board q))) ∧
   Forall (fun row => forallb notNull row = false)
          (fst (clearLines (addPieceToBoard board q)))).
Proof.
  intros Hwf HW Hland. unfold landing in Hland. unfold simulatePlacement.
  rewrite Hland. destruct (isValidMove q board) eqn:Hv; simpl; [right|by left].
  split; [done|]. split; [done|].
  pose proof (valid_placement_columns q board Hwf Hv) as Hcols.
  destruct (addPieceToBoard_cells board q Hwf Hcols) as [Hwf' _].
  destruct (clearLines_clean (addPieceToBoard board q) HW) as (Hclean & _ & Hkeep).
  split; [by apply Hkeep|done].
Qed.


(** ** The game session *)

Lemma clearLines_wf board : wf_board board → wf_board (fst (clearLines board)).
Proof.
  intros [Hlen Hrows]. split.
  - destruct (clearLines_length board) as [Heq _]. congruence.
  - rewrite clearLines_rows. simpl. apply Forall_app. split.
    + apply Forall_replicate. split; [by rewrite length_replicate|].
      by apply Forall_replicate.
    + apply Forall_forall. intros row Hrow. apply list_elem_of_filter in Hrow.
      destruct Hrow as [_ Hin]. by eapply Forall_forall in Hrows.
Qed.

Lemma selectOptimalPiece_defined fuel rnd k board :
  (∀ t, square (TETROMINO_SHAPES t) ∧ has_block (TETROMINO_SHAPES t)) →
  (∀ n, unit_interval (rnd n)) → BOARD_HEIGHT < fuel →
  ∃ t k', selectOptimalPiece fuel rnd k board = Some (Some t, k').
Proof.
  intros Hshapes Hrnd Hfuel.
  assert (Hfind : ∀ t, is_Some (findBestPlacement fuel t board)).
  { intros t. destruct (Hshapes t). by apply findBestPlacement_total. }
  unfold selectOptimalPiece.
  destruct (isBoardMostlyEmpty board).
  { destruct (randomKind_defined rnd k (Hrnd k)) as [t ->]. by exists t, (S k). }
  destruct (if hasNearCompleteLine board then (false, k) else (Qltb (rnd k) 0.6, S k))
    as [chance k1].
  destruct chance.
  { destruct (randomKind_defined rnd k1 (Hrnd k1)) as [t ->]. by exists t, (S k1). }
  destruct (Qltb (rnd k1) 0.2).
  { destruct (randomKind_defined rnd (S k1) (Hrnd (S k1))) as [t ->].
    by exists t, (S (S k1)). }
  destruct (selectBest_total fuel board TT Hfind) as [t ->]. by exists t, (S k1).
Qed.

Lemma getNextPiece_defined mode fuel rnd st board :
  (∀ t, square (TETROMINO_SHAPES t) ∧ has_block (TETROMINO_SHAPES t)) →
  (∀ n, unit_interval (rnd n)) → BOARD_HEIGHT < fuel →
  ∃ t st', getNextPiece mode fuel rnd st board = Some (Some t, st').
Proof.
  intros Hshapes Hrnd Hfuel. destruct mode.
  - unfold getNextPiece.
    destruct (selectOptimalPiece_defined fuel rnd (snd st) board Hshapes Hrnd Hfuel)
      as (t & k' & ->).
    by exists t, (fst st, k').
  - destruct st as [bag k]. destruct bag as [|t0 bag].
    + rewrite getNextPiece_empty by done.
      destruct (generateBag_perm rnd k Hrnd) as [Hp _].
      destruct (generateBag rnd k) as [fresh k']. cbn [fst] in Hp.
      destruct fresh as [|t fresh]; [by apply Permutation_nil_cons in Hp|].
      destruct (getNextPiece_bag fuel rnd board t fresh [] k' Hrnd) as (bags' & k'' & Hn & _);
        [constructor|].
      cbn [concat] in Hn. rewrite app_nil_r in Hn. rewrite Hn. eauto.
    + destruct (getNextPiece_bag fuel rnd board t0 bag [] k Hrnd) as (bags' & k'' & Hn & _);
        [constructor|].
      cbn [concat] in Hn. rewrite app_nil_r in Hn. rewrite Hn. eauto.
Qed.

Lemma nextPiece_defined mode fuel rnd g board :
  (∀ t, square (TETROMINO_SHAPES t) ∧ has_block (TETROMINO_SHAPES t)) →
  (∀ n, unit_interval (rnd n)) → BOARD_HEIGHT < fuel →
  ∃ t g', nextPiece mode fuel rnd g board = Some (Some t, g') ∧
          g_board g' = g_board g ∧ g_currentPiece g' = g_currentPiece g ∧
          g_heldPiece g' = g_heldPiece g ∧ g_canHold g' = g_canHold g ∧
          g_ghostPiece g' = g_ghostPiece g ∧ g_score g' = g_score g ∧
          g_level g' = g_level g ∧ g_lines g' = g_lines g ∧
          g_highScore g' = g_highScore g ∧ g_gameState g' = g_gameState g ∧
          g_dropSpeed g' = g_dropSpeed g ∧
          g_perfectPieceMode g' = g_perfectPieceMode g.
Proof.
  intros Hshapes Hrnd Hfuel. unfold nextPiece.
  destruct (getNextPiece_defined mode fuel rnd (g_bag g, g_draws g) board Hshapes Hrnd Hfuel)
    as (t & [bag k] & ->).
  simpl. eexists _, _. split; [done|]. simpl. repeat split.
Qed.

Lemma spawn_valid t :
  square (TETROMINO_SHAPES t) → 0 < length (TETROMINO_SHAPES t) →
  length (TETROMINO_SHAPES t) ≤ BOARD_WIDTH → length (TETROMINO_SHAPES t) ≤ BOARD_HEIGHT →
  isValidMove (generateNewPiece t) createEmptyBoard = true.
Proof.
  intros Hsq Hpos HW HH.
  assert (Hrow : length (default [] (TETROMINO_SHAPES t !! 0))
                 = length (TETROMINO_SHAPES t)).
  { destruct (lookup_lt_is_Some_2 (TETROMINO_SHAPES t) 0 Hpos) as [row Hrow].
    rewrite Hrow. simpl. by eapply Forall_lookup_1 in Hsq. }
  set (N := Z.of_nat (length (TETROMINO_SHAPES t))).
  assert (Hleft : pos_x (position (generateNewPiece t)) = ((Z.of_nat BOARD_WIDTH - N) / 2)%Z).
  { unfold generateNewPiece, N. simpl. by rewrite Hrow. }
  assert (Hdiv : (0 ≤ (Z.of_nat BOARD_WIDTH - N)
                      - 2 * ((Z.of_nat BOARD_WIDTH - N) / 2) ≤ 1)%Z).
  { pose proof (Z.mod_pos_bound (Z.of_nat BOARD_WIDTH - N) 2) as Hm.
    rewrite Z.mod_eq in Hm by lia. lia. }
  assert (Hleft0 : (0 ≤ (Z.of_nat BOARD_WIDTH - N) / 2)%Z) by (apply Z.div_pos; unfold N; lia).
  apply isValidMove_cells. intros y x Hocc.
  apply (collides_false _ createEmptyBoard y x wf_createEmptyBoard).
  change (getRotatedShape (generateNewPiece t)) with (TETROMINO_SHAPES t) in Hocc.
  apply (occupied_dims (length (TETROMINO_SHAPES t))) in Hocc; [|by apply square_dims].
  destruct Hocc as (Hy & Hx & _). cbv zeta. rewrite Hleft.
  change (pos_y (position (generateNewPiece t))) with 0%Z.
  split; [unfold N in *; lia|]. split; [lia|].
  intros _. apply getCell_createEmptyBoard; unfold N in *; lia.
Qed.


Lemma creditLines_fields linesCleared pend level :
  let g1 := if 0 <? linesCleared then creditLines linesCleared level pend else pend in
  g_level pend = level → level = calculateLevel (g_lines pend) →
  g_dropSpeed pend = calculateSpeed level →
  g_level g1 = calculateLevel (g_lines g1) ∧
  g_dropSpeed g1 = calculateSpeed (g_level g1) ∧
  g_lines g1 = g_lines pend + linesCleared ∧
  g_score g1 = g_score pend + calculateScore linesCleared level ∧
  g_board g1 = g_board pend ∧ g_currentPiece g1 = g_currentPiece pend ∧
  g_bag g1 = g_bag pend ∧ g_heldPiece g1 = g_heldPiece pend ∧
  g_canHold g1 = g_canHold pend ∧ g_highScore g1 = g_highScore pend ∧
  g_gameState g1 = g_gameState pend ∧
  g_perfectPieceMode g1 = g_perfectPieceMode pend ∧ g_draws g1 = g_draws pend.
Proof.
  intros g1 Hlevel Hlines Hspeed. unfold g1.
  destruct linesCleared as [|n]; simpl.
  - rewrite Nat.add_0_r. unfold calculateScore. simpl. rewrite Nat.add_0_r.
    rewrite Hlevel. repeat split; try done; by rewrite Hspeed.
  - destruct (Nat.eqb_spec (calculateLevel (g_lines pend + S n)) level) as [He|Hne].
    + repeat split; try done; try congruence.
    + repeat split; try done.
Qed.

Lemma piece_fuel piece fuel (dy : Z) :
  (0 ≤ dy)%Z →
  Z.to_nat (Z.of_nat BOARD_HEIGHT - pos_y (position piece)) < fuel →
  Z.to_nat (Z.of_nat BOARD_HEIGHT - (pos_y (position piece) + dy)) < fuel.
Proof. lia. Qed.

Lemma movePiece_from_idle g fuel rnd dx dy pend :
  g_currentPiece g = None ∨ g_gameState g ≠ PLAYING →
  movePiece_from g fuel rnd dx dy pend = Some (false, pend).
Proof.
  intros Hidle. unfold movePiece_from.
  destruct (g_currentPiece g); [|done].
  destruct (g_gameState g); try done. by destruct Hidle.
Qed.

(** X15: from a session that satisfies the invariant, with a shape table
    that fits the board and draws in [0, 1), [movePiece] with a non-negative
    [dy] returns and leaves a session that satisfies the invariant; the
    score and the line count never go down, the held kind and the mode flag
    stay as they are, the game state stays or becomes GAME_OVER, and a move
    that succeeds changes neither the board, the score, the lines nor the
    bag. *)
Theorem movePiece_keeps_game_ok (fuel : nat) (rnd : nat → Q) (dx dy : Z) (g : Game) :
  game_ok g → shapes_fit → (∀ n, unit_interval (rnd n)) → (0 ≤ dy)%Z →
  BOARD_HEIGHT < fuel →
  (∀ p, g_currentPiece g = Some p →
        Z.to_nat (Z.of_nat BOARD_HEIGHT - pos_y (position p)) < fuel) →
  ∃ moved g',
    movePiece fuel rnd dx dy g = Some (moved, g') ∧ game_ok g' ∧
    g_score g ≤ g_score g' ∧ g_lines g ≤ g_lines g' ∧
    g_heldPiece g' = g_heldPiece g ∧
    g_perfectPieceMode g' = g_perfectPieceMode g ∧
    (g_gameState g' = g_gameState g ∨ g_gameState g' = GAME_OVER) ∧
    (moved = true → g_board g' = g_board g ∧ g_score g' = g_score g ∧
                    g_lines g' = g_lines g ∧ g_bag g' = g_bag g).
Proof.
  intros Hok Hshapes Hrnd Hdy Hfuel Hpfuel.
  assert (Hsame : game_ok g ∧ g_score g ≤ g_score g ∧ g_lines g ≤ g_lines g ∧
                  g_heldPiece g = g_heldPiece g ∧
                  g_perfectPieceMode g = g_perfectPieceMode g ∧
                  (g_gameState g = g_gameState g ∨ g_gameState g = GAME_OVER) ∧
                  (false = true → g_board g = g_board g ∧ g_score g = g_score g ∧
                                  g_lines g = g_lines g ∧ g_bag g = g_bag g)).
  { split; [done|]. split; [lia|]. split; [lia|]. split; [done|]. split; [done|].
    split; [by left|done]. }
  destruct Hok as (Hwf & Hlevel & Hspeed & Hpiece).
  assert (Hshapes' : ∀ t, square (TETROMINO_SHAPES t) ∧ has_block (TETROMINO_SHAPES t)).
  { intros t. destruct (Hshapes t) as (? & ? & _). done. }
  unfold movePiece.
  destruct (g_currentPiece g) as [p|] eqn:Hcur;
    [|exists false, g; split; [|exact Hsame];
      apply movePiece_from_idle; by left].
  destruct (decide (g_gameState g = PLAYING)) as [Hstate|Hstate];
    [|exists false, g; split; [|exact Hsame];
      apply movePiece_from_idle; by right].
  destruct (Hpiece p eq_refl) as [Hshape Hvalid].
  specialize (Hvalid Hstate).
  unfold movePiece_from. rewrite Hcur, Hstate.
  assert (Hblock : ∀ pos r, has_block (getRotatedShape (mkTetromino (type p) (shape p) pos r))).
  { intros pos r. unfold getRotatedShape. simpl. rewrite Hshape.
    destruct (Hshapes' (type p)). by apply has_block_iter. }
  cbv zeta.
  set (moved := mkTetromino (type p) (shape p)
                  (mkPosition (pos_x (position p) + dx)%Z (pos_y (position p) + dy)%Z)
                  (rotation p)).
  destruct (isValidMove moved (g_board g)) eqn:Hmv.
  - destruct (descend_terminates (g_board g) fuel moved) as [ghost Hghost].
    + apply Hblock.
    + simpl. apply piece_fuel; [done|]. by apply Hpfuel.
    + unfold getGhostPiecePosition. rewrite Hghost. simpl.
      eexists _, _. split; [done|]. unfold game_ok. simpl.
      split; [|split; [lia|split; [lia|split; [done|split; [done|split; [by left|done]]]]]].
      split; [done|]. split; [done|]. split; [done|].
      intros q Hq. simplify_eq. simpl. split; [done|]. intros _. exact Hmv.
  - destruct (Z.gtb_spec dy 0) as [Hpos|Hnpos].
    2:{ exists false, g. split; [done|]. rewrite <- Hstate. exact Hsame. }
    pose proof (valid_placement_columns p (g_board g) Hwf Hvalid) as Hcols.
    destruct (addPieceToBoard_cells (g_board g) p Hwf Hcols) as [Hwf1 _].
    pose proof (clearLines_wf _ Hwf1) as Hwf2.
    destruct (clearLines (addPieceToBoard (g_board g) p)) as [clearedBoard linesCleared].
    simpl in Hwf2.
    destruct (creditLines_fields linesCleared g (g_level g) eq_refl Hlevel Hspeed)
      as (Hl1 & Hs1 & Hlines1 & Hscore1 & Hb1 & Hc1 & Hbag1 & Hh1 & Hch1 & Hhs1 & Hst1 & Hm1 & Hd1).
    cbv zeta in *.
    set (g1 := if 0 <? linesCleared then creditLines linesCleared (g_level g) g else g) in *.
    set (g2 := mkGame clearedBoard (g_currentPiece g1) (g_nextPieces g1) (g_bag g1)
                      (g_heldPiece g1) (g_canHold g1) (g_ghostPiece g1) (g_score g1)
                      (g_level g1) (g_lines g1) (g_highScore g1) (g_gameState g1)
                      (g_dropSpeed g1) (g_perfectPieceMode g1) (g_draws g1)).
    destruct (nextPiece_defined (g_perfectPieceMode g) fuel rnd g2 clearedBoard
                Hshapes' Hrnd Hfuel)
      as (t & g3 & -> & Hb3 & Hc3 & Hh3 & Hch3 & Hgh3 & Hsc3 & Hl3 & Hli3 & Hhs3 & Hst3 & Hds3 & Hm3).
    simpl in Hb3, Hc3, Hh3, Hch3, Hgh3, Hsc3, Hl3, Hli3, Hhs3, Hst3, Hds3, Hm3.
    cbn [mbind option_bind generateNewPiece_of fmap option_fmap option_map].
    destruct (isValidMove (generateNewPiece t) clearedBoard) eqn:Hnew; cbn [negb].
    + destruct (descend_terminates (g_board g) fuel (generateNewPiece t)) as [ghost Hghost].
      * unfold getRotatedShape. simpl. apply Hshapes'.
      * simpl. lia.
      * unfold getGhostPiecePosition. rewrite Hghost. simpl.
        eexists _, _. split; [done|]. unfold game_ok. simpl.
        split; [split; [by rewrite Hb3|split; [by rewrite Hl3, Hli3|
                split; [by rewrite Hds3, Hl3|]]]|].
        -- intros q Hq. injection Hq as <-. split; [done|]. intros _. by rewrite Hb3.
        -- split; [rewrite Hsc3, Hscore1; lia|]. split; [rewrite Hli3, Hlines1; lia|].
           split; [by rewrite Hh3|]. split; [by rewrite Hm3|].
           split; [left; by rewrite Hst3, Hst1|done].
    + eexists _, _. split; [done|]. unfold game_ok. simpl.
      split; [split; [by rewrite Hb3|split; [by rewrite Hl3, Hli3|
              split; [by rewrite Hds3, Hl3|]]]|].
      * intros q Hq. rewrite Hc3, Hc1, Hcur in Hq. injection Hq as <-. done.
      * split; [rewrite Hsc3, Hscore1; lia|]. split; [rewrite Hli3, Hlines1; lia|].
        split; [by rewrite Hh3|]. split; [by rewrite Hm3|].
        split; [by right|done].
Qed.


Lemma nextPiece_fields mode fuel rnd g board t g' :
  nextPiece mode fuel rnd g board = Some (t, g') →
  g_board g' = g_board g ∧ g_currentPiece g' = g_currentPiece g ∧
  g_heldPiece g' = g_heldPiece g ∧ g_canHold g' = g_canHold g ∧
  g_ghostPiece g' = g_ghostPiece g ∧ g_score g' = g_score g ∧
  g_level g' = g_level g ∧ g_lines g' = g_lines g ∧
  g_highScore g' = g_highScore g ∧ g_gameState g' = g_gameState g ∧
  g_dropSpeed g' = g_dropSpeed g ∧ g_perfectPieceMode g' = g_perfectPieceMode g.
Proof.
  unfold nextPiece. intros Hn. apply fmap_Some in Hn.
  destruct Hn as ([t0 [bag k]] & _ & Heq). injection Heq as -> ->. simpl.
  repeat split.
Qed.

Lemma generateNewPiece_of_spawn rnd k type piece k' :
  generateNewPiece_of rnd k type = Some (piece, k') →
  ∃ t, piece = generateNewPiece t.
Proof.
  unfold generateNewPiece_of. intros Hg.
  destruct (match type with Some t => (Some t, k) | None => randomKind rnd k end)
    as [[t|] k0]; [|done].
  simpl in Hg. injection Hg as <- <-. by exists t.
Qed.

(** X16: with shapes that have a block, draws in [0, 1) and enough fuel
    for a descent from the top row, [movePiece] returns when the piece
    cannot move down, reports no move and locks the piece: the board
    becomes the merged board with its full rows cleared, the line count and
    the score grow by the cleared lines and their points at the level of the
    render.  Either the game ends, the high score being raised to the score
    held before this lock, or a fresh piece that is valid on the new board
    spawns, with the hold released and a ghost projected on the board as it
    was before the lock. *)
Theorem movePiece_locks (fuel : nat) (rnd : nat → Q) (dx dy : Z) (g : Game)
    (p : Tetromino) :
  (∀ t, square (TETROMINO_SHAPES t) ∧ has_block (TETROMINO_SHAPES t)) →
  (∀ n, unit_interval (rnd n)) → BOARD_HEIGHT < fuel →
  g_currentPiece g = Some p → g_gameState g = PLAYING → (0 < dy)%Z →
  isValidMove (mkTetromino (type p) (shape p)
                 (mkPosition (pos_x (position p) + dx)%Z (pos_y (position p) + dy)%Z)
                 (rotation p)) (g_board g) = false →
  let result := clearLines (addPieceToBoard (g_board g) p) in
  ∃ g', movePiece fuel rnd dx dy g = Some (false, g') ∧
  g_board g' = fst result ∧
  g_lines g' = g_lines g + snd result ∧
  g_score g' = g_score g + calculateScore (snd result) (g_level g) ∧
  ((g_gameState g' = GAME_OVER ∧ g_currentPiece g' = Some p ∧
    g_ghostPiece g' = g_ghostPiece g ∧
    g_highScore g' = Nat.max (g_highScore g) (g_score g)) ∨
   (g_gameState g' = PLAYING ∧ g_canHold g' = true ∧ g_highScore g' = g_highScore g ∧
    ∃ t ghost,
      g_currentPiece g' = Some (generateNewPiece t) ∧
      isValidMove (generateNewPiece t) (fst result) = true ∧
      getGhostPiecePosition fuel (generateNewPiece t) (g_board g) = Some ghost ∧
      g_ghostPiece g' = Some ghost)).
Proof.
  intros Hshapes Hrnd Hfuel Hcur Hstate Hdy Hblocked. unfold movePiece, movePiece_from.
  rewrite Hcur, Hstate. cbv zeta. rewrite Hblocked.
  destruct (Z.gtb_spec dy 0) as [_|?]; [|lia].
  destruct (clearLines (addPieceToBoard (g_board g) p)) as [clearedBoard linesCleared].
  set (g1 := if 0 <? linesCleared then creditLines linesCleared (g_level g) g else g).
  assert (H1 : g_lines g1 = g_lines g + linesCleared ∧
               g_score g1 = g_score g + calculateScore linesCleared (g_level g) ∧
               g_currentPiece g1 = g_currentPiece g ∧ g_ghostPiece g1 = g_ghostPiece g ∧
               g_highScore g1 = g_highScore g ∧ g_gameState g1 = g_gameState g).
  { unfold g1. destruct linesCleared as [|n]; simpl; [|done].
    unfold calculateScore. simpl. rewrite !Nat.add_0_r. done. }
  destruct H1 as (Hlines1 & Hscore1 & Hc1 & Hgh1 & Hhs1 & Hst1).
  set (g2 := mkGame clearedBoard (g_currentPiece g1) (g_nextPieces g1) (g_bag g1)
                    (g_heldPiece g1) (g_canHold g1) (g_ghostPiece g1) (g_score g1)
                    (g_level g1) (g_lines g1) (g_highScore g1) (g_gameState g1)
                    (g_dropSpeed g1) (g_perfectPieceMode g1) (g_draws g1)).
  destruct (nextPiece_defined (g_perfectPieceMode g) fuel rnd g2 clearedBoard
              Hshapes Hrnd Hfuel)
    as (t & g3 & -> & Hb3 & Hc3 & _ & _ & Hgh3 & Hsc3 & _ & Hli3 & Hhs3 & Hst3 & _ & _).
  simpl in Hb3, Hc3, Hgh3, Hsc3, Hli3, Hhs3, Hst3.
  cbn [mbind option_bind generateNewPiece_of fmap option_fmap option_map].
  destruct (isValidMove (generateNewPiece t) clearedBoard) eqn:Hnew; cbn [negb].
  - destruct (descend_terminates (g_board g) fuel (generateNewPiece t)) as [ghost Hghost].
    + unfold getRotatedShape. simpl. apply Hshapes.
    + simpl. lia.
    + unfold getGhostPiecePosition. rewrite Hghost. simpl.
      eexists. split; [done|]. simpl.
      split; [done|]. split; [congruence|]. split; [congruence|].
      right. split; [congruence|]. split; [done|]. split; [congruence|].
      exists t, ghost. done.
  - eexists. split; [done|]. simpl.
    split; [done|]. split; [congruence|]. split; [congruence|].
    left. split; [done|]. split; [congruence|]. split; [congruence|].
    rewrite Hhs3, Hhs1. destruct (Nat.ltb_spec (g_highScore g) (g_score g)); lia.
Qed.


(** X17: a hard drop of a valid piece moves it to its ghost and adds the
    hard-drop points of the rows it fell; it does not lock the piece: the
    board, the bag and the line count stay as they are, and the piece is
    left where one more step down is not a valid placement. *)
Theorem hardDrop_lands (fuel : nat) (rnd : nat → Q) (g : Game) (p : Tetromino) :
  g_currentPiece g = Some p → g_gameState g = PLAYING →
  isValidMove p (g_board g) = true →
  has_block (getRotatedShape p) →
  Z.to_nat (Z.of_nat BOARD_HEIGHT - pos_y (position p)) < fuel →
  ∃ ghost,
    getGhostPiecePosition fuel p (g_board g) = Some ghost ∧
    hardDrop fuel rnd g
    = Some (mkGame (g_board g) (Some ghost) (g_nextPieces g) (g_bag g) (g_heldPiece g)
                   (g_canHold g) (Some ghost)
                   (g_score g
                    + Z.to_nat (pos_y (position ghost) - pos_y (position p))
                      * POINTS_HARD_DROP)
                   (g_level g) (g_lines g) (g_highScore g) PLAYING (g_dropSpeed g)
                   (g_perfectPieceMode g) (g_draws g)) ∧
    isValidMove ghost (g_board g) = true ∧
    isValidMove (with_y ghost (pos_y (position ghost) + 1)%Z) (g_board g) = false.
Proof.
  intros Hcur Hstate Hvalid Hblock Hfuel.
  destruct (descend_terminates (g_board g) fuel p Hblock Hfuel) as [ghost Hghost].
  exists ghost. split; [exact Hghost|].
  destruct (descend_result _ _ _ _ Hghost) as (v & -> & Hle & Hrun & Hstop).
  assert (Hgv : isValidMove (with_y p v) (g_board g) = true).
  { destruct (decide (v = pos_y (position p))) as [->|Hne].
    - by rewrite with_y_same.
    - apply Hrun. lia. }
  split; [|split; [done|done]].
  unfold hardDrop. rewrite Hcur, Hstate.
  rewrite hardDropLoop_descend, with_y_same, Hghost. simpl.
  unfold movePiece_from. rewrite Hcur, Hstate. cbv zeta.
  assert (Hmoved : mkTetromino (type p) (shape p)
                     (mkPosition (pos_x (position p) + 0)%Z
                        (pos_y (position p) + Z.of_nat (Z.to_nat (v - pos_y (position p))))%Z)
                     (rotation p) = with_y p v).
  { unfold with_y. do 2 f_equal; lia. }
  rewrite Hmoved, Hgv.
  unfold getGhostPiecePosition.
  rewrite (descend_fixed _ _ _ _ Hghost fuel) by lia. simpl. done.
Qed.


(** X18: holding never touches the board, the score, the lines or the game
    state.  With a piece in play and the hold free it stores the kind of the
    piece and locks the hold, so that a second hold changes nothing; a kind
    already held comes back as the new piece without a draw from the bag. *)
Theorem holdPiece_one_shot (fuel : nat) (rnd : nat → Q) (g g' : Game) :
  holdPiece fuel rnd g = Some g' →
  g_board g' = g_board g ∧ g_score g' = g_score g ∧ g_lines g' = g_lines g ∧
  g_level g' = g_level g ∧ g_gameState g' = g_gameState g ∧
  (g_canHold g = false → g' = g) ∧
  ∀ p, g_currentPiece g = Some p → g_canHold g = true → g_gameState g = PLAYING →
    g_heldPiece g' = Some (type p) ∧ g_canHold g' = false ∧
    (∃ t, g_currentPiece g' = Some (generateNewPiece t) ∧
          (∀ h, g_heldPiece g = Some h →
                t = h ∧ g_bag g' = g_bag g ∧ g_draws g' = g_draws g)) ∧
    ∀ fuel' rnd', holdPiece fuel' rnd' g' = Some g'.
Proof.
  unfold holdPiece. intros Hhold.
  destruct (g_currentPiece g) as [p|] eqn:Hcur;
    [|injection Hhold as <-; repeat split; try done; by intros ?].
  destruct (g_canHold g) eqn:Hcan;
    [|injection Hhold as <-; repeat split; try done; by intros ?].
  destruct (decide (g_gameState g = PLAYING)) as [Hstate|Hstate].
  2:{ assert (g' = g) as ->.
      { destruct (g_gameState g); try done; by injection Hhold. }
      repeat split; try done. }
  rewrite Hstate in Hhold.
  assert (Hnew : ∃ t g2,
            (match g_heldPiece g with
             | Some held => Some (generateNewPiece held, g)
             | None =>
                 nextPiece (g_perfectPieceMode g) fuel rnd g (g_board g)
                 ≫= fun '(nextType, g1) =>
                 (fun '(piece, k) =>
                    (piece,
                     mkGame (g_board g1) (g_currentPiece g1) (g_nextPieces g1) (g_bag g1)
                            (g_heldPiece g1) (g_canHold g1) (g_ghostPiece g1) (g_score g1)
                            (g_level g1) (g_lines g1) (g_highScore g1) (g_gameState g1)
                            (g_dropSpeed g1) (g_perfectPieceMode g1) k))
                 <$> generateNewPiece_of rnd (g_draws g1) nextType
             end) = Some (generateNewPiece t, g2) ∧
            g_board g2 = g_board g ∧ g_score g2 = g_score g ∧ g_lines g2 = g_lines g ∧
            g_level g2 = g_level g ∧ g_gameState g2 = g_gameState g ∧
            (∀ h, g_heldPiece g = Some h →
                  t = h ∧ g_bag g2 = g_bag g ∧ g_draws g2 = g_draws g)).
  { destruct (g_heldPiece g) as [h|] eqn:Hheld.
    - exists h, g. repeat split; try done; by simplify_eq.
    - destruct (nextPiece (g_perfectPieceMode g) fuel rnd g (g_board g))
        as [[nextType g1]|] eqn:Hnext; [|done].
      cbn [mbind option_bind] in Hhold |- *.
      destruct (generateNewPiece_of rnd (g_draws g1) nextType) as [[piece k]|] eqn:Hgen;
        [|done].
      destruct (generateNewPiece_of_spawn _ _ _ _ _ Hgen) as [t ->].
      destruct (nextPiece_fields _ _ _ _ _ _ _ Hnext)
        as (Hb & _ & _ & _ & _ & Hsc & Hl & Hli & _ & Hst & _ & _).
      simpl. eexists _, _. split; [done|]. simpl. repeat split; try done. }
  destruct Hnew as (t & g2 & Heq & Hb & Hsc & Hli & Hl & Hst & Hheld).
  rewrite Heq in Hhold. cbn [mbind option_bind] in Hhold.
  destruct (getGhostPiecePosition fuel (generateNewPiece t) (g_board g)) as [ghost|];
    [|done].
  simpl in Hhold. injection Hhold as <-. simpl.
  split; [done|]. split; [done|]. split; [done|]. split; [done|]. split; [done|].
  split; [done|].
  intros q Hq _ _. injection Hq as <-. split; [done|]. split; [done|].
  split; [exists t; split; [done|exact Hheld]|].
  intros fuel' rnd'. done.
Qed.

(** X19: from any session, with a shape table that fits the board, draws
    in [0, 1) and an initial interval of at least 100, [resetGame] starts a
    game that satisfies the invariant of the session: empty board, score 0,
    no line, level 1, nothing held, a first piece in play; the high score
    and the mode flag survive the reset. *)
Theorem resetGame_starts (fuel : nat) (rnd : nat → Q) (g : Game) :
  shapes_fit → (∀ n, unit_interval (rnd n)) → BOARD_HEIGHT < fuel →
  (100 ≤ INITIAL_SPEED)%Z →
  ∃ g', resetGame fuel rnd g = Some g' ∧ game_ok g' ∧
        g_board g' = createEmptyBoard ∧ g_gameState g' = PLAYING ∧
        g_score g' = 0 ∧ g_lines g' = 0 ∧ g_level g' = 1 ∧
        g_heldPiece g' = None ∧ g_canHold g' = true ∧
        g_dropSpeed g' = INITIAL_SPEED ∧
        g_highScore g' = g_highScore g ∧
        g_perfectPieceMode g' = g_perfectPieceMode g ∧
        ∃ t, g_currentPiece g' = Some (generateNewPiece t).
Proof.
  intros Hshapes Hrnd Hfuel Hspeed.
  assert (Hshapes' : ∀ t, square (TETROMINO_SHAPES t) ∧ has_block (TETROMINO_SHAPES t)).
  { intros t. destruct (Hshapes t) as (? & ? & _). done. }
  unfold resetGame. cbv zeta.
  destruct (generateBag rnd (g_draws g)) as [bag0 k0].
  destruct (if length bag0 <? PREVIEW_PIECES + 1 then refill rnd (bag0, k0) else (bag0, k0))
    as [bag1 k1].
  set (g1 := mkGame (g_board g) (g_currentPiece g) (take PREVIEW_PIECES bag1) bag1
                    (g_heldPiece g) (g_canHold g) (g_ghostPiece g) (g_score g) (g_level g)
                    (g_lines g) (g_highScore g) (g_gameState g) (g_dropSpeed g)
                    (g_perfectPieceMode g) k1).
  destruct (nextPiece_defined (g_perfectPieceMode g) fuel rnd g1 createEmptyBoard
              Hshapes' Hrnd Hfuel)
    as (t & g2 & -> & _ & _ & _ & _ & _ & _ & _ & _ & Hhs & _ & _ & Hm).
  simpl in Hhs, Hm.
  cbn [mbind option_bind generateNewPiece_of fmap option_fmap option_map].
  destruct (descend_terminates createEmptyBoard fuel (generateNewPiece t)) as [ghost Hghost].
  { unfold getRotatedShape. simpl. apply Hshapes'. }
  { simpl. lia. }
  unfold getGhostPiecePosition. rewrite Hghost. simpl.
  eexists. split; [done|]. simpl.
  split; [|repeat split; try done; by exists t].
  split; [apply wf_createEmptyBoard|]. split; [done|].
  split; [unfold calculateSpeed; simpl; lia|].
  intros q Hq. injection Hq as <-. split; [done|]. intros _.
  destruct (Hshapes t) as (Hsq & _ & Hpos & HW & HH). by apply spawn_valid.
Qed.


(** ** More on metrics and shapes *)

Lemma find_seq_from (P : nat → bool) a n y :
  find P (seq a n) = Some y ↔
  a ≤ y < a + n ∧ P y = true ∧ ∀ z, a ≤ z < y → P z = false.
Proof.
  revert a. induction n as [|n IH]; intros a.
  - simpl. split; [done|]. intros [? _]. lia.
  - simpl. destruct (P a) eqn:Hpa.
    + split.
      * intros ?. simplify_eq. split; [lia|]. split; [done|]. intros z ?. lia.
      * intros (Hy & Hpy & Hfy). f_equal.
        destruct (decide (a = y)) as [|Hne]; [done|].
        rewrite (Hfy a) in Hpa by lia. done.
    + rewrite IH. split.
      * intros (Hy & Hpy & Hfy). split; [lia|]. split; [done|].
        intros z Hz. destruct (decide (z = a)) as [->|Hne]; [done|]. apply Hfy. lia.
      * intros (Hy & Hpy & Hfy).
        assert (y ≠ a) by (intros ->; congruence).
        split; [lia|]. split; [done|]. intros z Hz. apply Hfy. lia.
Qed.

Lemma find_seq_Some (P : nat → bool) n y :
  find P (seq 0 n) = Some y ↔ y < n ∧ P y = true ∧ ∀ z, z < y → P z = false.
Proof.
  rewrite find_seq_from. split.
  - intros (Hy & Hpy & Hfy). split; [lia|]. split; [done|]. intros z Hz. apply Hfy. lia.
  - intros (Hy & Hpy & Hfy). split; [lia|]. split; [done|]. intros z Hz. apply Hfy. lia.
Qed.

Lemma find_seq_None_from (P : nat → bool) a n :
  find P (seq a n) = None ↔ ∀ z, a ≤ z < a + n → P z = false.
Proof.
  revert a. induction n as [|n IH]; intros a.
  - simpl. split; [|done]. intros _ z ?. lia.
  - simpl. destruct (P a) eqn:Hpa.
    + split; [done|]. intros Hall. rewrite Hall in Hpa by lia. done.
    + rewrite IH. split.
      * intros Hall z Hz. destruct (decide (z = a)) as [->|Hne]; [done|]. apply Hall. lia.
      * intros Hall z Hz. apply Hall. lia.
Qed.

Lemma find_seq_None (P : nat → bool) n :
  find P (seq 0 n) = None ↔ ∀ z, z < n → P z = false.
Proof.
  rewrite find_seq_None_from. split; intros Hall z Hz; apply Hall; lia.
Qed.


Lemma row_has_block board y :
  wf_board board → y < BOARD_HEIGHT →
  existsb notNull (default [] (board !! y)) = true ↔
  ∃ x, x < BOARD_WIDTH ∧ notNull (getCell board y x) = true.
Proof.
  intros Hwf Hy. rewrite existsb_exists. split.
  - intros (c & Hin & Hc).
    destruct (board !! y) as [row|] eqn:Hrow; [|by destruct Hin].
    simpl in Hin. apply list_elem_of_In, list_elem_of_lookup in Hin.
    destruct Hin as [x Hx]. exists x.
    destruct Hwf as [_ Hrows].
    pose proof (Forall_lookup_1 _ _ _ _ Hrows Hrow) as [Hlen _].
    split; [apply lookup_lt_Some in Hx; lia|].
    unfold getCell. rewrite Hrow. simpl. rewrite Hx. done.
  - intros (x & Hx & Hc).
    destruct (wf_getCell board y x Hwf Hy Hx) as (_ & row & Hrow & Hcell).
    exists (getCell board y x). split; [|done].
    rewrite Hrow. simpl. apply list_elem_of_In, list_elem_of_lookup. by exists x.
Qed.

(** X20: the stack height that [calculateBoardMetrics] reads off the rows is
    the height of the tallest column that its bumpiness loop reads off the
    columns: on a well-formed board no column is higher than [height], a
    non-zero [height] is reached by some column, [height] is at most
    [BOARD_HEIGHT], and it is 0 exactly when the board has no non-null cell. *)
Theorem metrics_height_tallest_column (board : Board) :
  wf_board board →
  let h := height (calculateBoardMetrics board) in
  h ≤ BOARD_HEIGHT ∧
  (∀ x, x < BOARD_WIDTH → columnHeight board x ≤ h) ∧
  (0 < h → ∃ x, x < BOARD_WIDTH ∧ columnHeight board x = h) ∧
  (h = 0 ↔ ∀ y x, y < BOARD_HEIGHT → x < BOARD_WIDTH →
             notNull (getCell board y x) = false).
Proof.
  intros Hwf. unfold calculateBoardMetrics. cbn [height]. cbv zeta.
  destruct (find (fun y => existsb notNull (default [] (board !! y)))
              (seq 0 BOARD_HEIGHT)) as [y1|] eqn:Hrows.
  - apply find_seq_Some in Hrows. destruct Hrows as (Hy1 & Hrow1 & Hfirst).
    apply row_has_block in Hrow1; [|done..]. destruct Hrow1 as (x1 & Hx1 & Hc1).
    split; [lia|]. split; [|split].
    + intros x Hx. unfold columnHeight.
      destruct (find _ _) as [y0|] eqn:Hcol; [|lia].
      apply find_seq_Some in Hcol. destruct Hcol as (Hy0 & Hc0 & _).
      destruct (decide (y0 < y1)) as [Hlt|]; [|lia].
      pose proof (Hfirst y0 Hlt) as Hnone.
      assert (Hsome : existsb notNull (default [] (board !! y0)) = true).
      { apply row_has_block; [done|lia|]. by exists x. }
      congruence.
    + intros _. exists x1. split; [done|]. unfold columnHeight.
      destruct (find _ _) as [y0|] eqn:Hcol.
      * apply find_seq_Some in Hcol. destruct Hcol as (Hy0 & Hc0 & Hf0).
        destruct (Nat.lt_trichotomy y0 y1) as [Hlt|[->|Hgt]]; [|done|].
        -- pose proof (Hfirst y0 Hlt) as Hnone.
           assert (Hsome : existsb notNull (default [] (board !! y0)) = true).
           { apply row_has_block; [done|lia|]. by exists x1. }
           congruence.
        -- rewrite (Hf0 y1 Hgt) in Hc1. done.
      * rewrite find_seq_None in Hcol. rewrite (Hcol y1 Hy1) in Hc1. done.
    + split; [lia|]. intros Hall. rewrite (Hall y1 x1 Hy1 Hx1) in Hc1. done.
  - rewrite find_seq_None in Hrows.
    split; [lia|]. split; [|split].
    + intros x Hx. unfold columnHeight.
      destruct (find _ _) as [y0|] eqn:Hcol; [|lia].
      apply find_seq_Some in Hcol. destruct Hcol as (Hy0 & Hc0 & _).
      pose proof (Hrows y0 Hy0) as Hnone.
      assert (Hsome : existsb notNull (default [] (board !! y0)) = true).
      { apply row_has_block; [done..|]. by exists x. }
      congruence.
    + lia.
    + split; [|done]. intros _ y x Hy Hx.
      destruct (notNull (getCell board y x)) eqn:Hc; [|done].
      pose proof (Hrows y Hy) as Hnone.
      assert (Hsome : existsb notNull (default [] (board !! y)) = true).
      { apply row_has_block; [done..|]. by exists x. }
      congruence.
Qed.


Lemma rotateMatrix_cycle m :
  square m → Nat.iter 4 rotateMatrix m = m.
Proof.
  intros Hsq. cbn [Nat.iter nat_rect]. apply (matrix_ext (length m)).
  - rewrite <- (rotateMatrix_length m), <- (rotateMatrix_length (rotateMatrix m)),
      <- (rotateMatrix_length (rotateMatrix (rotateMatrix m))).
    apply rotateMatrix_dims.
  - by apply square_dims.
  - intros a b Ha Hb.
    rewrite rotateMatrix_get by (rewrite !rotateMatrix_length; lia).
    rewrite !rotateMatrix_length.
    rewrite rotateMatrix_get by (rewrite !rotateMatrix_length; lia).
    rewrite !rotateMatrix_length.
    rewrite rotateMatrix_get by (rewrite !rotateMatrix_length; lia).
    rewrite !rotateMatrix_length.
    rewrite rotateMatrix_get by lia.
    f_equal; lia.
Qed.

Lemma rotateMatrix_turns q m :
  square m → Nat.iter (4 * q) rotateMatrix m = m.
Proof.
  intros Hsq. induction q as [|q IH]; [done|].
  replace (4 * S q) with (4 + 4 * q) by lia.
  rewrite Nat.iter_add, IH. by apply rotateMatrix_cycle.
Qed.

(** X21: [getRotatedShape] depends on the rotation count only modulo 4: for
    a square shape, [rotation] quarter turns give the matrix of
    [rotation mod 4] quarter turns, of the same side length, so a placement
    is valid for the one exactly when it is for the other. *)
Theorem getRotatedShape_mod4 (t : TetrominoType) (s : Matrix) (pos : Position)
    (r : nat) (board : Board) :
  square s →
  getRotatedShape (mkTetromino t s pos r) = getRotatedShape (mkTetromino t s pos (r mod 4)) ∧
  length (getRotatedShape (mkTetromino t s pos r)) = length s ∧
  isValidMove (mkTetromino t s pos r) board =
  isValidMove (mkTetromino t s pos (r mod 4)) board.
Proof.
  intros Hsq.
  assert (Heq : getRotatedShape (mkTetromino t s pos r) =
                getRotatedShape (mkTetromino t s pos (r mod 4))).
  { unfold getRotatedShape. cbn [rotation shape].
    transitivity (Nat.iter (r mod 4 + 4 * (r / 4)) rotateMatrix s).
    { f_equal. pose proof (Nat.div_mod_eq r 4). lia. }
    rewrite Nat.iter_add. by rewrite rotateMatrix_turns. }
  split; [exact Heq|]. split.
  - unfold getRotatedShape. cbn [rotation shape].
    clear Heq. induction r as [|r IH]; [done|].
    cbn [Nat.iter nat_rect]. rewrite rotateMatrix_length. exact IH.
  - unfold isValidMove, collides. rewrite Heq. done.
Qed.




(** X23: outside the PLAYING state no action of the player changes the
    session: [movePiece] and [softDropStep] report no move, and they,
    [hardDrop] and [holdPiece] leave every field as it is, whatever the
    random source and the fuel. [pauseGame] is the way out: from every
    state but PLAYING, GAME_OVER and INITIAL included, it sets PLAYING, and
    applied twice to a paused session it gives the session back. *)
Theorem idle_session_frozen (fuel : nat) (rnd : nat → Q) (dx dy : Z) (g : Game) :
  g_gameState g ≠ PLAYING →
  movePiece fuel rnd dx dy g = Some (false, g) ∧
  softDropStep fuel rnd g = Some (false, g) ∧
  hardDrop fuel rnd g = Some g ∧
  holdPiece fuel rnd g = Some g ∧
  g_gameState (pauseGame g) = PLAYING ∧
  (g_gameState g = PAUSED → pauseGame (pauseGame g) = g).
Proof.
  intros Hidle.
  assert (Hmove : ∀ dx' dy', movePiece fuel rnd dx' dy' g = Some (false, g)).
  { intros dx' dy'. apply movePiece_from_idle. by right. }
  split; [apply Hmove|]. split.
  { unfold softDropStep. rewrite Hmove. done. }
  split.
  { unfold hardDrop. destruct (g_currentPiece g); [|done].
    destruct (g_gameState g); done. }
  split.
  { unfold holdPiece. destruct (g_currentPiece g); [|done].
    destruct (g_canHold g); [|done]. destruct (g_gameState g); done. }
  split.
  { unfold pauseGame. simpl. destruct (g_gameState g); done. }
  intros Hpaused. destruct g. simpl in Hpaused. subst. done.
Qed.

End Game.

(** * The properties on the standard game *)

Lemma wf_board_replicate W H c :
  c ≠ Undefined → wf_board W H (replicate H (replicate W c)).
Proof.
  intros Hc. split; [by rewrite length_replicate|].
  apply Forall_replicate. split; [by rewrite length_replicate|].
  by apply Forall_replicate.
Qed.

Lemma standardShapes_wf t :
  square (standardShapes t) ∧ has_block (standardShapes t).
Proof.
  split.
  - destruct t; repeat constructor.
  - destruct t;
      [exists 1, 0, [1; 1; 1; 1], 1 | exists 0, 0, [1; 1], 1
      |exists 0, 1, [0; 1; 0], 1 | exists 0, 1, [0; 1; 1], 1
      |exists 0, 0, [1; 1; 0], 1 | exists 0, 0, [1; 0; 0], 1
      |exists 0, 2, [0; 0; 1], 1]; done.
Qed.

Lemma blankPiece_no_block : ¬ has_block (getRotatedShape blankPiece).
Proof.
  intros (r & c & row & v & Hrow & Hv & Hne). simpl in Hrow.
  destruct r as [|[|r]]; simpl in Hrow; [| |done]; simplify_eq;
    (destruct c as [|[|c]]; simpl in Hv; [| |done]; by simplify_eq).
Qed.

Lemma halves_unit n : unit_interval (halves n).
Proof. split; [discriminate|reflexivity]. Qed.

Lemma rotateMatrix_four_times_witness :
  square (standardShapes TT) ∧
  rotateMatrix (rotateMatrix (rotateMatrix (rotateMatrix (standardShapes TT))))
  = standardShapes TT.
Proof.
  split; [apply standardShapes_wf|].
  apply (rotateMatrix_four_times (standardShapes TT)), standardShapes_wf.
Defined.

Lemma isValidMove_iff_witness :
  wf_board 10 20 emptyBoard ∧
  ∀ y x, occupied (getRotatedShape pieceT) y x →
    (0 ≤ 3 + Z.of_nat x < 10)%Z ∧ (0 + Z.of_nat y < 20)%Z.
Proof.
  split; [by apply wf_board_replicate|]. intros y x Hocc.
  assert (Hwf : wf_board 10 20 emptyBoard) by (by apply wf_board_replicate).
  destruct (proj1 (isValidMove_iff 10 20 pieceT emptyBoard Hwf) eq_refl y x Hocc)
    as (Hx & Hy & _).
  split; [exact Hx|exact Hy].
Defined.

Lemma clearLines_spec_witness :
  length floorBoard = 20 ∧ length (fst (clearLines 10 floorBoard)) = 20.
Proof.
  split; [reflexivity|].
  exact (proj2 (clearLines_spec 10 20 floorBoard eq_refl)).
Defined.

Lemma descent_loops_terminate_witness :
  is_Some (getGhostPiecePosition 10 20 21 pieceT emptyBoard) ∧
  getGhostPiecePosition 10 20 21 blankPiece emptyBoard = None.
Proof.
  split.
  - assert (Hblock : has_block (getRotatedShape pieceT)) by apply standardShapes_wf.
    destruct (proj1 (descent_loops_terminate 10 20 standardShapes pieceT emptyBoard) Hblock)
      as (_ & Hloops & _).
    apply (Hloops 21). simpl. lia.
  - destruct (proj2 (descent_loops_terminate 10 20 standardShapes blankPiece emptyBoard)
                blankPiece_no_block) as (_ & Hloops & _).
    apply (Hloops 21).
Defined.

Lemma getGhostPiecePosition_spec_witness :
  ∃ ghost, getGhostPiecePosition 10 20 21 pieceT emptyBoard = Some ghost ∧
           isValidMove 10 20 (with_y ghost (pos_y (position ghost) + 1)%Z) emptyBoard
           = false.
Proof.
  assert (Hblock : has_block (getRotatedShape pieceT)) by apply standardShapes_wf.
  destruct (getGhostPiecePosition_spec 10 20 pieceT emptyBoard eq_refl Hblock)
    as (ghost & Hrun & _ & _ & _ & _ & _ & _ & _ & Hstop).
  exists ghost. split; [|exact Hstop].
  apply (Hrun 21). simpl. lia.
Defined.

Lemma addPieceToBoard_spec_witness :
  wf_board 10 20 emptyBoard ∧ wf_board 10 20 (addPieceToBoard 20 emptyBoard pieceT).
Proof.
  assert (Hwf : wf_board 10 20 emptyBoard) by (by apply wf_board_replicate).
  split; [exact Hwf|].
  apply (addPieceToBoard_spec 10 20 emptyBoard pieceT Hwf).
  exact (valid_placement_columns 10 20 pieceT emptyBoard Hwf eq_refl).
Defined.

(** The claim C8 read for every piece fails: an O piece whose right column
    is one past the last column of a well-formed board makes the rows it
    touches one cell longer. *)
Lemma addPieceToBoard_widens_row :
  wf_board 10 20 emptyBoard ∧
  length <$> addPieceToBoard 20 emptyBoard edgePiece !! 0 = Some 11 ∧
  ¬ wf_board 10 20 (addPieceToBoard 20 emptyBoard edgePiece).
Proof.
  split; [by apply wf_board_replicate|]. split; [reflexivity|].
  intros [_ Hrows].
  assert (Hrow : addPieceToBoard 20 emptyBoard edgePiece !! 0
                 = Some (replicate 9 Null ++ [Block TO; Block TO])) by reflexivity.
  pose proof (Forall_lookup_1 _ _ _ _ Hrows Hrow) as [Hlen _].
  simpl in Hlen. discriminate.
Qed.


Lemma generateBag_fair_witness :
  (∀ n, unit_interval (halves n)) ∧
  fst (generateBag halves 0) ≡ₚ TETROMINO_TYPES.
Proof.
  split; [exact halves_unit|].
  destruct (generateBag_fair 10 20 standardShapes 3 halves halves_unit) as [Hbag _].
  destruct (Hbag 0) as (_ & Hperm & _). exact Hperm.
Defined.

Lemma findBestPlacement_minimal_witness :
  (∃ r, findBestPlacement 10 20 standardShapes 21 TT emptyBoard = Some r) ∧
  (∃ r k', findBestPlacement_byHoles 10 20 standardShapes 21 halves 0 TT emptyBoard
           = Some (r, k')).
Proof.
  destruct (findBestPlacement_minimal 10 20 standardShapes 21 halves 0 TT emptyBoard)
    as (_ & (r & Hr & _) & (r' & k' & Hr' & _)).
  - apply standardShapes_wf.
  - apply standardShapes_wf.
  - lia.
  - split; [exists r; exact Hr|exists r', k'; exact Hr'].
Defined.

(** The claim C4 read for the revision that reads only the holes fails: on
    the empty board, with draws below one half, the search for the I piece
    returns the upright placement in the last column but one, whose
    composite score 3.2 is above the 0.8 of the valid flat placement at
    column 0. *)
Lemma findBestPlacement_byHoles_not_minimal :
  ∃ k' q q',
    findBestPlacement_byHoles 10 20 standardShapes 21 zeros 0 TI emptyBoard
    = Some (Some (mkHolesPlacement 0 8 3), k') ∧
    landing 10 20 standardShapes 21 TI emptyBoard 3 8 = Some q ∧
    isValidMove 10 20 q emptyBoard = true ∧
    landing 10 20 standardShapes 21 TI emptyBoard 0 0 = Some q' ∧
    isValidMove 10 20 q' emptyBoard = true ∧
    flt (compositeScore 10 20 emptyBoard q') (compositeScore 10 20 emptyBoard q) = true.
Proof.
  eexists _, _, _.
  split; [vm_compute; reflexivity|].
  split; [vm_compute; reflexivity|].
  split; [vm_compute; reflexivity|].
  split; [vm_compute; reflexivity|].
  split; vm_compute; reflexivity.
Qed.

Lemma fullBoard_no_placement t :
  findBestPlacement 10 20 standardShapes 21 t fullBoard = Some None.
Proof. destruct t; vm_compute; reflexivity. Qed.

Lemma selectOptimalPiece_total_witness :
  (∃ t k', selectOptimalPiece 10 20 standardShapes 21 halves 0 fullBoard
           = Some (Some t, k')) ∧
  selectBest 10 20 standardShapes 21 fullBoard TT = Some TT.
Proof.
  destruct (selectOptimalPiece_total 10 20 standardShapes 21 halves 0 fullBoard)
    as ((t & k' & Hsel & _) & _ & Hnull & _).
  - exact standardShapes_wf.
  - exact halves_unit.
  - lia.
  - split; [exists t, k'; exact Hsel|].
    exact (proj1 (Hnull fullBoard_no_placement)).
Defined.

Lemma standardShapes_fit : shapes_fit 10 20 standardShapes.
Proof.
  intros t. destruct (standardShapes_wf t) as [Hsq Hblock].
  split; [exact Hsq|]. split; [exact Hblock|].
  destruct t; simpl; lia.
Qed.


Lemma startedGame_ok : game_ok 10 20 standardShapes 1000 100 startedGame.
Proof.
  split; [by apply wf_board_replicate|]. split; [reflexivity|]. split; [reflexivity|].
  intros p Hp. injection Hp as <-. split; reflexivity.
Qed.

Lemma speed_follows_lines_witness :
  (0 ≤ 100)%Z ∧ 25 ≤ 30 ∧
  calculateLevel 25 ≤ calculateLevel 30 ∧
  (100 ≤ calculateSpeed 1000 100 (calculateLevel 30)
       ≤ calculateSpeed 1000 100 (calculateLevel 25))%Z.
Proof.
  assert (Hmul : (0 ≤ 100)%Z) by lia.
  assert (Hlines : 25 ≤ 30) by lia.
  split; [exact Hmul|]. split; [exact Hlines|].
  exact (proj2 (speed_follows_lines 1000 100 25 30 Hmul Hlines)).
Defined.

Lemma rotatePiece_in_place_witness :
  ∃ s', rotatePiece 10 20 30 (mkSession emptyBoard (Some pieceT) None PLAYING) = Some s' ∧
        s_currentPiece s' =
        Some (mkTetromino TT (standardShapes TT) (mkPosition 3 0) 1).
Proof.
  destruct (rotatePiece_in_place 10 20 30
              (mkSession emptyBoard (Some pieceT) None PLAYING) pieceT eq_refl eq_refl)
    as (ghost & Hrot & _).
  - apply standardShapes_wf.
  - apply standardShapes_wf.
  - simpl. lia.
  - reflexivity.
  - eexists. split; [exact Hrot|reflexivity].
Defined.

Lemma rotatePiece_frame_witness :
  ∃ s', rotatePiece 10 20 30 (mkSession emptyBoard (Some pieceT) None PLAYING) = Some s' ∧
        s_board s' = emptyBoard ∧ s_gameState s' = PLAYING.
Proof.
  destruct (rotatePiece 10 20 30 (mkSession emptyBoard (Some pieceT) None PLAYING))
    as [s'|] eqn:Hrot; [|vm_compute in Hrot; discriminate].
  exists s'. split; [reflexivity|].
  destruct (rotatePiece_frame 10 20 30 _ s' Hrot) as (Hboard & Hstate & _).
  split; [exact Hboard|exact Hstate].
Defined.

Lemma clearLines_settles_witness :
  0 < 10 ∧
  clearLines 10 (fst (clearLines 10 floorBoard)) = (fst (clearLines 10 floorBoard), 0).
Proof.
  assert (HW : 0 < 10) by lia.
  split; [exact HW|].
  exact (proj1 (proj2 (clearLines_settles 10 20 floorBoard HW))).
Defined.

Lemma spawn_on_empty_board_witness :
  square (standardShapes TT) ∧
  isGameOver 10 20 (generateNewPiece 10 standardShapes TT) (createEmptyBoard 10 20)
  = false.
Proof.
  split; [apply standardShapes_wf|].
  destruct (spawn_on_empty_board 10 20 standardShapes TT) as (_ & _ & _ & _ & _ & Hover).
  - apply standardShapes_wf.
  - simpl. lia.
  - simpl. lia.
  - simpl. lia.
  - exact Hover.
Defined.

Lemma findBestPlacement_byHoles_minimal_witness :
  ∃ r k', findBestPlacement_byHoles 10 20 standardShapes 21 halves 0 TT emptyBoard
          = Some (r, k').
Proof.
  destruct (findBestPlacement_byHoles_minimal 10 20 standardShapes 21 halves 0 TT emptyBoard)
    as (r & k' & Hr & _).
  - apply standardShapes_wf.
  - apply standardShapes_wf.
  - lia.
  - exists r, k'. exact Hr.
Defined.

Lemma selectBest_lowest_witness :
  ∃ p, selectBest 10 20 standardShapes 21 emptyBoard TT = Some TI ∧
       findBestPlacement 10 20 standardShapes 21 TI emptyBoard = Some (Some p) ∧
       ∀ t p', findBestPlacement 10 20 standardShapes 21 t emptyBoard = Some (Some p') →
               flt (pl_score p') (pl_score p) = false.
Proof.
  assert (Hfuel : 20 < 21) by lia.
  destruct (selectBest_lowest 10 20 standardShapes 21 emptyBoard TT standardShapes_wf Hfuel)
    as (chosen & Hsel & _ & Hbest).
  assert (Hrun : selectBest 10 20 standardShapes 21 emptyBoard TT = Some TI)
    by (vm_compute; reflexivity).
  rewrite Hrun in Hsel. injection Hsel as <-.
  destruct Hbest as [[Heq _]|(p & Hp & Hmin)]; [discriminate Heq|].
  exists p. split; [reflexivity|]. split; [exact Hp|exact Hmin].
Defined.

Lemma getNextPiece_bag_defined_witness :
  (∀ n, unit_interval (halves n)) ∧
  ∃ t st', getNextPiece 10 20 standardShapes 3 false 0 halves ([], 0) emptyBoard
           = Some (Some t, st').
Proof.
  split; [exact halves_unit|].
  destruct (getNextPiece_bag_defined 10 20 standardShapes 3 0 halves ([], 0) emptyBoard
              halves_unit) as (t & st' & Hnext & _).
  exists t, st'. exact Hnext.
Defined.

Lemma lock_blocks_placement_witness :
  wf_board 10 20 emptyBoard ∧
  isValidMove 10 20 pieceT emptyBoard = true ∧
  wf_board 10 20 (addPieceToBoard 20 emptyBoard pieceT).
Proof.
  assert (Hwf : wf_board 10 20 emptyBoard) by (by apply wf_board_replicate).
  split; [exact Hwf|]. split; [reflexivity|].
  exact (proj1 (lock_blocks_placement 10 20 emptyBoard pieceT Hwf eq_refl)).
Defined.

Lemma simulatePlacement_settled_witness :
  wf_board 10 20 emptyBoard ∧
  ∃ q, landing 10 20 standardShapes 21 TT emptyBoard 0 3 = Some q ∧
       is_Some (simulatePlacement 10 20 standardShapes 21 TT emptyBoard 3 0).
Proof.
  assert (Hwf : wf_board 10 20 emptyBoard) by (by apply wf_board_replicate).
  assert (HW : 0 < 10) by lia.
  split; [exact Hwf|].
  destruct (landing 10 20 standardShapes 21 TT emptyBoard 0 3) as [q|] eqn:Hland;
    [|vm_compute in Hland; discriminate].
  exists q. split; [reflexivity|].
  destruct (simulatePlacement_settled 10 20 standardShapes 21 TT emptyBoard 3 0 q
              Hwf HW Hland) as [[_ Hsim]|(_ & Hsim & _)].
  - rewrite Hsim. eexists. reflexivity.
  - rewrite Hsim. eexists. reflexivity.
Defined.

Lemma movePiece_keeps_game_ok_witness :
  game_ok 10 20 standardShapes 1000 100 startedGame ∧
  ∃ moved g', movePiece 10 20 standardShapes 3 1000 100 21 halves 0 1 startedGame
              = Some (moved, g') ∧
              game_ok 10 20 standardShapes 1000 100 g'.
Proof.
  split; [exact startedGame_ok|].
  destruct (movePiece_keeps_game_ok 10 20 standardShapes 3 1000 100 21 halves 0 1
              startedGame startedGame_ok standardShapes_fit halves_unit)
    as (moved & g' & Hmove & Hok & _).
  - lia.
  - lia.
  - intros p Hp. injection Hp as <-. simpl. lia.
  - exists moved, g'. split; [exact Hmove|exact Hok].
Defined.

Lemma movePiece_locks_witness :
  (∀ n, unit_interval (halves n)) ∧
  ∃ g', movePiece 10 20 standardShapes 3 1000 100 21 halves 0 1 landedGame
        = Some (false, g') ∧
        g_board g' = fst (clearLines 10 (addPieceToBoard 20 emptyBoard landedT)) ∧
        g_lines g' = 0.
Proof.
  split; [exact halves_unit|].
  assert (Hfuel : 20 < 21) by lia.
  assert (Hdy : (0 < 1)%Z) by lia.
  destruct (movePiece_locks 10 20 standardShapes 3 1000 100 21 halves 0 1 landedGame
              landedT standardShapes_wf halves_unit Hfuel eq_refl eq_refl Hdy eq_refl)
    as (g' & Hmove & Hboard & Hlines & _).
  exists g'. split; [exact Hmove|]. split; [exact Hboard|exact Hlines].
Defined.

Lemma hardDrop_lands_witness :
  ∃ g', hardDrop 10 20 standardShapes 3 1000 100 2 21 halves startedGame = Some g' ∧
        g_board g' = emptyBoard ∧ g_gameState g' = PLAYING.
Proof.
  destruct (hardDrop_lands 10 20 standardShapes 3 1000 100 2 21 halves startedGame pieceT
              eq_refl eq_refl eq_refl) as (ghost & _ & Hdrop & _).
  - apply standardShapes_wf.
  - simpl. lia.
  - eexists. split; [exact Hdrop|]. split; reflexivity.
Defined.

Lemma holdPiece_one_shot_witness :
  ∃ g', holdPiece 10 20 standardShapes 3 21 halves startedGame = Some g' ∧
        g_heldPiece g' = Some TT ∧ g_canHold g' = false.
Proof.
  destruct (holdPiece 10 20 standardShapes 3 21 halves startedGame)
    as [g'|] eqn:Hhold; [|vm_compute in Hhold; discriminate].
  exists g'. split; [reflexivity|].
  destruct (holdPiece_one_shot 10 20 standardShapes 3 21 halves startedGame g' Hhold)
    as (_ & _ & _ & _ & _ & _ & Hfirst).
  destruct (Hfirst pieceT eq_refl eq_refl eq_refl) as (Hheld & Hcan & _).
  split; [exact Hheld|exact Hcan].
Defined.

Lemma resetGame_starts_witness :
  ∃ g', resetGame 10 20 standardShapes 3 1000 21 halves landedGame = Some g' ∧
        g_board g' = createEmptyBoard 10 20 ∧ g_score g' = 0.
Proof.
  destruct (resetGame_starts 10 20 standardShapes 3 1000 100 21 halves landedGame
              standardShapes_fit halves_unit)
    as (g' & Hreset & _ & Hboard & _ & Hscore & _).
  - lia.
  - lia.
  - exists g'. split; [exact Hreset|]. split; [exact Hboard|exact Hscore].
Defined.

Lemma metrics_height_tallest_column_witness :
  wf_board 10 20 floorBoard ∧
  ∃ x, x < 10 ∧
       columnHeight 20 floorBoard x = height (calculateBoardMetrics 10 20 floorBoard).
Proof.
  assert (Hwf : wf_board 10 20 floorBoard).
  { split; [reflexivity|]. unfold floorBoard. apply Forall_app. split.
    - apply Forall_replicate. split; [reflexivity|]. by apply Forall_replicate.
    - constructor; [|constructor]. split; [reflexivity|]. by apply Forall_replicate. }
  split; [exact Hwf|].
  destruct (metrics_height_tallest_column 10 20 floorBoard Hwf) as (_ & _ & Htop & _).
  apply Htop. vm_compute. lia.
Defined.

Lemma getRotatedShape_mod4_witness :
  square (standardShapes TT) ∧
  getRotatedShape (mkTetromino TT (standardShapes TT) (mkPosition 3 0) 5) =
  getRotatedShape (mkTetromino TT (standardShapes TT) (mkPosition 3 0) 1).
Proof.
  assert (Hsq : square (standardShapes TT)) by apply standardShapes_wf.
  split; [exact Hsq|].
  exact (proj1 (getRotatedShape_mod4 10 20 TT (standardShapes TT) (mkPosition 3 0) 5
                  emptyBoard Hsq)).
Defined.


Lemma idle_session_frozen_witness :
  g_gameState (pauseGame startedGame) ≠ PLAYING ∧
  hardDrop 10 20 standardShapes 3 1000 100 2 21 halves (pauseGame startedGame)
  = Some (pauseGame startedGame) ∧
  pauseGame (pauseGame (pauseGame startedGame)) = pauseGame startedGame.
Proof.
  assert (Hidle : g_gameState (pauseGame startedGame) ≠ PLAYING) by discriminate.
  split; [exact Hidle|].
  destruct (idle_session_frozen 10 20 standardShapes 3 1000 100 1 2 21 halves 0 1
              (pauseGame startedGame) Hidle) as (_ & _ & Hdrop & _ & _ & Hback).
  split; [exact Hdrop|]. apply Hback. reflexivity.
Defined.
